(** * Simple-Parser-Python: the LL(1) and LR(1) table simulators

    A shallow embedding of [evaluate_ll_input] and [evaluate_lr_input] of
    [simple_parser.py], and the properties of their traces.

    Python values are modelled as follows.
    - A [str] is the list of its code points ([list N]); iterating a string
      yields its code points one by one, and a one-character string is a
      one-element list.
    - A [dict] with string keys is a [gmap]; [d.get(k)] is the lookup [d !! k].
    - A [list] is a [list], with [append] adding at the end and [pop] taking
      from the end; indexing follows Python (negative indices count from
      the end, anything else out of range raises [IndexError]).
    - The [while] loops carry a step budget: [Running] is the answer of a
      loop that is still going when the budget is used up.
    - [print] appends lines to the standard output, threaded explicitly. *)

From Stdlib Require Import ZArith NArith Ascii DecimalString.
From stdpp Require Import gmap strings list.

Set Warnings "-clear-no-such-hyp".

Local Open Scope Z_scope.
Local Open Scope nat_scope.

(** ** Python strings and lists *)

Module Py.

(** A character is a Unicode code point. *)
Definition char : Type := N.
Abbreviation str := (list N).

(** A literal, from its ASCII spelling. *)
Definition lit (s : string) : str :=
  N_of_ascii <$> String.list_ascii_of_string s.

(** The double quote, and the lunate epsilon U+03F5 of the LL tables. *)
Definition dquote : str := [34%N].
Definition epsilon : str := [1013%N].
Definition dollar : char := 36%N.

(** [s.startswith(p)] *)
Fixpoint startswith (s p : str) : bool :=
  match p, s with
  | [], _ => true
  | _ :: _, [] => false
  | a :: p', b :: s' => if decide (a = b) then startswith s' p' else false
  end.

(** [sub in s] *)
Fixpoint contains (sub s : str) : bool :=
  startswith s sub ||
  match s with
  | [] => false
  | _ :: s' => contains sub s'
  end.

(** [s.replace(old, new)]: leftmost occurrences, not overlapping. For a
    non-empty [old], [skip] counts the characters of a matched occurrence
    that are still to be passed over. *)
Fixpoint replace_from (old new : str) (skip : nat) (s : str) : str :=
  match s with
  | [] => []
  | c :: s' =>
      match skip with
      | S k => replace_from old new k s'
      | O =>
          if startswith s old
          then new ++ replace_from old new (length old - 1) s'
          else c :: replace_from old new 0 s'
      end
  end.

(** With an empty [old], Python puts [new] before every character and
    at the end. *)
Definition replace (s old new : str) : str :=
  match old with
  | [] => new ++ concat ((λ c, c :: new) <$> s)
  | _ :: _ => replace_from old new 0 s
  end.

(** [s.lower()], used only to compare with an ASCII literal. Python
    lowercases by the Unicode tables: A-Z go to a-z, and the only other
    code point whose lowercase is an ASCII letter is the Kelvin sign
    U+212A. The remaining code points are left as they are here; their
    lowercase is not ASCII either, so the comparison is the same. *)
Definition lower_char (c : char) : char :=
  if ((65 <=? c) && (c <=? 90))%N then (c + 32)%N
  else if (c =? 8490)%N then 107%N
  else c.

Definition lower (s : str) : str := lower_char <$> s.

(** [sep.join(l)] *)
Fixpoint join (sep : str) (l : list str) : str :=
  match l with
  | [] => []
  | [x] => x
  | x :: l' => x ++ sep ++ join sep l'
  end.

(** [s.split(sep)] for a separator of one character: the pieces between
    its occurrences, at least one piece. [piece] is the piece being read. *)
Fixpoint split_from (sep : char) (piece : str) (s : str) : list str :=
  match s with
  | [] => [piece]
  | c :: s' =>
      if decide (c = sep) then piece :: split_from sep [] s'
      else split_from sep (piece ++ [c]) s'
  end.

Definition split (s : str) (sep : char) : list str := split_from sep [] s.

(** [len(s)], and [' ' * n]: nothing for a negative [n]. *)
Definition len (s : str) : Z := Z.of_nat (length s).
Definition spaces (n : Z) : str := replicate (Z.to_nat n) 32%N.

(** [str(n)] for a natural number *)
Definition str_of_nat (n : nat) : str :=
  lit (NilEmpty.string_of_uint (Nat.to_uint n)).

(** [l.pop()]: the last element and the list without it; [None] stands
    for the [IndexError] of an empty list. *)
Fixpoint pop {A} (l : list A) : option (list A * A) :=
  match l with
  | [] => None
  | x :: l' =>
      match pop l' with
      | None => Some ([], x)
      | Some (r, y) => Some (x :: r, y)
      end
  end.

(** [l.remove(x)]: the first occurrence goes; [None] stands for the
    [ValueError] of an absent element. *)
Fixpoint remove `{EqDecision A} (x : A) (l : list A) : option (list A) :=
  match l with
  | [] => None
  | y :: l' =>
      if decide (x = y) then Some l'
      else (y ::.) <$> remove x l'
  end.

(** [l[k]] for any integer [k]; [None] stands for [IndexError]. *)
Definition getitem {A} (l : list A) (k : Z) : option A :=
  if (0 <=? k)%Z then l !! Z.to_nat k
  else if (- Z.of_nat (length l) <=? k)%Z
       then l !! Z.to_nat (Z.of_nat (length l) + k)
       else None.

(** [l.insert(k, x)]: a negative index counts from the end, and the
    index is clipped to the list. *)
Definition insert {A} (l : list A) (k : Z) (x : A) : list A :=
  let n := Z.of_nat (length l) in
  let k := if (k <? 0)%Z then Z.max 0 (k + n) else Z.min k n in
  take (Z.to_nat k) l ++ x :: drop (Z.to_nat k) l.

Inductive exn := IndexError | ValueError.

(** The answer of a loop that appends records: it returned them, it
    raised after appending some, or it is still running. *)
Inductive outcome (A : Type) :=
| Returned (outputs : list A)
| Raised (e : exn) (outputs : list A)
| Running (outputs : list A).
Arguments Returned {A} outputs.
Arguments Raised {A} e outputs.
Arguments Running {A} outputs.

Definition outputs_of {A} (o : outcome A) : list A :=
  match o with
  | Returned l | Raised _ l | Running l => l
  end.

(** The records [l] appended before the loop went on as [o]. *)
Definition prepend {A} (l : list A) (o : outcome A) : outcome A :=
  match o with
  | Returned l' => Returned (l ++ l')
  | Raised e l' => Raised e (l ++ l')
  | Running l' => Running (l ++ l')
  end.

(** Standard output, a list of printed lines. *)
Abbreviation stdout := (list (list N)).

End Py.

Import Py.

(** [ID_SYMBOL] *)
Definition ID_SYMBOL : str := lit "#".

(** ** The LL(1) simulator *)

Module LL.

(** [class LL] *)
Record t := {
  start_symbol : str;
  start_rule : str;
  table : gmap str (gmap str str)
}.

(** The step record: the keys of [output]. *)
Record output := {
  ACTION : str;
  NO : str;
  STACK : str;
  INPUT : str
}.

(** What one iteration does, before it is rendered as the [ACTION] text. *)
Inductive action :=
| Start
| Accepted
| Match (queue_item : char)
| Produce (stack_item : char) (production : str)
| RejectNoAction (stack_item queue_item : char)
| RejectNotFound (stack_item : char).

Definition action_text (ll : t) (a : action) : str :=
  match a with
  | Start => start_symbol ll ++ lit "->" ++ start_rule ll
  | Accepted => lit "ACCEPTED"
  | Match q => lit "Match and remove " ++ dquote ++ [q] ++ dquote
  | Produce s p => dquote ++ [s] ++ lit "->" ++ p ++ dquote
  | RejectNoAction s q =>
      lit "REJECTED (" ++ dquote ++ [s] ++ dquote
        ++ lit " doesn't have an action/step for "
        ++ dquote ++ [q] ++ dquote ++ lit ")"
  | RejectNotFound s =>
      lit "REJECTED (" ++ dquote ++ [s] ++ dquote
        ++ lit " not found in LL(1) parsing table)"
  end.

(** The records are acceptances, rejections, or steps that go on. *)
Definition final (a : action) : bool :=
  match a with
  | Accepted | RejectNoAction _ _ | RejectNotFound _ => true
  | Start | Match _ | Produce _ _ => false
  end.

(** The body of the [while] loop up to the two [deepcopy] assignments:
    the action, [temp_stack], [temp_queue] and [evaluation_finished]. *)
Definition body (ll : t) (step_counter : nat) (stack queue : list char)
  : exn + (action * list char * list char * bool) :=
  if decide (step_counter = 1) then
    inr (Start, stack ++ reverse (start_rule ll), queue, false)
  else
    match pop stack with
    | None => inl IndexError
    | Some (temp_stack, stack_item) =>
        match queue with
        | [] => inl IndexError
        | queue_item :: _ =>
            if decide (stack_item = dollar ∧ queue_item = dollar) then
              inr (Accepted, temp_stack, queue, true)
            else if decide (stack_item = queue_item) then
              match remove queue_item queue with
              | None => inl ValueError
              | Some temp_queue =>
                  inr (Match queue_item, temp_stack, temp_queue, false)
              end
            else
              match table ll !! [stack_item] with
              | Some productions =>
                  match productions !! [queue_item] with
                  | Some production =>
                      inr (Produce stack_item production,
                           (if decide (production ≠ epsilon)
                            then temp_stack ++ reverse production
                            else temp_stack),
                           queue, false)
                  | None =>
                      inr (RejectNoAction stack_item queue_item,
                           temp_stack, queue, true)
                  end
              | None =>
                  inr (RejectNotFound stack_item, temp_stack, queue, true)
              end
        end
    end.

(** The [output] dict of an iteration: the action it chose, and the stack
    and the queue it started from (["".join] of one-character strings). *)
Definition record (ll : t) (act : action) (step_counter : nat)
    (stack queue : list char) : output :=
  {| ACTION := action_text ll act;
     NO := str_of_nat step_counter;
     STACK := stack;
     INPUT := queue |}.

(** The [while not evaluation_finished] loop. *)
Fixpoint loop (fuel : nat) (ll : t) (step_counter : nat)
    (stack queue : list char) (outputs : list output) : outcome output :=
  match fuel with
  | O => Running outputs
  | S fuel' =>
      match body ll step_counter stack queue with
      | inl e => Raised e outputs
      | inr (act, temp_stack, temp_queue, evaluation_finished) =>
          let output := record ll act step_counter stack queue in
          let outputs := outputs ++ [output] in
          if evaluation_finished then Returned outputs
          else loop fuel' ll (S step_counter) temp_stack temp_queue outputs
      end
  end.

(** The queue and the stack the loop starts from. *)
Definition initial_queue (input : str) : list char :=
  replace input (lit "id") ID_SYMBOL.

Definition initial_stack : list char := [dollar].

(** [evaluate_ll_input] *)
Definition evaluate_ll_input (fuel : nat) (ll : t) (input : str)
    (out : stdout) : outcome output * stdout :=
  let out := out ++ [ [] ] in
  let out := out ++ [ lit "[INFO] | Processing input string " ++ dquote
                        ++ input ++ dquote
                        ++ lit " for LL(1) parsing table." ] in
  (loop fuel ll 1 initial_stack (initial_queue input) [], out).

(** What an action says of the state it is shown with: the stack and the
    remaining input it leads to. Acceptance and rejections lead nowhere. *)
Definition effect (ll : t) (a : action) (stack queue : list char)
  : option (list char * list char) :=
  match a with
  | Start => Some (stack ++ reverse (start_rule ll), queue)
  | Match c =>
      match pop stack, queue with
      | Some (rest, top), head :: tail =>
          if decide (top = c ∧ head = c) then Some (rest, tail) else None
      | _, _ => None
      end
  | Produce s production =>
      match pop stack with
      | Some (rest, top) =>
          if decide (top = s) then
            Some (if decide (production = epsilon) then rest
                  else rest ++ reverse production, queue)
          else None
      | None => None
      end
  | Accepted | RejectNoAction _ _ | RejectNotFound _ => None
  end.

(** The last record of a run that ended: acceptance, or a rejection with
    one of its two causes. *)
Definition ended (ll : t) (r : output) : Prop :=
  ACTION r = action_text ll Accepted
  ∨ (∃ s q, ACTION r = action_text ll (RejectNoAction s q))
  ∨ (∃ s, ACTION r = action_text ll (RejectNotFound s)).

(** A record of a step after which the run goes on. *)
Definition ongoing (ll : t) (r : output) : Prop :=
  ACTION r = action_text ll Start
  ∨ (∃ q, ACTION r = action_text ll (Match q))
  ∨ (∃ s p, ACTION r = action_text ll (Produce s p)).

End LL.

(** ** The LR(1) simulator *)

Module LR.

(** [class LR] *)
Record t := {
  start_state : str;
  table : gmap str (gmap str str)
}.

(** A compound is a [dict] with the key "symbol" and, once it is settled,
    the key "state"; [None] is an absent key, as [.get] reports it. Two
    such dicts are equal in Python exactly when the records are. *)
Record compound := {
  state : option str;
  symbol : option str
}.

#[global] Instance compound_eq_dec : EqDecision compound.
Proof. solve_decision. Defined.

(** The step record: the keys of [output]; "READ" and "ACTION" are absent
    from a record of an iteration that found nothing to read. *)
Record output := {
  READ : option str;
  ACTION : option str;
  NO : str;
  STATE_STACK : str;
  INPUT : str
}.

Inductive action :=
| Accepted
| Shift (prev_state_action : str)
| Reverse (prev_state_action : str)
| RejectPrevSymbol
| RejectIncorrect (symbol prev_state : str)
| RejectNoAction (prev_state symbol : str)
| RejectNoActions
| RejectPrevState
| RejectNoSymbol
| RejectMissing.

(** ["State_" + prev_state.replace('State_', '')] *)
Definition state_name (prev_state : str) : str :=
  lit "State_" ++ replace prev_state (lit "State_") [].

Definition action_text (a : action) : str :=
  match a with
  | Accepted => lit "ACCEPTED"
  | Shift a => lit "Shift to " ++ dquote ++ a ++ dquote
  | Reverse a => lit "Reverse " ++ dquote ++ a ++ dquote
  | RejectPrevSymbol =>
      lit "REJECTED (Previous symbol not found in compounds)"
  | RejectIncorrect symbol prev_state =>
      lit "REJECTED (Incorrect action/step for " ++ dquote ++ symbol
        ++ dquote ++ lit " in " ++ dquote ++ state_name prev_state
        ++ dquote ++ lit ")"
  | RejectNoAction prev_state symbol =>
      lit "REJECTED (" ++ dquote ++ state_name prev_state ++ dquote
        ++ lit " does not have an action/step for " ++ dquote ++ symbol
        ++ dquote ++ lit ")"
  | RejectNoActions =>
      lit "REJECTED (Previous state actions/steps not found in LR(1) table)"
  | RejectPrevState =>
      lit "REJECTED (Previous state not found in compounds)"
  | RejectNoSymbol =>
      lit "REJECTED (" ++ dquote ++ lit "None" ++ dquote
        ++ lit " not found in compounds)"
  | RejectMissing =>
      lit "REJECTED (One or more symbols missing in compounds)"
  end.

Definition rejection (a : action) : bool :=
  match a with
  | Accepted | Shift _ | Reverse _ => false
  | _ => true
  end.

(** The [if]/[elif] chain on the action string, in its order. *)
Inductive variant := VAccept | VShift | VReduce | VIncorrect.

Definition classify (prev_state_action : str) : variant :=
  if decide (lower prev_state_action = lit "accept") then VAccept
  else if startswith prev_state_action (lit "State_") then VShift
  else if contains (lit "->") prev_state_action then VReduce
  else VIncorrect.

(** The [for i, temp_compound in enumerate(temp_compounds)] scan: every
    branch taken at a compound without state ends in [break], so the scan
    stops at the first of them. *)
Fixpoint first_pending (i : nat) (temp_compounds : list compound)
  : option (nat * compound) :=
  match temp_compounds with
  | [] => None
  | temp_compound :: rest =>
      match state temp_compound with
      | None => Some (i, temp_compound)
      | Some _ => first_pending (S i) rest
      end
  end.

(** The [for j in range(1, len(symbols_to_delete) + 1)] loop. *)
Inductive check :=
| CheckRaised
| CheckInvalid
| CheckMissing (compounds_to_delete : list compound)
| CheckDone (compounds_to_delete : list compound).

Fixpoint check_symbols (temp_compounds : list compound) (i : nat)
    (symbols_to_delete : list str) (js : list nat)
    (compounds_to_delete : list compound) : check :=
  match js with
  | [] => CheckDone compounds_to_delete
  | j :: js' =>
      match getitem temp_compounds (Z.of_nat i - Z.of_nat j) with
      | None => CheckRaised
      | Some c =>
          match symbol c with
          | Some temp_symbol =>
              match symbols_to_delete !! (length symbols_to_delete - j) with
              | None => CheckRaised
              | Some s =>
                  if decide (temp_symbol ≠ s) then CheckInvalid
                  else check_symbols temp_compounds i symbols_to_delete js'
                         (compounds_to_delete ++ [c])
              end
          | None => CheckMissing compounds_to_delete
          end
      end
  end.

(** The two statements under [if action_is_valid]; [None] stands for the
    [IndexError] of [prev_state_action[0]] on an empty string. *)
Definition reduce (temp_compounds compounds_to_delete : list compound)
    (prev_state_action : str) : option (list compound) :=
  match prev_state_action with
  | [] => None
  | lhs :: _ =>
      let temp_compounds :=
        filter (λ compound, compound ∉ compounds_to_delete) temp_compounds in
      Some (insert temp_compounds (Z.of_nat (length temp_compounds) - 1)
              {| state := None; symbol := Some [lhs] |})
  end.

(** The [if]/[elif] chain under [if prev_state_action is not None]:
    "READ", the action, [temp_compounds] and [evaluation_finished]. *)
Definition apply_action (temp_compounds : list compound) (i : nat)
    (symbol prev_state prev_state_action : str)
  : exn + (option str * option action * list compound * bool) :=
  match classify prev_state_action with
  | VAccept => inr (Some symbol, Some Accepted, temp_compounds, true)
  | VShift =>
      inr (Some symbol, Some (Shift prev_state_action),
           <[i := {| state := Some prev_state_action;
                     symbol := Some symbol |}]> temp_compounds,
           false)
  | VReduce =>
      let symbols_to_delete := (λ c, [c]) <$> drop 3 prev_state_action in
      match check_symbols temp_compounds i symbols_to_delete
              (seq 1 (length symbols_to_delete)) [] with
      | CheckRaised => inl IndexError
      | CheckInvalid =>
          inr (Some symbol, Some (Reverse prev_state_action),
               temp_compounds, false)
      | CheckMissing compounds_to_delete =>
          match reduce temp_compounds compounds_to_delete
                  prev_state_action with
          | None => inl IndexError
          | Some temp_compounds =>
              inr (Some symbol, Some RejectPrevSymbol, temp_compounds, true)
          end
      | CheckDone compounds_to_delete =>
          match reduce temp_compounds compounds_to_delete
                  prev_state_action with
          | None => inl IndexError
          | Some temp_compounds =>
              inr (Some symbol, Some (Reverse prev_state_action),
                   temp_compounds, false)
          end
      end
  | VIncorrect =>
      inr (Some symbol, Some (RejectIncorrect symbol prev_state),
           temp_compounds, true)
  end.

(** The first half of the body of the [while] loop, down to the action
    string of the table. *)
Definition body (lr : t) (compounds : list compound)
  : exn + (option str * option action * list compound * bool) :=
  let temp_compounds := compounds in
  match first_pending 0 temp_compounds with
  | None => inr (None, None, temp_compounds, false)
  | Some (i, temp_compound) =>
  match symbol temp_compound with
  | None => inr (None, Some RejectNoSymbol, temp_compounds, true)
  | Some symbol =>
  match getitem temp_compounds (Z.of_nat i - 1) with
  | None => inl IndexError
  | Some prev =>
  match state prev with
  | None => inr (Some symbol, Some RejectPrevState, temp_compounds, true)
  | Some prev_state =>
  match table lr !! prev_state with
  | None => inr (Some symbol, Some RejectNoActions, temp_compounds, true)
  | Some prev_state_actions =>
  match prev_state_actions !! symbol with
  | None =>
      inr (Some symbol, Some (RejectNoAction prev_state symbol),
           temp_compounds, true)
  | Some prev_state_action =>
      apply_action temp_compounds i symbol prev_state prev_state_action
  end end end end end end.

(** An iteration on [compounds] reads [symbol] at the first pending
    compound, at index [i], after a compound in [prev_state], and finds
    [prev_state_action] in the table. *)
Definition looks_up (lr : t) (compounds : list compound) (i : nat)
    (symbol prev_state prev_state_action : str) : Prop :=
  ∃ temp_compound prev prev_state_actions,
    first_pending 0 compounds = Some (i, temp_compound)
    ∧ LR.symbol temp_compound = Some symbol
    ∧ getitem compounds (Z.of_nat i - 1) = Some prev
    ∧ state prev = Some prev_state
    ∧ table lr !! prev_state = Some prev_state_actions
    ∧ prev_state_actions !! symbol = Some prev_state_action.

(** The [for compound in compounds] loop that fills the two columns; the
    flag tells that it met a compound without symbol and broke off. *)
Fixpoint columns (compounds : list compound)
    (state_stack_list input_stack_list : list str)
  : list str * list str * bool :=
  match compounds with
  | [] => (state_stack_list, input_stack_list, false)
  | compound :: rest =>
      let state_stack_list :=
        match state compound with
        | Some state =>
            state_stack_list ++ [replace state (lit "State_") []]
        | None => state_stack_list
        end in
      match symbol compound with
      | Some symbol => columns rest state_stack_list (input_stack_list ++ [symbol])
      | None => (state_stack_list, input_stack_list, true)
      end
  end.

(** The [output] dict of an iteration, filled from the compounds the
    iteration started with, and the flag of a missing symbol, which
    replaces the action and ends the run. *)
Definition record (read : option str) (act : option action)
    (step_counter : nat) (compounds : list compound) : output * bool :=
  let '(state_stack_list, input_stack_list, missing) :=
    columns compounds [] [] in
  ({| READ := read;
      ACTION := if missing then Some (action_text RejectMissing)
                else action_text <$> act;
      NO := str_of_nat step_counter;
      STATE_STACK := join (lit " ") state_stack_list;
      INPUT := concat input_stack_list |}, missing).

(** The [while not evaluation_finished] loop. *)
Fixpoint loop (fuel : nat) (lr : t) (step_counter : nat)
    (compounds : list compound) (outputs : list output) : outcome output :=
  match fuel with
  | O => Running outputs
  | S fuel' =>
      match body lr compounds with
      | inl e => Raised e outputs
      | inr (read, act, temp_compounds, evaluation_finished) =>
          let '(output, missing) :=
            record read act step_counter compounds in
          let outputs := outputs ++ [output] in
          if evaluation_finished || missing then Returned outputs
          else loop fuel' lr (S step_counter) temp_compounds outputs
      end
  end.

(** Every compound the simulator builds has the key "symbol". *)
Definition with_symbols (compounds : list compound) : Prop :=
  Forall (λ compound, is_Some (symbol compound)) compounds.

(** The shape of the compounds of a run: the start compound, with the
    empty symbol, and after it compounds with a symbol of one character. *)
Definition shaped (lr : t) (compounds : list compound) : Prop :=
  ∃ rest,
    compounds = {| state := Some (start_state lr); symbol := Some [] |} :: rest
    ∧ Forall (λ compound, ∃ c, symbol compound = Some [c]) rest.

(** The actions that end a run from shaped compounds, and the actions
    after which it goes on. *)
Definition ends (act : action) : Prop :=
  act = Accepted
  ∨ (∃ symbol prev_state, act = RejectIncorrect symbol prev_state)
  ∨ (∃ prev_state symbol, act = RejectNoAction prev_state symbol)
  ∨ act = RejectNoActions.

Definition goes_on (act : action) : Prop :=
  (∃ a, act = Shift a) ∨ (∃ a, act = Reverse a).

(** The compounds the loop starts from. *)
Definition initial_compounds (lr : t) (input : str) : list compound :=
  {| state := Some (start_state lr); symbol := Some [] |}
    :: ((λ symbol, {| state := None; symbol := Some [symbol] |}) <$> input).

(** [evaluate_lr_input] *)
Definition evaluate_lr_input (fuel : nat) (lr : t) (input : str)
    (out : stdout) : outcome output * stdout :=
  let out := out ++ [ [] ] in
  let out := out ++ [ lit "[INFO] | Processing input string " ++ dquote
                        ++ input ++ dquote
                        ++ lit " for LR(1) parsing table." ] in
  (loop fuel lr 1 (initial_compounds lr input) [], out).

End LR.

(** ** The loaders of the tables and of the inputs *)

Module Loader.

(** The separator of the files. *)
Definition semicolon : char := 59%N.

(** [class ParsingInput] *)
Record ParsingInput := {
  method : str;
  string : str
}.

(** [ll_start_symbol], [ll_start_rule] and [ll_start_rule_found]. *)
Record ll_start := {
  ll_start_symbol : str;
  ll_start_rule : str;
  ll_start_rule_found : bool
}.

(** The [for i, token in enumerate(tokens[1:])] loop of
    [generate_ll_table], from the cell of index [i] on. *)
Fixpoint ll_cells (terminals : list str) (non_terminal : str) (i : nat)
    (tokens : list str) (productions : gmap str str) (start : ll_start)
  : exn + (gmap str str * ll_start) :=
  match tokens with
  | [] => inr (productions, start)
  | token :: tokens' =>
      if decide (token ≠ []) then
        let token := replace token (non_terminal ++ lit "->") [] in
        match terminals !! i with
        | None => inl IndexError
        | Some terminal =>
            let productions := <[terminal := token]> productions in
            let start :=
              if ll_start_rule_found start then start
              else {| ll_start_symbol := non_terminal;
                      ll_start_rule := token;
                      ll_start_rule_found := true |} in
            ll_cells terminals non_terminal (S i) tokens' productions start
        end
      else ll_cells terminals non_terminal (S i) tokens' productions start
  end.

(** The [for line in contents[1:]] loop of [generate_ll_table]. *)
Fixpoint ll_rows (terminals : list str) (lines : list str)
    (ll_table : gmap str (gmap str str)) (start : ll_start)
  : exn + (gmap str (gmap str str) * ll_start) :=
  match lines with
  | [] => inr (ll_table, start)
  | line :: lines' =>
      match split line semicolon with
      | [] => inl IndexError
      | non_terminal :: tokens =>
          match ll_cells terminals non_terminal 0 tokens ∅ start with
          | inl e => inl e
          | inr (productions, start) =>
              ll_rows terminals lines'
                (<[non_terminal := productions]> ll_table) start
          end
      end
  end.

(** [line.replace("id", ID_SYMBOL)] *)
Definition normalise (line : str) : str := replace line (lit "id") ID_SYMBOL.

(** [generate_ll_table]; [contents] is the list of lines [read] returns
    (the function overwrites its lines with the normalised ones). *)
Definition generate_ll_table (contents : list str) : exn + LL.t :=
  let contents := normalise <$> contents in
  match contents with
  | [] => inl IndexError
  | header :: lines =>
      let terminals := drop 1 (split header semicolon) in
      match ll_rows terminals lines ∅
              {| ll_start_symbol := [];
                 ll_start_rule := [];
                 ll_start_rule_found := false |} with
      | inl e => inl e
      | inr (ll_table, start) =>
          inr {| LL.start_symbol := ll_start_symbol start;
                 LL.start_rule := ll_start_rule start;
                 LL.table := ll_table |}
      end
  end.

(** The [for i, token in enumerate(tokens[1:])] loop of
    [generate_lr_table]. *)
Fixpoint lr_cells (cond_symbols : list str) (i : nat) (tokens : list str)
    (actions : gmap str str) : exn + gmap str str :=
  match tokens with
  | [] => inr actions
  | token :: tokens' =>
      if decide (token ≠ []) then
        match cond_symbols !! i with
        | None => inl IndexError
        | Some cond_symbol =>
            lr_cells cond_symbols (S i) tokens'
              (<[cond_symbol := token]> actions)
        end
      else lr_cells cond_symbols (S i) tokens' actions
  end.

(** The [for line in contents[2:]] loop of [generate_lr_table], with
    [lr_start_state] and [lr_start_state_found]. *)
Fixpoint lr_rows (cond_symbols : list str) (lines : list str)
    (lr_table : gmap str (gmap str str)) (lr_start_state : str)
    (lr_start_state_found : bool)
  : exn + (gmap str (gmap str str) * str) :=
  match lines with
  | [] => inr (lr_table, lr_start_state)
  | line :: lines' =>
      match split line semicolon with
      | [] => inl IndexError
      | state :: tokens =>
          let lr_start_state :=
            if lr_start_state_found then lr_start_state else state in
          match lr_cells cond_symbols 0 tokens ∅ with
          | inl e => inl e
          | inr actions =>
              lr_rows cond_symbols lines' (<[state := actions]> lr_table)
                lr_start_state true
          end
      end
  end.

(** [generate_lr_table] *)
Definition generate_lr_table (contents : list str) : exn + LR.t :=
  match contents !! 1 with
  | None => inl IndexError
  | Some header =>
      let cond_symbols := drop 1 (split header semicolon) in
      match lr_rows cond_symbols (drop 2 contents) ∅ [] false with
      | inl e => inl e
      | inr (lr_table, lr_start_state) =>
          inr {| LR.start_state := lr_start_state; LR.table := lr_table |}
      end
  end.

(** The warning of [generate_parsing_inputs]. *)
Definition unsupported (method : str) : str :=
  lit "[WARN] | Unsupported parsing method " ++ dquote ++ method ++ dquote
    ++ lit " found in the file " ++ dquote ++ lit "input.txt" ++ dquote
    ++ lit " and ignored.".

(** The [for line in contents[1:]] loop of [generate_parsing_inputs]. *)
Fixpoint parsing_lines (lines : list str)
    (parsing_inputs : list ParsingInput) (out : stdout)
  : (exn + list ParsingInput) * stdout :=
  match lines with
  | [] => (inr parsing_inputs, out)
  | line :: lines' =>
      let tokens := split line semicolon in
      match tokens !! 0 with
      | None => (inl IndexError, out)
      | Some token =>
          if decide (token = lit "LL") then
            match tokens !! 1 with
            | None => (inl IndexError, out)
            | Some string =>
                parsing_lines lines'
                  (parsing_inputs
                     ++ [{| method := lit "LL"; string := string |}]) out
            end
          else if decide (token = lit "LR") then
            match tokens !! 1 with
            | None => (inl IndexError, out)
            | Some string =>
                parsing_lines lines'
                  (parsing_inputs
                     ++ [{| method := lit "LR"; string := string |}]) out
            end
          else parsing_lines lines' parsing_inputs (out ++ [unsupported token])
      end
  end.

(** [generate_parsing_inputs] *)
Definition generate_parsing_inputs (contents : list str) (out : stdout)
  : (exn + list ParsingInput) * stdout :=
  parsing_lines (drop 1 contents) [] out.

(** The cell of column [j] in the tokens of a row after the first one:
    its text, when there is one and it is not empty. *)
Definition cell (tokens : list str) (j : nat) : option str :=
  match tokens !! j with
  | Some token => if decide (token ≠ []) then Some token else None
  | None => None
  end.

(** A row with a cell beyond the columns of the header. *)
Definition overlong (columns : list str) (line : str) : Prop :=
  ∃ k token,
    drop 1 (split line semicolon) !! k = Some token
    ∧ token ≠ [] ∧ length columns ≤ k.

(** A row whose cells are all empty. *)
Definition blank (line : str) : Prop :=
  Forall (λ token, token = []) (drop 1 (split line semicolon)).

End Loader.

(** ** The tables on the console *)

Module Display.

(** [len(col) if max_len < len(col) else max_len] *)
Definition longer (max_len : Z) (col : str) : Z :=
  if (max_len <? len col)%Z then len col else max_len.

(** [col.replace(ID_SYMBOL, "id")] *)
Definition with_id (col : str) : str := replace col ID_SYMBOL (lit "id").

(** The first loop of [display_ll_table_outputs]: the three widths. *)
Fixpoint ll_widths (outputs : list LL.output)
    (no_col_max_len stack_col_max_len input_col_max_len : Z) : Z * Z * Z :=
  match outputs with
  | [] => (no_col_max_len, stack_col_max_len, input_col_max_len)
  | output :: outputs' =>
      ll_widths outputs'
        (longer no_col_max_len (LL.NO output))
        (longer stack_col_max_len (with_id (LL.STACK output)))
        (longer input_col_max_len (with_id (LL.INPUT output)))
  end.

Definition ll_header (no_col_max_len stack_col_max_len input_col_max_len : Z)
  : str :=
  lit "NO" ++ spaces (no_col_max_len - len (lit "NO"))
    ++ lit " | STACK" ++ spaces (stack_col_max_len - len (lit "STACK"))
    ++ lit " | INPUT" ++ spaces (input_col_max_len - len (lit "INPUT"))
    ++ lit " | ACTION".

Definition ll_row (no_col_max_len stack_col_max_len input_col_max_len : Z)
    (output : LL.output) : str :=
  let no_out := with_id (LL.NO output) in
  let stack_out := with_id (LL.STACK output) in
  let input_out := with_id (LL.INPUT output) in
  let action_out := with_id (LL.ACTION output) in
  no_out
    ++ spaces (Z.max (len (lit "NO") - len no_out)
                 (no_col_max_len - len no_out))
    ++ lit " | " ++ stack_out
    ++ spaces (Z.max (len (lit "STACK") - len stack_out)
                 (stack_col_max_len - len stack_out))
    ++ lit " | "
    ++ spaces (Z.max (len (lit "INPUT") - len input_out)
                 (input_col_max_len - len input_out))
    ++ input_out ++ lit " | " ++ action_out.

(** [display_ll_table_outputs] *)
Definition display_ll_table_outputs (outputs : list LL.output)
    (out : stdout) : stdout :=
  let out := out ++ [ [] ] in
  let '(no_col_max_len, stack_col_max_len, input_col_max_len) :=
    ll_widths outputs 0 0 0 in
  let out :=
    out ++ [ll_header no_col_max_len stack_col_max_len input_col_max_len] in
  out ++ (ll_row no_col_max_len stack_col_max_len input_col_max_len
            <$> outputs).

(** The first loop of [display_lr_table_outputs]. *)
Fixpoint lr_widths (outputs : list LR.output)
    (no_col_max_len stack_col_max_len input_col_max_len : Z) : Z * Z * Z :=
  match outputs with
  | [] => (no_col_max_len, stack_col_max_len, input_col_max_len)
  | output :: outputs' =>
      lr_widths outputs'
        (longer no_col_max_len (LR.NO output))
        (longer stack_col_max_len (LR.STATE_STACK output))
        (longer input_col_max_len (LR.INPUT output))
  end.

Definition lr_header (no_col_max_len stack_col_max_len input_col_max_len : Z)
  : str :=
  lit "NO" ++ spaces (no_col_max_len - len (lit "NO"))
    ++ lit " | STATE STACK"
    ++ spaces (stack_col_max_len - len (lit "STATE STACK"))
    ++ lit " | READ | INPUT"
    ++ spaces (input_col_max_len - len (lit "INPUT"))
    ++ lit " | ACTION".

(** The row of a record; a record without "ACTION" prints nothing, and
    an absent "READ" is formatted as [None]. *)
Definition lr_row (no_col_max_len stack_col_max_len input_col_max_len : Z)
    (output : LR.output) : option str :=
  match LR.ACTION output with
  | None => None
  | Some action_out =>
      let no_out := LR.NO output in
      let stack_out := LR.STATE_STACK output in
      let read_out := default (lit "None") (LR.READ output) in
      let input_out := LR.INPUT output in
      Some (no_out
              ++ spaces (Z.max (len (lit "NO") - len no_out)
                           (no_col_max_len - len no_out))
              ++ lit " | " ++ stack_out
              ++ spaces (Z.max (len (lit "STATE STACK") - len stack_out)
                           (stack_col_max_len - len stack_out))
              ++ lit " | " ++ read_out ++ lit "    | "
              ++ spaces (Z.max (len (lit "INPUT") - len input_out)
                           (input_col_max_len - len input_out))
              ++ input_out ++ lit " | " ++ action_out)
  end.

(** [display_lr_table_outputs] *)
Definition display_lr_table_outputs (outputs : list LR.output)
    (out : stdout) : stdout :=
  let out := out ++ [ [] ] in
  let '(no_col_max_len, stack_col_max_len, input_col_max_len) :=
    lr_widths outputs 0 0 0 in
  let out :=
    out ++ [lr_header no_col_max_len stack_col_max_len input_col_max_len] in
  out ++ omap (lr_row no_col_max_len stack_col_max_len input_col_max_len)
           outputs.

End Display.

(** ** The driver *)

Module Main.

(** How [main] ends: it finished, an exception went through it, or one of
    the runs is still going. *)
Inductive status := Done | Failed (e : exn) | Stuck.

Definition unexpected (method : str) : str :=
  lit "[WARN] | Unexpected parsing method " ++ dquote ++ method ++ dquote
    ++ lit " found and ignored.".

(** The [while len(parsing_inputs) > 0] loop; every run has the budget
    [fuel]. *)
Fixpoint loop (fuel : nat) (ll : LL.t) (lr : LR.t)
    (parsing_inputs : list Loader.ParsingInput) (out : stdout)
  : status * stdout :=
  match parsing_inputs with
  | [] => (Done, out)
  | parsing_input :: parsing_inputs' =>
      if decide (Loader.method parsing_input = lit "LL") then
        match LL.evaluate_ll_input fuel ll (Loader.string parsing_input)
                out with
        | (Returned outputs, out) =>
            loop fuel ll lr parsing_inputs'
              (Display.display_ll_table_outputs outputs out)
        | (Raised e _, out) => (Failed e, out)
        | (Running _, out) => (Stuck, out)
        end
      else if decide (Loader.method parsing_input = lit "LR") then
        match LR.evaluate_lr_input fuel lr (Loader.string parsing_input)
                out with
        | (Returned outputs, out) =>
            loop fuel ll lr parsing_inputs'
              (Display.display_lr_table_outputs outputs out)
        | (Raised e _, out) => (Failed e, out)
        | (Running _, out) => (Stuck, out)
        end
      else
        loop fuel ll lr parsing_inputs'
          (out ++ [unexpected (Loader.method parsing_input)])
  end.

Definition read_table (kind file : str) : str :=
  lit "[INFO] | Read " ++ kind ++ lit " parsing table from file " ++ dquote
    ++ file ++ dquote ++ lit ".".

(** [main], from the lines that the three calls of [read] return. *)
Definition main (fuel : nat) (ll_lines lr_lines input_lines : list str)
    (out : stdout) : status * stdout :=
  match Loader.generate_ll_table ll_lines with
  | inl e => (Failed e, out)
  | inr ll =>
      let out := out ++ [read_table (lit "LL(1)") (lit "ll.txt")] in
      match Loader.generate_lr_table lr_lines with
      | inl e => (Failed e, out)
      | inr lr =>
          let out := out ++ [read_table (lit "LR(1)") (lit "lr.txt")] in
          match Loader.generate_parsing_inputs input_lines out with
          | (inl e, out) => (Failed e, out)
          | (inr parsing_inputs, out) =>
              let out :=
                out ++ [lit "[INFO] | Read input strings from file "
                          ++ dquote ++ lit "input.txt" ++ dquote ++ lit "."]
              in
              loop fuel ll lr parsing_inputs out
          end
      end
  end.

End Main.

(** ** The objects that outlive a run *)

(** [main] builds the two table objects once and passes the same objects
    to every call of the simulators. Python passes them by reference, and
    their attributes and [dict]s can be assigned to; so what a call can
    leave behind for a later call is the content of these two objects, and
    the console. Here the simulators are written over this state: where
    the code reads an attribute of [ll] or [lr], the object is read as it
    is at that moment, and every [print] adds a line. All else a call works
    on (the stack, the queue, the compounds, the records) is built anew
    inside the call; strings cannot be changed, and the constants of the
    module are assigned once, when it is loaded. *)
Module Shared.

Record state := {
  ll : LL.t;
  lr : LR.t;
  console : stdout
}.

(** A statement: its value, and the state it leaves. *)
Definition M (A : Type) : Type := state → A * state.

#[global] Instance M_ret : MRet M := λ A a s, (a, s).

#[global] Instance M_bind : MBind M :=
  λ A B f m s, let (a, s') := m s in f a s'.

(** [print(line)] *)
Definition print (line : str) : M unit :=
  λ s, (tt, {| ll := ll s; lr := lr s; console := console s ++ [line] |}).

(** [ll.start_rule] *)
Definition ll_start_rule : M str := λ s, (LL.start_rule (ll s), s).

(** [ll.table.get(stack_item)]: the row is read where it stands in the
    table, and only [.get] is called on it before the next statement. *)
Definition ll_table_get (stack_item : str) : M (option (gmap str str)) :=
  λ s, (LL.table (ll s) !! stack_item, s).

(** [lr.start_state] and [lr.table.get(prev_state)] *)
Definition lr_start_state : M str := λ s, (LR.start_state (lr s), s).

Definition lr_table_get (prev_state : str) : M (option (gmap str str)) :=
  λ s, (LR.table (lr s) !! prev_state, s).

(** The body of the [while] loop of [evaluate_ll_input]. *)
Definition ll_body (step_counter : nat) (stack queue : list char)
  : M (exn + (LL.action * list char * list char * bool)) :=
  if decide (step_counter = 1) then
    start_rule ← ll_start_rule;
    mret (inr (LL.Start, stack ++ reverse start_rule, queue, false))
  else
    match pop stack with
    | None => mret (inl IndexError)
    | Some (temp_stack, stack_item) =>
        match queue with
        | [] => mret (inl IndexError)
        | queue_item :: _ =>
            if decide (stack_item = dollar ∧ queue_item = dollar) then
              mret (inr (LL.Accepted, temp_stack, queue, true))
            else if decide (stack_item = queue_item) then
              mret (match remove queue_item queue with
                    | None => inl ValueError
                    | Some temp_queue =>
                        inr (LL.Match queue_item, temp_stack, temp_queue,
                             false)
                    end)
            else
              productions ← ll_table_get [stack_item];
              mret (match productions with
                    | Some productions =>
                        match productions !! [queue_item] with
                        | Some production =>
                            inr (LL.Produce stack_item production,
                                 (if decide (production ≠ epsilon)
                                  then temp_stack ++ reverse production
                                  else temp_stack),
                                 queue, false)
                        | None =>
                            inr (LL.RejectNoAction stack_item queue_item,
                                 temp_stack, queue, true)
                        end
                    | None =>
                        inr (LL.RejectNotFound stack_item, temp_stack,
                             queue, true)
                    end)
        end
    end.

(** The [output] dict; the text of the start action is made of
    [ll.start_symbol] and [ll.start_rule], read when the record is
    filled. *)
Definition ll_record (act : LL.action) (step_counter : nat)
    (stack queue : list char) : M LL.output :=
  λ s, (LL.record (ll s) act step_counter stack queue, s).

Fixpoint ll_loop (fuel : nat) (step_counter : nat)
    (stack queue : list char) (outputs : list LL.output)
  : M (outcome LL.output) :=
  match fuel with
  | O => mret (Running outputs)
  | S fuel' =>
      ll_body step_counter stack queue ≫= λ result :
        exn + (LL.action * list char * list char * bool),
      match result return M (outcome LL.output) with
      | inl e => mret (Raised e outputs)
      | inr (act, temp_stack, temp_queue, evaluation_finished) =>
          output ← ll_record act step_counter stack queue;
          let outputs := outputs ++ [output] in
          if evaluation_finished then mret (Returned outputs)
          else ll_loop fuel' (S step_counter) temp_stack temp_queue outputs
      end
  end.

(** [evaluate_ll_input(ll, input)], with [ll] the object of the state. *)
Definition evaluate_ll_input (fuel : nat) (input : str)
  : M (outcome LL.output) :=
  print [];;
  print (lit "[INFO] | Processing input string " ++ dquote ++ input
           ++ dquote ++ lit " for LL(1) parsing table.");;
  ll_loop fuel 1 LL.initial_stack (LL.initial_queue input) [].

(** The first half of the body of the [while] loop of
    [evaluate_lr_input]. *)
Definition lr_body (compounds : list LR.compound)
  : M (exn + (option str * option LR.action * list LR.compound * bool)) :=
  let temp_compounds := compounds in
  match LR.first_pending 0 temp_compounds with
  | None => mret (inr (None, None, temp_compounds, false))
  | Some (i, temp_compound) =>
  match LR.symbol temp_compound with
  | None => mret (inr (None, Some LR.RejectNoSymbol, temp_compounds, true))
  | Some symbol =>
  match getitem temp_compounds (Z.of_nat i - 1) with
  | None => mret (inl IndexError)
  | Some prev =>
  match LR.state prev with
  | None =>
      mret (inr (Some symbol, Some LR.RejectPrevState, temp_compounds, true))
  | Some prev_state =>
      prev_state_actions ← lr_table_get prev_state;
      mret (match prev_state_actions with
            | None =>
                inr (Some symbol, Some LR.RejectNoActions, temp_compounds,
                     true)
            | Some prev_state_actions =>
                match prev_state_actions !! symbol with
                | None =>
                    inr (Some symbol,
                         Some (LR.RejectNoAction prev_state symbol),
                         temp_compounds, true)
                | Some prev_state_action =>
                    LR.apply_action temp_compounds i symbol prev_state
                      prev_state_action
                end
            end)
  end end end end.

Fixpoint lr_loop (fuel : nat) (step_counter : nat)
    (compounds : list LR.compound) (outputs : list LR.output)
  : M (outcome LR.output) :=
  match fuel with
  | O => mret (Running outputs)
  | S fuel' =>
      lr_body compounds ≫= λ result :
        exn + (option str * option LR.action * list LR.compound * bool),
      match result return M (outcome LR.output) with
      | inl e => mret (Raised e outputs)
      | inr (read, act, temp_compounds, evaluation_finished) =>
          let '(output, missing) :=
            LR.record read act step_counter compounds in
          let outputs := outputs ++ [output] in
          if evaluation_finished || missing then mret (Returned outputs)
          else lr_loop fuel' (S step_counter) temp_compounds outputs
      end
  end.

(** [evaluate_lr_input(lr, input)], with [lr] the object of the state. *)
Definition evaluate_lr_input (fuel : nat) (input : str)
  : M (outcome LR.output) :=
  print [];;
  print (lit "[INFO] | Processing input string " ++ dquote ++ input
           ++ dquote ++ lit " for LR(1) parsing table.");;
  start_state ← lr_start_state;
  lr_loop fuel 1
    ({| LR.state := Some start_state; LR.symbol := Some [] |}
       :: ((λ symbol, {| LR.state := None; LR.symbol := Some [symbol] |})
             <$> input))
    [].

(** The calls the loop of [main] makes, one after the other on the same
    two objects, and the trace each returns. *)
Inductive call :=
| LLCall (input : str)
| LRCall (input : str).

Definition trace : Type := outcome LL.output + outcome LR.output.

Definition run (fuel : nat) (c : call) : M trace :=
  match c with
  | LLCall input => outputs ← evaluate_ll_input fuel input; mret (inl outputs)
  | LRCall input => outputs ← evaluate_lr_input fuel input; mret (inr outputs)
  end.

Fixpoint runs (fuel : nat) (calls : list call) : M (list trace) :=
  match calls with
  | [] => mret []
  | c :: calls' =>
      outputs ← run fuel c;
      rest ← runs fuel calls';
      mret (outputs :: rest)
  end.

End Shared.

(** ** Tables and inputs of the examples *)

(** [S -> #], the table of the scenario with input "id$". *)
Definition ll_id : LL.t :=
  {| LL.start_symbol := lit "S";
     LL.start_rule := lit "#";
     LL.table := {[ lit "S" := {[ lit "#" := lit "#" ]} ]} |}.

(** [S -> a], started on an input without end marker. *)
Definition ll_a : LL.t :=
  {| LL.start_symbol := lit "S";
     LL.start_rule := lit "a";
     LL.table := {[ lit "S" := {[ lit "a" := lit "a" ]} ]} |}.

(** [S -> S] under the lookahead "a": the entry reproduces its own
    non-terminal. *)
Definition ll_self : LL.t :=
  {| LL.start_symbol := lit "S";
     LL.start_rule := lit "S";
     LL.table := {[ lit "S" := {[ lit "a" := lit "S" ]} ]} |}.

(** [S -> ϵ] as the start rule. *)
Definition ll_eps : LL.t :=
  {| LL.start_symbol := lit "S";
     LL.start_rule := epsilon;
     LL.table := {[ lit "S" := {[ lit "$" := epsilon ]} ]} |}.

(** State 0 shifts "a" to state 1; state 1 reduces by [A -> a] under the
    lookahead "b" and by [A -> b] under the lookahead "$". *)
Definition lr_ab : LR.t :=
  {| LR.start_state := lit "State_0";
     LR.table :=
       {[ lit "State_0" := {[ lit "a" := lit "State_1" ]};
          lit "State_1" := {[ lit "b" := lit "A->a"; lit "$" := lit "A->b" ]}
       ]} |}.

(** State 1 shifts "a" to itself and reduces by [A -> a] under "$": two
    equal settled compounds stand on the stack of the input "aa$". *)
Definition lr_aa : LR.t :=
  {| LR.start_state := lit "State_0";
     LR.table :=
       {[ lit "State_0" := {[ lit "a" := lit "State_1" ]};
          lit "State_1" := {[ lit "a" := lit "State_1"; lit "$" := lit "A->a" ]}
       ]} |}.

(** An entry that begins like a state name and holds an arrow, and an
    entry that is no action at all. *)
Definition lr_odd : LR.t :=
  {| LR.start_state := lit "State_0";
     LR.table :=
       {[ lit "State_0" :=
            {[ lit "a" := lit "State_1->a"; lit "b" := lit "goto 1" ]} ]} |}.

(** The lines of an LR file: a title, the symbols, and two states. *)
Definition lr_file : list str :=
  [lit "LR"; lit ";a;$"; lit "State_0;State_1;"; lit "State_1;;Accept"].

(** The lines of an LL file: the terminals, and the row of [S -> id]. *)
Definition ll_file : list str := [lit ";id;$"; lit "S;S->id;"].

(** The start compound, a settled and a pending compound. *)
Definition lr_start (lr : LR.t) : LR.compound :=
  {| LR.state := Some (LR.start_state lr); LR.symbol := Some [] |}.

Definition settled (state symbol : str) : LR.compound :=
  {| LR.state := Some state; LR.symbol := Some symbol |}.

Definition pending (symbol : str) : LR.compound :=
  {| LR.state := None; LR.symbol := Some symbol |}.

(** * Properties *)

(** Decide a closed proposition by evaluation. *)
Ltac by_compute := refine (bool_decide_unpack _ _); vm_compute; exact I.

(** Spell out the literals of the goal as lists of code points. *)
Ltac eval_lits :=
  repeat match goal with
  | |- context [lit ?s] =>
      let v := eval vm_compute in (lit s) in change (lit s) with v
  end.

(** ** Python lists *)

Section PyLists.
Context {A : Type}.
Implicit Types (l r : list A) (x y : A).

Lemma pop_snoc l x : pop (l ++ [x]) = Some (l, x).
Proof.
  induction l as [|y l IH]; simpl; [done|]. by rewrite IH.
Qed.

Lemma pop_Some l r x : pop l = Some (r, x) → l = r ++ [x].
Proof.
  revert r. induction l as [|y l IH]; intros r; simpl; [done|].
  destruct (pop l) as [[r' z]|] eqn:E.
  - intros [= <- <-]. simpl. f_equal. by apply IH.
  - intros [= <- <-]. destruct l as [|z l]; [done|].
    simpl in E. by destruct (pop l) as [[??]|].
Qed.

Lemma pop_None l : pop l = None → l = [].
Proof.
  destruct l as [|y l]; [done|]. simpl. by destruct (pop l) as [[??]|].
Qed.

Lemma remove_head `{EqDecision A} x l : remove x (x :: l) = Some l.
Proof. simpl. by rewrite decide_True. Qed.

Lemma outputs_of_prepend l (o : outcome A) :
  outputs_of (prepend l o) = l ++ outputs_of o.
Proof. by destruct o. Qed.

Lemma prepend_nil (o : outcome A) : prepend [] o = o.
Proof. by destruct o. Qed.

Lemma prepend_app l r (o : outcome A) :
  prepend (l ++ r) o = prepend l (prepend r o).
Proof. destruct o; simpl; by rewrite (assoc_L (++)). Qed.

End PyLists.

(** ** The LL(1) loop *)

Section LLRun.
Variable ll : LL.t.
Implicit Types (stack queue : list char) (a : LL.action).

Lemma ll_loop_prepend fuel step_counter stack queue outputs :
  LL.loop fuel ll step_counter stack queue outputs
  = prepend outputs (LL.loop fuel ll step_counter stack queue []).
Proof.
  revert step_counter stack queue outputs.
  induction fuel as [|fuel IH]; intros sc st q outs; simpl.
  - by rewrite app_nil_r.
  - destruct (LL.body ll sc st q) as [e|[[[a ts] tq] fin]]; simpl.
    + by rewrite app_nil_r.
    + destruct fin; simpl; [done|].
      rewrite IH, (IH _ _ _ [_]). by rewrite <- prepend_app.
Qed.

(** One iteration, with the records of the rest of the run after its own. *)
Lemma ll_loop_unfold fuel step_counter stack queue :
  LL.loop (S fuel) ll step_counter stack queue []
  = match LL.body ll step_counter stack queue with
    | inl e => Raised e []
    | inr (a, temp_stack, temp_queue, evaluation_finished) =>
        let r := LL.record ll a step_counter stack queue in
        if evaluation_finished then Returned [r]
        else prepend [r]
               (LL.loop fuel ll (S step_counter) temp_stack temp_queue [])
    end.
Proof.
  simpl. destruct (LL.body ll step_counter stack queue)
    as [e|[[[a ts] tq] fin]]; [done|].
  destruct fin; [done|]. by rewrite ll_loop_prepend.
Qed.

(** The cases of one iteration. *)
Lemma ll_body_first stack queue :
  LL.body ll 1 stack queue
  = inr (LL.Start, stack ++ reverse (LL.start_rule ll), queue, false).
Proof. done. Qed.

Lemma ll_body_raises step_counter stack queue e :
  LL.body ll step_counter stack queue = inl e →
  e = IndexError ∧ step_counter ≠ 1 ∧ (stack = [] ∨ queue = []).
Proof.
  unfold LL.body. intros H.
  destruct (decide (step_counter = 1)); [done|].
  destruct (pop stack) as [[ts s]|] eqn:Hpop.
  - destruct queue as [|t q]; [naive_solver|].
    rewrite remove_head in H. repeat case_match; simplify_eq.
  - apply pop_None in Hpop. naive_solver.
Qed.

Lemma ll_body_later step_counter rest s t tail :
  step_counter ≠ 1 →
  LL.body ll step_counter (rest ++ [s]) (t :: tail)
  = if decide (s = dollar ∧ t = dollar) then
      inr (LL.Accepted, rest, t :: tail, true)
    else if decide (s = t) then inr (LL.Match t, rest, tail, false)
    else match LL.table ll !! [s] with
         | Some productions =>
             match productions !! [t] with
             | Some production =>
                 inr (LL.Produce s production,
                      (if decide (production ≠ epsilon)
                       then rest ++ reverse production else rest),
                      t :: tail, false)
             | None => inr (LL.RejectNoAction s t, rest, t :: tail, true)
             end
         | None => inr (LL.RejectNotFound s, rest, t :: tail, true)
         end.
Proof.
  intros Hsc. unfold LL.body. rewrite decide_False by done.
  rewrite pop_snoc, remove_head. done.
Qed.

(** An iteration that does not raise is the first one, or has popped a
    symbol and seen a head of the queue. *)
Lemma ll_body_shape step_counter stack queue a temp_stack temp_queue fin :
  LL.body ll step_counter stack queue = inr (a, temp_stack, temp_queue, fin) →
  step_counter = 1
  ∨ step_counter ≠ 1 ∧ ∃ rest s t tail, stack = rest ++ [s] ∧ queue = t :: tail.
Proof.
  intros H. destruct (decide (step_counter = 1)) as [|Hsc]; [by left|right].
  split; [done|]. unfold LL.body in H. rewrite decide_False in H by done.
  destruct (pop stack) as [[ts s]|] eqn:Hpop; [|done].
  apply pop_Some in Hpop. destruct queue as [|t q]; [done|]. eauto 10.
Qed.

Lemma ll_body_final step_counter stack queue a temp_stack temp_queue fin :
  LL.body ll step_counter stack queue = inr (a, temp_stack, temp_queue, fin) →
  fin = LL.final a.
Proof.
  intros H. destruct (ll_body_shape _ _ _ _ _ _ _ H)
    as [->|(Hsc & rest & s & t & tail & -> & ->)].
  - rewrite ll_body_first in H. by simplify_eq.
  - rewrite ll_body_later in H by done.
    repeat case_match; by simplify_eq.
Qed.

Lemma ll_body_effect step_counter stack queue a temp_stack temp_queue :
  LL.body ll step_counter stack queue
    = inr (a, temp_stack, temp_queue, false) →
  LL.effect ll a stack queue = Some (temp_stack, temp_queue).
Proof.
  intros H. destruct (ll_body_shape _ _ _ _ _ _ _ H)
    as [->|(Hsc & rest & s & t & tail & -> & ->)].
  - rewrite ll_body_first in H. by simplify_eq.
  - rewrite ll_body_later in H by done.
    repeat case_match; simplify_eq; simpl; rewrite pop_snoc;
      repeat case_decide; first [done | exfalso; intuition congruence].
Qed.

Lemma ll_final_ended a step_counter stack queue :
  LL.final a = true → LL.ended ll (LL.record ll a step_counter stack queue).
Proof. unfold LL.ended. destruct a; naive_solver. Qed.

Lemma ll_step_ongoing a step_counter stack queue :
  LL.final a = false → LL.ongoing ll (LL.record ll a step_counter stack queue).
Proof. unfold LL.ongoing. destruct a; naive_solver. Qed.

(** Every way the loop can go, whatever the state it starts from. *)
Lemma ll_loop_outcomes fuel step_counter stack queue :
  match LL.loop fuel ll step_counter stack queue [] with
  | Returned outputs =>
      (∃ front r, outputs = front ++ [r]
                  ∧ Forall (LL.ongoing ll) front ∧ LL.ended ll r)
      ∧ length outputs ≤ fuel
  | Raised e outputs =>
      e = IndexError ∧ Forall (LL.ongoing ll) outputs ∧ length outputs < fuel
  | Running outputs =>
      Forall (LL.ongoing ll) outputs ∧ length outputs = fuel
  end.
Proof.
  revert step_counter stack queue.
  induction fuel as [|fuel IH]; intros sc st q; [done|].
  rewrite ll_loop_unfold.
  destruct (LL.body ll sc st q) as [e|[[[a ts] tq] fin]] eqn:Hbody.
  - apply ll_body_raises in Hbody as [-> _].
    split; [done|]. split; [constructor | simpl; lia].
  - pose proof (ll_body_final _ _ _ _ _ _ _ Hbody) as Hfin.
    destruct fin; simpl.
    + split; [|simpl; lia]. exists [], (LL.record ll a sc st q).
      split; [done|]. split; [constructor | by apply ll_final_ended].
    + assert (LL.ongoing ll (LL.record ll a sc st q)) as Hon
        by by apply ll_step_ongoing.
      specialize (IH (S sc) ts tq).
      destruct (LL.loop fuel ll (S sc) ts tq []) as [outs|e outs|outs]; simpl.
      * destruct IH as [(front & r & -> & Hfront & Hr) Hlen]. split.
        -- exists (LL.record ll a sc st q :: front), r.
           split; [done|]. split; [by constructor | done].
        -- simpl in *. lia.
      * destruct IH as (-> & Houts & Hlen).
        split; [done|]. split; [by constructor | simpl; lia].
      * destruct IH as [Houts Hlen]. split; [by constructor | simpl; lia].
Qed.

End LLRun.

(** ** Texts of the LL(1) actions *)

Lemma ll_text_accepted ll a :
  LL.action_text ll a = lit "ACCEPTED" → a = LL.Accepted.
Proof.
  destruct a; cbn [LL.action_text]; intros H;
    [|done|vm_compute in H; discriminate..].
  assert (45%N ∉ lit "ACCEPTED") as Hnot by by_compute.
  destruct Hnot. rewrite <- H. apply elem_of_app. right. by left.
Qed.

Lemma startswith_prefix p l : startswith (p ++ l) p = true.
Proof.
  induction p as [|a p IH]; [by destruct l|]. simpl. by rewrite decide_True.
Qed.

Lemma contains_unfold sub s :
  contains sub s
  = startswith s sub
    || match s with [] => false | _ :: s' => contains sub s' end.
Proof. by destruct s. Qed.

Lemma contains_app sub l1 l2 : contains sub (l1 ++ sub ++ l2) = true.
Proof.
  induction l1 as [|c l1 IH].
  - simpl. by rewrite contains_unfold, startswith_prefix.
  - rewrite <- app_comm_cons, contains_unfold, IH. by rewrite orb_true_r.
Qed.

(** The texts of acceptance and of the rejections hold no arrow, whatever
    the two symbols they quote. *)
Lemma ll_final_no_arrow ll a :
  LL.final a = true → contains (lit "->") (LL.action_text ll a) = false.
Proof.
  destruct a; try done; intros _; cbn [LL.action_text];
    eval_lits; unfold dquote; cbn [app];
    repeat (rewrite contains_unfold; cbn [startswith];
            repeat case_decide; try discriminate; cbn [orb]);
    reflexivity.
Qed.

(** So the record of a step that goes on is never read as an end. *)
Lemma ll_ongoing_not_ended ll r : LL.ongoing ll r → ¬ LL.ended ll r.
Proof.
  intros Hon Hend.
  assert (∃ a, LL.final a = true ∧ LL.ACTION r = LL.action_text ll a)
    as (a & Hfin & Ha).
  { destruct Hend as [?|[(? & ? & ?)|(? & ?)]];
      (eexists; split; [|eassumption]); reflexivity. }
  destruct Hon as [Hs|[(q & Hq)|(s & p & Hp)]].
  - pose proof (ll_final_no_arrow ll a Hfin) as Hno.
    rewrite <- Ha, Hs in Hno. cbn [LL.action_text] in Hno.
    by rewrite contains_app in Hno.
  - rewrite Hq in Ha. revert Ha. destruct a; try done;
      cbn [LL.action_text]; eval_lits; unfold dquote; cbn [app]; done.
  - rewrite Hp in Ha. revert Ha. destruct a; try done;
      cbn [LL.action_text]; eval_lits; unfold dquote; cbn [app]; done.
Qed.

(** The text of a match holds no arrow either, whatever it quotes. *)
Lemma ll_match_no_arrow ll q :
  contains (lit "->") (LL.action_text ll (LL.Match q)) = false.
Proof.
  cbn [LL.action_text]; eval_lits; unfold dquote; cbn [app];
    repeat (rewrite contains_unfold; cbn [startswith];
            repeat case_decide; try discriminate; cbn [orb]);
    reflexivity.
Qed.

(** Apart from the start rule, whose text is made of two strings of the
    table, the text tells the action. *)
Lemma ll_text_injective ll a a' :
  a ≠ LL.Start → a' ≠ LL.Start →
  LL.action_text ll a = LL.action_text ll a' → a = a'.
Proof.
  intros Ha Ha'. destruct a, a'; try done;
    cbn [LL.action_text]; eval_lits; unfold dquote; cbn [app];
    intros H; try discriminate H; simplify_eq; try done.
  match goal with H : _ ++ [_] = _ ++ [_] |- _ =>
    apply app_inj_tail in H as [-> _] end.
  done.
Qed.

(** A text that reads as a match is the text of that match. *)
Lemma ll_text_match ll a q :
  LL.action_text ll a = LL.action_text ll (LL.Match q) → a = LL.Match q.
Proof.
  intros H.
  assert (a ≠ LL.Start) as Ha.
  { intros ->. pose proof (ll_match_no_arrow ll q) as Hno.
    rewrite <- H in Hno. cbn [LL.action_text] in Hno.
    by rewrite contains_app in Hno. }
  by apply (ll_text_injective ll).
Qed.

(** ** Identifier normalisation *)

Lemma startswith_app s p : startswith s p = true → s = p ++ drop (length p) s.
Proof.
  revert s. induction p as [|a p IH]; intros [|b s]; simpl; try done.
  case_decide; [subst|done]. intros H. f_equal. by apply IH.
Qed.

Lemma elem_of_replace_from x old new skip s :
  x ∈ replace_from old new skip s → x ∈ new ∨ x ∈ s.
Proof.
  revert skip. induction s as [|c s IH]; intros skip;
    cbn [replace_from]; [set_solver|].
  destruct skip as [|k].
  - destruct (startswith (c :: s) old).
    + rewrite elem_of_app. intros [?|H]; [by left|].
      apply IH in H. set_solver.
    + rewrite elem_of_cons. intros [->|H]; [set_solver|].
      apply IH in H. set_solver.
  - intros H. apply IH in H. set_solver.
Qed.

Lemma replace_from_keeps x old new skip s :
  old ≠ [] → x ∉ old → x ∈ drop skip s → x ∈ replace_from old new skip s.
Proof.
  intros Hold Hx. revert skip. induction s as [|c s IH]; intros skip.
  - by rewrite drop_nil.
  - destruct skip as [|k]; cbn [replace_from drop]; [|by apply IH].
    destruct (startswith (c :: s) old) eqn:Hpre.
    + intros Hin. apply elem_of_app. right. apply IH.
      apply startswith_app in Hpre. destruct old as [|o old]; [done|].
      simpl in *. rewrite Nat.sub_0_r. injection Hpre as -> Hs.
      rewrite Hs in Hin. set_solver.
    + rewrite !elem_of_cons. intros [->|Hin]; [by left|].
      right. by apply (IH 0).
Qed.

(** Normalisation neither adds nor removes an end marker. *)
Lemma dollar_in_initial_queue input :
  dollar ∈ LL.initial_queue input ↔ dollar ∈ input.
Proof.
  unfold LL.initial_queue. simpl. split.
  - intros H. apply elem_of_replace_from in H as [H|H]; [|done].
    assert (dollar ∉ ID_SYMBOL) as Hnot by by_compute. by destruct Hnot.
  - intros H. apply replace_from_keeps; [done | by_compute | done].
Qed.

(** ** The records of an LL(1) run *)

Lemma ll_evaluate_loop fuel ll input out :
  (LL.evaluate_ll_input fuel ll input out).1
  = LL.loop fuel ll 1 LL.initial_stack (LL.initial_queue input) [].
Proof. done. Qed.

(** The queue after an iteration: the same, or without its head when
    the iteration matched it. *)
Lemma ll_body_queue ll step_counter stack queue a temp_stack temp_queue fin :
  LL.body ll step_counter stack queue = inr (a, temp_stack, temp_queue, fin) →
  match a with
  | LL.Match t =>
      ∃ rest, stack = rest ++ [t] ∧ queue = t :: temp_queue ∧ t ≠ dollar
  | _ => temp_queue = queue
  end.
Proof.
  intros H. destruct (ll_body_shape _ _ _ _ _ _ _ _ H)
    as [->|(Hsc & rest & s & t & tail & -> & ->)].
  - rewrite ll_body_first in H. by simplify_eq.
  - rewrite ll_body_later in H by done.
    repeat case_match; simplify_eq; try done.
    eexists. split; [done|]. split; [done|]. intros ->.
    match goal with Hn : ¬ _ |- _ => by destruct Hn end.
Qed.

Lemma ll_body_suffix ll step_counter stack queue a temp_stack temp_queue fin :
  LL.body ll step_counter stack queue = inr (a, temp_stack, temp_queue, fin) →
  temp_queue `suffix_of` queue.
Proof.
  intros H. apply ll_body_queue in H. destruct a; subst; try done.
  destruct H as (rest & _ & -> & _). by apply suffix_cons_r.
Qed.

(** Acceptance is chosen with "$" popped and "$" at the head of the queue. *)
Lemma ll_body_accepted ll step_counter stack queue temp_stack temp_queue fin :
  LL.body ll step_counter stack queue
    = inr (LL.Accepted, temp_stack, temp_queue, fin) →
  ∃ rest tail, stack = rest ++ [dollar] ∧ queue = dollar :: tail.
Proof.
  intros H. destruct (ll_body_shape _ _ _ _ _ _ _ _ H)
    as [->|(Hsc & rest & s & t & tail & -> & ->)].
  - rewrite ll_body_first in H. by simplify_eq.
  - rewrite ll_body_later in H by done.
    repeat case_match; simplify_eq. naive_solver.
Qed.

(** Every record of a run is the record of an iteration, taken from a
    state whose queue is an end of the queue the loop started with. *)
Lemma ll_loop_records ll fuel step_counter stack queue r :
  r ∈ outputs_of (LL.loop fuel ll step_counter stack queue []) →
  ∃ a n stack' queue' temp_stack temp_queue fin,
    r = LL.record ll a n stack' queue'
    ∧ LL.body ll n stack' queue' = inr (a, temp_stack, temp_queue, fin)
    ∧ queue' `suffix_of` queue.
Proof.
  revert step_counter stack queue.
  induction fuel as [|fuel IH]; intros sc st q; [by intros ?%elem_of_nil|].
  rewrite ll_loop_unfold.
  destruct (LL.body ll sc st q) as [e|[[[a ts] tq] fin]] eqn:Hbody;
    [by intros ?%elem_of_nil|].
  assert (r = LL.record ll a sc st q →
          ∃ a n stack' queue' temp_stack temp_queue fin,
            r = LL.record ll a n stack' queue'
            ∧ LL.body ll n stack' queue' = inr (a, temp_stack, temp_queue, fin)
            ∧ queue' `suffix_of` q) as Hhere by (intros ->; eauto 10).
  destruct fin; simpl.
  - intros ->%list_elem_of_singleton. by apply Hhere.
  - rewrite outputs_of_prepend. intros [->|Hin]%elem_of_cons; [by apply Hhere|].
    apply IH in Hin as (a' & n & st' & q' & ts' & tq' & fin' & -> & Hb & Hsuf).
    exists a', n, st', q', ts', tq', fin'. split; [done|]. split; [done|].
    etrans; [done|]. by eapply ll_body_suffix.
Qed.

(** The first record, and each record with its successor. *)
Lemma ll_loop_consecutive ll fuel step_counter stack queue :
  let outputs := outputs_of (LL.loop fuel ll step_counter stack queue []) in
  (∀ r, outputs !! 0 = Some r → LL.STACK r = stack ∧ LL.INPUT r = queue)
  ∧ (∀ n r r', outputs !! n = Some r → outputs !! S n = Some r' →
       ∃ a, LL.ACTION r = LL.action_text ll a
            ∧ LL.effect ll a (LL.STACK r) (LL.INPUT r)
              = Some (LL.STACK r', LL.INPUT r')).
Proof.
  revert step_counter stack queue.
  induction fuel as [|fuel IH]; intros sc st q; [done|]. cbv zeta.
  rewrite ll_loop_unfold.
  destruct (LL.body ll sc st q) as [e|[[[a ts] tq] fin]] eqn:Hbody; [done|].
  destruct fin; simpl.
  - split; [by intros r [= <-]|]. by intros [|n] r r' ?.
  - rewrite outputs_of_prepend. destruct (IH (S sc) ts tq) as [IH0 IHn].
    split; [by intros r [= <-]|]. intros [|n] r r'; simpl.
    + intros [= <-] Hr'. apply IH0 in Hr' as [-> ->].
      exists a. split; [done|]. by eapply ll_body_effect.
    + apply IHn.
Qed.

(** The record at a given place of a run: it is the record of the
    iteration with that number, on the stack and the queue it shows, and
    the run goes on from what this iteration leaves. *)
Lemma ll_loop_at ll fuel step_counter stack queue n r :
  outputs_of (LL.loop fuel ll step_counter stack queue []) !! n = Some r →
  ∃ a temp_stack temp_queue fin,
    LL.body ll (step_counter + n) (LL.STACK r) (LL.INPUT r)
      = inr (a, temp_stack, temp_queue, fin)
    ∧ r = LL.record ll a (step_counter + n) (LL.STACK r) (LL.INPUT r)
    ∧ LL.loop fuel ll step_counter stack queue []
      = prepend
          (take (S n)
             (outputs_of (LL.loop fuel ll step_counter stack queue [])))
          (if fin then Returned []
           else LL.loop (fuel - S n) ll (S (step_counter + n))
                  temp_stack temp_queue []).
Proof.
  revert step_counter stack queue n.
  induction fuel as [|fuel IH]; intros sc st q n; [done|].
  rewrite ll_loop_unfold.
  destruct (LL.body ll sc st q) as [e|[[[a ts] tq] fin]] eqn:Hbody; [done|].
  cbv zeta. destruct n as [|n].
  - rewrite Nat.add_0_r. replace (S fuel - 1) with fuel by lia.
    destruct fin; cbn [outputs_of]; [|rewrite outputs_of_prepend];
      intros [= <-]; cbn [LL.record LL.STACK LL.INPUT];
      exists a, ts, tq; eexists; (split; [exact Hbody|]);
      (split; [done|]); cbn [take app]; [done|].
    by rewrite take_0.
  - destruct fin; cbn [outputs_of]; [done|].
    rewrite outputs_of_prepend. cbn [app lookup list_lookup].
    intros Hr.
    destruct (IH _ _ _ _ Hr) as (a' & ts' & tq' & fin' & Hb & Hrec & Hrun).
    rewrite <- Nat.add_succ_comm. exists a', ts', tq', fin'.
    split; [exact Hb|]. split; [exact Hrec|].
    rewrite firstn_cons.
    change (?x :: take ?k ?l) with ([x] ++ take k l).
    rewrite prepend_app. f_equal.
    replace (S fuel - S (S n)) with (fuel - S n) by lia. exact Hrun.
Qed.

(** The record after it shows what this iteration leaves. *)
Lemma ll_loop_next ll fuel step_counter stack queue n r r' a temp_stack
    temp_queue fin :
  outputs_of (LL.loop fuel ll step_counter stack queue []) !! n = Some r →
  outputs_of (LL.loop fuel ll step_counter stack queue []) !! S n = Some r' →
  LL.body ll (step_counter + n) (LL.STACK r) (LL.INPUT r)
    = inr (a, temp_stack, temp_queue, fin) →
  fin = false ∧ LL.STACK r' = temp_stack ∧ LL.INPUT r' = temp_queue.
Proof.
  intros Hr Hr' Hbody.
  destruct (ll_loop_at _ _ _ _ _ _ _ Hr) as (a0 & ts & tq & fin0 & Hb & _ & Hrun).
  rewrite Hbody in Hb. simplify_eq.
  assert (length (take (S n) (outputs_of
            (LL.loop fuel ll step_counter stack queue []))) = S n) as Hlen.
  { apply lookup_lt_Some in Hr'. rewrite length_take. lia. }
  rewrite Hrun, outputs_of_prepend in Hr'.
  rewrite lookup_app_r, Hlen, Nat.sub_diag in Hr' by lia.
  destruct fin0; [done|]. split; [done|].
  by apply (ll_loop_consecutive ll (fuel - S n) (S (step_counter + n)) ts tq).
Qed.

(** Once the loop has returned or raised, a larger budget changes
    nothing. *)
Lemma ll_loop_stable ll fuel more step_counter stack queue outputs o :
  LL.loop fuel ll step_counter stack queue outputs = o →
  (∀ l, o ≠ Running l) →
  LL.loop (fuel + more) ll step_counter stack queue outputs = o.
Proof.
  revert step_counter stack queue outputs.
  induction fuel as [|fuel IH]; intros sc st q outs.
  - intros <- Hrun. by destruct (Hrun outs).
  - cbn [LL.loop Nat.add].
    destruct (LL.body ll sc st q) as [e|[[[a ts] tq] fin]]; [done|].
    destruct fin; [done|]. apply IH.
Qed.

(** With an end marker in the queue and no row for "$" in the table, the
    bottom of the stack is never popped without ending the run, and the
    queue is never emptied: the loop does not raise. *)
Lemma ll_body_keeps_bottom ll step_counter rest queue a temp_stack
    temp_queue :
  LL.table ll !! [dollar] = None →
  LL.body ll step_counter (dollar :: rest) queue
    = inr (a, temp_stack, temp_queue, false) →
  ∃ rest', temp_stack = dollar :: rest'.
Proof.
  intros Hrow H. destruct (ll_body_shape _ _ _ _ _ _ _ _ H)
    as [->|(Hsc & front & s & t & tail & Hst & ->)].
  - rewrite ll_body_first in H. simplify_eq. by eexists.
  - rewrite Hst, ll_body_later in H by done.
    assert (s ≠ dollar → ∃ rest', front = dollar :: rest') as Hfront.
    { intros Hs. destruct front as [|c front]; simplify_eq/=; by eexists. }
    destruct (decide (s = dollar ∧ t = dollar)) as [|Hnot]; [done|].
    destruct (decide (s = t)) as [->|Hne].
    + simplify_eq. apply Hfront. intros ->. by destruct Hnot.
    + destruct (LL.table ll !! [s]) as [productions|] eqn:Hs; [|done].
      destruct (productions !! [t]); [|done]. simplify_eq.
      destruct Hfront as [rest' ->]; [by intros ->; simplify_eq|].
      case_decide; by eexists.
Qed.

Lemma ll_loop_never_raises ll fuel step_counter rest queue :
  LL.table ll !! [dollar] = None → dollar ∈ queue →
  ∀ e outputs,
    LL.loop fuel ll step_counter (dollar :: rest) queue [] ≠ Raised e outputs.
Proof.
  intros Hrow. revert step_counter rest queue.
  induction fuel as [|fuel IH]; intros sc rest q Hq e outs; [done|].
  rewrite ll_loop_unfold.
  destruct (LL.body ll sc (dollar :: rest) q)
    as [e'|[[[a ts] tq] fin]] eqn:Hbody.
  - apply ll_body_raises in Hbody as (_ & _ & [Hs | ->]); [done|].
    by apply elem_of_nil in Hq.
  - destruct fin; [done|].
    destruct (ll_body_keeps_bottom _ _ _ _ _ _ _ Hrow Hbody) as [rest' ->].
    assert (dollar ∈ tq) as Htq.
    { apply ll_body_queue in Hbody. destruct a; subst; try done.
      destruct Hbody as (front & _ & -> & Hne).
      apply elem_of_cons in Hq as [?|?]; [by destruct Hne|done]. }
    specialize (IH (S sc) rest' tq Htq).
    destruct (LL.loop fuel ll (S sc) (dollar :: rest') tq []); simpl;
      [done| |done].
    intros [= -> <-]. by eapply IH.
Qed.

(** ** Claims on the LL(1) simulator *)

(** C3, as stated, fails: the queue of a run on the input "a" is "a", with
    no end marker after it, and the first record shows this queue. *)
Lemma ll_queue_without_end_marker :
  LL.initial_queue (lit "a") ≠ lit "a" ++ [dollar]
  ∧ LL.INPUT <$> outputs_of (LL.evaluate_ll_input 1 ll_a (lit "a") []).1
    = [lit "a"].
Proof. split; [by_compute | reflexivity]. Qed.

(** C3, amended: the stack starts as the end marker alone, and the queue
    as the characters of the input with every "id" replaced by "#"; no
    end marker is appended (the queue holds one exactly when the input
    does), and the first record shows this stack and this queue. *)
Theorem ll_initial_state fuel ll input out :
  LL.initial_stack = [dollar]
  ∧ LL.initial_queue input = replace input (lit "id") ID_SYMBOL
  ∧ (dollar ∈ LL.initial_queue input ↔ dollar ∈ input)
  ∧ outputs_of (LL.evaluate_ll_input (S fuel) ll input out).1 !! 0
    = Some (LL.record ll LL.Start 1 [dollar]
              (replace input (lit "id") ID_SYMBOL)).
Proof.
  split; [done|]. split; [done|]. split; [apply dollar_in_initial_queue|].
  rewrite ll_evaluate_loop, ll_loop_unfold, ll_body_first. simpl.
  by rewrite outputs_of_prepend.
Qed.

(** The state [ll_self] reaches after its first step is reproduced by
    every later step. *)
Lemma ll_self_body step_counter :
  step_counter ≠ 1 →
  LL.body ll_self step_counter (lit "$S") (lit "a$")
  = inr (LL.Produce 83%N (lit "S"), lit "$S", lit "a$", false).
Proof.
  intros H. unfold LL.body. rewrite decide_False by done. reflexivity.
Qed.

Lemma ll_self_spins fuel step_counter outputs :
  2 ≤ step_counter →
  ∃ outputs',
    LL.loop fuel ll_self step_counter (lit "$S") (lit "a$") outputs
    = Running outputs'.
Proof.
  revert step_counter outputs.
  induction fuel as [|fuel IH]; intros sc outs Hsc; [by eexists|].
  cbn [LL.loop]. rewrite ll_self_body by lia. apply IH. lia.
Qed.

(** C4, as stated, fails: with the table [S -> a] and the input "a" (no
    end marker) the run raises [IndexError] on the emptied queue, and with
    the table whose entry is [S -> S] the run on "a$" goes on for ever;
    neither returns a trace. *)
Lemma ll_run_not_total :
  (¬ ∃ fuel outputs,
       (LL.evaluate_ll_input fuel ll_a (lit "a") []).1 = Returned outputs)
  ∧ (¬ ∃ fuel outputs,
         (LL.evaluate_ll_input fuel ll_self (lit "a$") []).1
         = Returned outputs).
Proof.
  split.
  - intros (fuel & outputs & H).
    destruct fuel as [|[|[|fuel]]]; vm_compute in H; discriminate.
  - intros (fuel & outputs & H). rewrite ll_evaluate_loop in H.
    destruct fuel as [|fuel]; [done|].
    cbn [LL.loop] in H. rewrite ll_body_first in H.
    destruct (ll_self_spins fuel 2
                ([] ++ [LL.record ll_self LL.Start 1 LL.initial_stack
                          (LL.initial_queue (lit "a$"))])) as [outs Houts];
      [done|].
    change (LL.initial_stack ++ reverse (LL.start_rule ll_self))
      with (lit "$S") in H.
    change (LL.initial_queue (lit "a$")) with (lit "a$") in H, Houts.
    by rewrite Houts in H.
Qed.

(** C4, amended: the LL simulation need not return (it raises [IndexError]
    when the stack or the queue runs empty, and it can go on for ever),
    but these are all the ways it can go. Within any number of loop
    iterations it has returned a trace whose last record is ACCEPTED or a
    REJECTED with one of the two causes, every earlier record being a
    start, match or production step and none of them an end; or it has
    raised [IndexError] after such steps; or it is still running, with one
    such step per iteration. It does not raise when the input holds an end
    marker and the table has no row for "$". *)
Theorem ll_run_outcomes fuel ll input out :
  match (LL.evaluate_ll_input fuel ll input out).1 with
  | Returned outputs =>
      (∃ front r,
         outputs = front ++ [r]
         ∧ Forall (λ r', LL.ongoing ll r' ∧ ¬ LL.ended ll r') front
         ∧ LL.ended ll r)
      ∧ length outputs ≤ fuel
  | Raised e outputs =>
      e = IndexError
      ∧ Forall (λ r', LL.ongoing ll r' ∧ ¬ LL.ended ll r') outputs
      ∧ length outputs < fuel
      ∧ ¬ (LL.table ll !! [dollar] = None ∧ dollar ∈ input)
  | Running outputs =>
      Forall (λ r', LL.ongoing ll r' ∧ ¬ LL.ended ll r') outputs
      ∧ length outputs = fuel
  end.
Proof.
  assert (∀ l, Forall (LL.ongoing ll) l →
               Forall (λ r', LL.ongoing ll r' ∧ ¬ LL.ended ll r') l) as Hall.
  { intros l Hl. eapply Forall_impl; [exact Hl|]. intros r Hr.
    split; [done | by apply ll_ongoing_not_ended]. }
  rewrite ll_evaluate_loop.
  pose proof (ll_loop_outcomes ll fuel 1 LL.initial_stack
                (LL.initial_queue input)) as H.
  pose proof (ll_loop_never_raises ll fuel 1 [] (LL.initial_queue input))
    as Hraise.
  fold LL.initial_stack in Hraise.
  destruct (LL.loop fuel ll 1 LL.initial_stack (LL.initial_queue input) [])
    as [outs|e outs|outs].
  - destruct H as [(front & r & -> & Hfront & Hr) Hlen]. split; [|done].
    exists front, r. split; [done|]. split; [by apply Hall | done].
  - destruct H as (-> & Houts & Hlen). split; [done|].
    split; [by apply Hall|]. split; [done|]. intros [Hrow Hin].
    by eapply Hraise; [|apply dollar_in_initial_queue|].
  - destruct H as [Houts Hlen]. split; [by apply Hall | done].
Qed.

(** The run of [ll_a] on "a" raises after two steps: its input holds no
    end marker. *)
Lemma ll_run_outcomes_witness :
  ∃ outputs,
    (LL.evaluate_ll_input 3 ll_a (lit "a") []).1 = Raised IndexError outputs
    ∧ length outputs < 3
    ∧ ¬ (LL.table ll_a !! [dollar] = None ∧ dollar ∈ lit "a").
Proof.
  eexists. split; [reflexivity|].
  pose proof (ll_run_outcomes 3 ll_a (lit "a") []) as H. hnf in H.
  destruct H as (_ & _ & Hlen & Hno). split; [exact Hlen | exact Hno].
Defined.


(** C6: in every run, at every record after the first, when the symbol on
    top of the stack that the record shows equals the head of the input it
    shows, and they are not both the end marker, the record says
    [Match and remove] with this symbol, the run goes on from the stack
    without its top and the input without its head, and the next record
    shows them. From a record to the next the input loses exactly its head
    when the record says a match, and stays as it is when it says
    anything else. And the step of every record, of an acceptance or a
    rejection too, leaves the input as the record shows it unless it is a
    match, which leaves it without its head. *)
Theorem ll_match_consumes_head fuel ll input out :
  (∀ n r rest s t tail,
     outputs_of (LL.evaluate_ll_input fuel ll input out).1 !! S n = Some r →
     LL.STACK r = rest ++ [s] → LL.INPUT r = t :: tail →
     s = t → ¬ (s = dollar ∧ t = dollar) →
     LL.ACTION r = lit "Match and remove " ++ dquote ++ [t] ++ dquote
     ∧ (LL.evaluate_ll_input fuel ll input out).1
       = prepend
           (take (S (S n))
              (outputs_of (LL.evaluate_ll_input fuel ll input out).1))
           (LL.loop (fuel - S (S n)) ll (S (S (S n))) rest tail [])
     ∧ ∀ r',
         outputs_of (LL.evaluate_ll_input fuel ll input out).1 !! S (S n)
         = Some r' →
         LL.STACK r' = rest ∧ LL.INPUT r' = tail)
  ∧ (∀ n r r',
       outputs_of (LL.evaluate_ll_input fuel ll input out).1 !! n = Some r →
       outputs_of (LL.evaluate_ll_input fuel ll input out).1 !! S n
       = Some r' →
       (∀ t, LL.ACTION r = lit "Match and remove " ++ dquote ++ [t] ++ dquote →
             LL.INPUT r = t :: LL.INPUT r')
       ∧ ((∀ t, LL.ACTION r
                ≠ lit "Match and remove " ++ dquote ++ [t] ++ dquote) →
          LL.INPUT r' = LL.INPUT r))
  ∧ (∀ n r,
       outputs_of (LL.evaluate_ll_input fuel ll input out).1 !! n = Some r →
       ∃ a temp_stack temp_queue fin,
         LL.body ll (S n) (LL.STACK r) (LL.INPUT r)
           = inr (a, temp_stack, temp_queue, fin)
         ∧ LL.ACTION r = LL.action_text ll a
         ∧ (LL.evaluate_ll_input fuel ll input out).1
           = prepend
               (take (S n)
                  (outputs_of (LL.evaluate_ll_input fuel ll input out).1))
               (if fin then Returned []
                else LL.loop (fuel - S n) ll (S (S n)) temp_stack
                       temp_queue [])
         ∧ match a with
           | LL.Match t => LL.INPUT r = t :: temp_queue
           | _ => temp_queue = LL.INPUT r
           end).
Proof.
  rewrite !ll_evaluate_loop.
  set (run := LL.loop fuel ll 1 LL.initial_stack (LL.initial_queue input) []).
  assert (∀ n r,
            outputs_of run !! n = Some r →
            ∃ a temp_stack temp_queue fin,
              LL.body ll (S n) (LL.STACK r) (LL.INPUT r)
                = inr (a, temp_stack, temp_queue, fin)
              ∧ LL.ACTION r = LL.action_text ll a
              ∧ run = prepend (take (S n) (outputs_of run))
                        (if fin then Returned []
                         else LL.loop (fuel - S n) ll (S (S n)) temp_stack
                                temp_queue [])
              ∧ (∀ r', outputs_of run !! S n = Some r' →
                       LL.STACK r' = temp_stack ∧ LL.INPUT r' = temp_queue))
    as Hat.
  { intros n r Hr.
    destruct (ll_loop_at _ _ _ _ _ _ _ Hr)
      as (a & ts & tq & fin & Hbody & Hrec & Hrun).
    exists a, ts, tq, fin. split; [exact Hbody|].
    split; [by rewrite Hrec|]. split; [exact Hrun|].
    intros r' Hr'.
    by destruct (ll_loop_next _ _ _ _ _ _ _ _ _ _ _ _ Hr Hr' Hbody)
      as (_ & ? & ?). }
  split; [|split].
  - intros n r rest s t tail Hr Hstack Hinput -> Hnot.
    destruct (Hat _ _ Hr) as (a & ts & tq & fin & Hbody & Htext & Hrun & Hnext).
    rewrite Hstack, Hinput, ll_body_later in Hbody by done.
    rewrite decide_False, decide_True in Hbody by done.
    simplify_eq. done.
  - intros n r r' Hr Hr'.
    destruct (Hat _ _ Hr) as (a & ts & tq & fin & Hbody & Htext & _ & Hnext).
    destruct (Hnext _ Hr') as [_ ->]. apply ll_body_queue in Hbody.
    split.
    + intros t Ht. rewrite Htext in Ht.
      apply (ll_text_match ll a t) in Ht as ->.
      by destruct Hbody as (rest & _ & -> & _).
    + intros Hno. destruct a; try done.
      by destruct (Hno queue_item).
  - intros n r Hr.
    destruct (Hat _ _ Hr) as (a & ts & tq & fin & Hbody & Htext & Hrun & _).
    exists a, ts, tq, fin. split; [exact Hbody|]. split; [exact Htext|].
    split; [exact Hrun|]. apply ll_body_queue in Hbody.
    destruct a; try done. by destruct Hbody as (rest & _ & -> & _).
Qed.

(** The match step of the run of [ll_id] on "id$": "#" is on top of the
    stack and at the head of the input of the second record, and the third
    record shows both without it. *)
Lemma ll_match_consumes_head_witness :
  ∃ r r',
    outputs_of (LL.evaluate_ll_input 3 ll_id (lit "id$") []).1 !! 1 = Some r
    ∧ outputs_of (LL.evaluate_ll_input 3 ll_id (lit "id$") []).1 !! 2
      = Some r'
    ∧ LL.STACK r = lit "$" ++ [35%N] ∧ LL.INPUT r = 35%N :: lit "$"
    ∧ ¬ (35%N = dollar ∧ 35%N = dollar)
    ∧ LL.ACTION r = lit "Match and remove " ++ dquote ++ [35%N] ++ dquote
    ∧ LL.STACK r' = lit "$" ∧ LL.INPUT r' = lit "$"
    ∧ LL.INPUT r = 35%N :: LL.INPUT r'.
Proof.
  assert (¬ (35%N = dollar ∧ 35%N = dollar)) as Hnot
    by (intros [H _]; vm_compute in H; discriminate).
  eexists _, _. split; [reflexivity|]. split; [reflexivity|].
  split; [reflexivity|]. split; [reflexivity|]. split; [exact Hnot|].
  destruct (ll_match_consumes_head 3 ll_id (lit "id$") [])
    as (Hmatch & Hnext & _).
  destruct (Hmatch 0 _ (lit "$") 35%N 35%N (lit "$") eq_refl eq_refl eq_refl
              eq_refl Hnot) as (Htext & _ & Hthen).
  destruct (Hthen _ eq_refl) as [Hstack Hinput].
  split; [exact Htext|]. split; [exact Hstack|]. split; [exact Hinput|].
  exact (proj1 (Hnext 1 _ _ eq_refl eq_refl) 35%N Htext).
Defined.



(** C10: a record says ACCEPTED only when the symbol popped from its
    stack and the head of its queue are both "$"; so when the normalised
    input holds no "$", a returned trace does not end in ACCEPTED. *)
Theorem ll_accepted_needs_end_markers fuel ll input out :
  (∀ r, r ∈ outputs_of (LL.evaluate_ll_input fuel ll input out).1 →
        LL.ACTION r = lit "ACCEPTED" →
        ∃ rest tail, LL.STACK r = rest ++ [dollar]
                     ∧ LL.INPUT r = dollar :: tail)
  ∧ (dollar ∉ replace input (lit "id") ID_SYMBOL →
     ∀ outputs r,
       (LL.evaluate_ll_input fuel ll input out).1 = Returned outputs →
       last outputs = Some r →
       LL.ACTION r ≠ lit "ACCEPTED").
Proof.
  assert (∀ r, r ∈ outputs_of (LL.evaluate_ll_input fuel ll input out).1 →
               LL.ACTION r = lit "ACCEPTED" →
               (∃ rest tail, LL.STACK r = rest ++ [dollar]
                             ∧ LL.INPUT r = dollar :: tail)
               ∧ dollar ∈ LL.initial_queue input) as Hacc.
  { intros r Hr Htext. rewrite ll_evaluate_loop in Hr.
    apply ll_loop_records in Hr
      as (a & n & st & q & ts & tq & fin & -> & Hbody & Hsuf).
    apply ll_text_accepted in Htext as ->.
    apply ll_body_accepted in Hbody as (rest & tail & -> & ->).
    split; [by eexists _, _|]. destruct Hsuf as [front ->].
    apply elem_of_app. right. by left. }
  split.
  - intros r Hr Htext. by apply Hacc.
  - intros Hno outputs r Hrun Hlast Htext. destruct Hno.
    apply (Hacc r); [|done]. rewrite Hrun. simpl.
    apply last_Some in Hlast as [front ->].
    apply elem_of_app. right. by left.
Qed.

(** The accepting record of [ll_id] on "id$", and the rejecting run of
    [ll_a] on "b", an input without end marker. *)
Lemma ll_accepted_needs_end_markers_witness :
  (∃ r, outputs_of (LL.evaluate_ll_input 3 ll_id (lit "id$") []).1 !! 2
        = Some r
        ∧ LL.ACTION r = lit "ACCEPTED"
        ∧ ∃ rest tail, LL.STACK r = rest ++ [dollar]
                       ∧ LL.INPUT r = dollar :: tail)
  ∧ (dollar ∉ replace (lit "b") (lit "id") ID_SYMBOL)
  ∧ ∃ outputs r,
      (LL.evaluate_ll_input 2 ll_a (lit "b") []).1 = Returned outputs
      ∧ last outputs = Some r
      ∧ LL.ACTION r ≠ lit "ACCEPTED".
Proof.
  split; [|split].
  - eexists. split; [reflexivity|]. split; [reflexivity|].
    apply (proj1 (ll_accepted_needs_end_markers 3 ll_id (lit "id$") [])).
    + apply list_elem_of_lookup_2 with 2. reflexivity.
    + reflexivity.
  - by_compute.
  - eexists _, _. split; [reflexivity|]. split; [reflexivity|].
    eapply (proj2 (ll_accepted_needs_end_markers 2 ll_a (lit "b") [])).
    + by_compute.
    + reflexivity.
    + reflexivity.
Defined.

(** ** The LR(1) loop *)

Lemma lr_evaluate_loop fuel lr input out :
  (LR.evaluate_lr_input fuel lr input out).1
  = LR.loop fuel lr 1 (LR.initial_compounds lr input) [].
Proof. done. Qed.

Lemma lr_body_looks_up lr compounds i symbol prev_state a :
  LR.looks_up lr compounds i symbol prev_state a →
  LR.body lr compounds = LR.apply_action compounds i symbol prev_state a.
Proof.
  intros (c & prev & acts & Hfirst & Hsym & Hprev & Hstate & Hrow & Hact).
  unfold LR.body. by rewrite Hfirst, Hsym, Hprev, Hstate, Hrow, Hact.
Qed.

(** A step that neither ends the run nor changes the compounds is
    repeated for ever: the loop appends its record again and again. *)
Lemma lr_loop_spins lr compounds read act :
  LR.body lr compounds = inr (read, act, compounds, false) →
  (LR.columns compounds [] []).2 = false →
  ∀ fuel step_counter outputs,
    ∃ outputs',
      LR.loop fuel lr step_counter compounds outputs
      = Running (outputs ++ outputs')
      ∧ length outputs' = fuel
      ∧ Forall (λ r, LR.READ r = read
                     ∧ LR.ACTION r = LR.action_text <$> act) outputs'.
Proof.
  intros Hbody Hcol fuel.
  induction fuel as [|fuel IH]; intros sc outs.
  - exists []. by rewrite app_nil_r.
  - cbn [LR.loop]. rewrite Hbody. unfold LR.record.
    destruct (LR.columns compounds [] []) as [[states symbols] missing].
    simpl in Hcol. subst missing. cbn [orb].
    edestruct IH as (outs' & -> & Hlen & Hall).
    eexists (_ :: outs'). rewrite <- (assoc_L (++)). split; [done|].
    split; [by rewrite <- Hlen|]. by constructor.
Qed.

(** ** The markers of the action strings *)

Lemma lower_accept_shape a :
  lower a = lit "accept" →
  startswith a (lit "State_") = false ∧ contains (lit "->") a = false.
Proof.
  unfold lower. intros H.
  do 7 (destruct a as [|? a]; [try by vm_compute in H|]); [|by vm_compute in H].
  vm_compute (lit "accept") in H. cbn [fmap list_fmap] in H.
  injection H as H1 H2 H3 H4 H5 H6.
  split.
  - cbn. case_decide; [subst|done]. by vm_compute in H1.
  - cbn. repeat case_decide; subst; try done;
      match goal with
      | Hc : lower_char 45%N = _ |- _ => by vm_compute in Hc
      end.
Qed.

(** The four variants and their markers, in the order of the tests. *)
Lemma lr_classify_markers a :
  (LR.classify a = LR.VAccept ↔ lower a = lit "accept")
  ∧ (LR.classify a = LR.VShift ↔ startswith a (lit "State_") = true)
  ∧ (LR.classify a = LR.VReduce ↔
       startswith a (lit "State_") = false ∧ contains (lit "->") a = true)
  ∧ (LR.classify a = LR.VIncorrect ↔
       lower a ≠ lit "accept" ∧ startswith a (lit "State_") = false
       ∧ contains (lit "->") a = false).
Proof.
  unfold LR.classify. destruct (decide (lower a = lit "accept")) as [Hacc|Hacc].
  - destruct (lower_accept_shape a Hacc) as [-> ->]. naive_solver.
  - destruct (startswith a (lit "State_")), (contains (lit "->") a);
      naive_solver.
Qed.

(** ** Compounds with their symbols *)

Lemma getitem_elem_of {A} (l : list A) k x : getitem l k = Some x → x ∈ l.
Proof.
  unfold getitem. repeat case_match; try done; apply list_elem_of_lookup_2.
Qed.

Lemma lr_initial_with_symbols lr input :
  LR.with_symbols (LR.initial_compounds lr input).
Proof.
  constructor; [by eexists|]. apply Forall_fmap, Forall_true.
  intros c. by eexists.
Qed.

Lemma lr_columns_with_symbols compounds states symbols :
  LR.with_symbols compounds → (LR.columns compounds states symbols).2 = false.
Proof.
  intros H. revert states symbols.
  induction H as [|c l [sym Hsym] _ IH]; intros states symbols; [done|].
  cbn [LR.columns]. rewrite Hsym. apply IH.
Qed.

Lemma lr_check_with_symbols compounds i symbols_to_delete js to_delete :
  LR.with_symbols compounds →
  match LR.check_symbols compounds i symbols_to_delete js to_delete with
  | LR.CheckMissing _ => False
  | _ => True
  end.
Proof.
  intros Hwf. revert to_delete.
  induction js as [|j js IH]; intros to_delete; [done|].
  cbn [LR.check_symbols].
  destruct (getitem compounds (Z.of_nat i - Z.of_nat j)) as [c|] eqn:Hc;
    [|done].
  apply getitem_elem_of in Hc.
  destruct (proj1 (Forall_forall _ _) Hwf c Hc) as [sym ->].
  destruct (symbols_to_delete !! _); [|done]. case_decide; [done|]. apply IH.
Qed.

Lemma lr_insert_with_symbols compounds k c :
  LR.with_symbols compounds → is_Some (LR.symbol c) →
  LR.with_symbols (Py.insert compounds k c).
Proof.
  intros Hwf Hc. unfold Py.insert, LR.with_symbols.
  apply Forall_app. split; [by apply Forall_take|].
  constructor; [done|]. by apply Forall_drop.
Qed.

Lemma lr_reduce_with_symbols compounds to_delete a temp_compounds :
  LR.with_symbols compounds →
  LR.reduce compounds to_delete a = Some temp_compounds →
  LR.with_symbols temp_compounds.
Proof.
  intros Hwf. unfold LR.reduce. destruct a as [|lhs a]; [done|].
  intros [= <-]. apply lr_insert_with_symbols; [|by eexists].
  apply Forall_forall. intros c [_ Hc]%list_elem_of_filter.
  by apply (proj1 (Forall_forall _ _) Hwf).
Qed.

(** The invariant of the loop. *)
Lemma lr_body_with_symbols lr compounds read act temp_compounds fin :
  LR.with_symbols compounds →
  LR.body lr compounds = inr (read, act, temp_compounds, fin) →
  LR.with_symbols temp_compounds.
Proof.
  intros Hwf. unfold LR.body, LR.apply_action.
  pose proof lr_reduce_with_symbols as Hred.
  repeat case_match; intros; simplify_eq; try done; try by eapply Hred.
  apply Forall_insert; [done | by eexists].
Qed.

(** Once the loop has returned or raised, a larger budget changes
    nothing. *)
Lemma lr_loop_stable lr fuel more step_counter compounds outputs o :
  LR.loop fuel lr step_counter compounds outputs = o →
  (∀ l, o ≠ Running l) →
  LR.loop (fuel + more) lr step_counter compounds outputs = o.
Proof.
  revert step_counter compounds outputs.
  induction fuel as [|fuel IH]; intros sc c outs.
  - intros <- Hrun. by destruct (Hrun outs).
  - cbn [LR.loop Nat.add].
    destruct (LR.body lr c) as [e|[[[read act] tc] fin]]; [done|].
    destruct (LR.record read act sc c) as [output missing].
    destruct (fin || missing); [done|]. apply IH.
Qed.

(** ** The two steps that never end *)

(** X10: compounds without a pending one are left as they are, with no
    action and no end: the loop goes on for ever. *)
Lemma lr_no_pending_spins lr compounds :
  LR.first_pending 0 compounds = None →
  LR.with_symbols compounds →
  ∀ fuel step_counter outputs,
    ∃ outputs',
      LR.loop fuel lr step_counter compounds outputs
      = Running (outputs ++ outputs')
      ∧ length outputs' = fuel
      ∧ Forall (λ r, LR.READ r = None ∧ LR.ACTION r = None) outputs'.
Proof.
  intros Hnone Hwf.
  apply (lr_loop_spins lr compounds None None).
  - unfold LR.body. by rewrite Hnone.
  - by apply lr_columns_with_symbols.
Qed.

(** X9: a reduce action whose symbols do not match the stack leaves the
    compounds as they are and does not end the run: the loop records the
    same reduction for ever. *)
Lemma lr_mismatch_spins lr compounds i symbol prev_state a :
  LR.looks_up lr compounds i symbol prev_state a →
  LR.classify a = LR.VReduce →
  LR.check_symbols compounds i ((λ c, [c]) <$> drop 3 a)
    (seq 1 (length ((λ c : N, [c]) <$> drop 3 a))) [] = LR.CheckInvalid →
  LR.with_symbols compounds →
  ∀ fuel step_counter outputs,
    ∃ outputs',
      LR.loop fuel lr step_counter compounds outputs
      = Running (outputs ++ outputs')
      ∧ length outputs' = fuel
      ∧ Forall (λ r, LR.READ r = Some symbol
                     ∧ LR.ACTION r = Some (LR.action_text (LR.Reverse a)))
          outputs'.
Proof.
  intros Hlook Hclass Hcheck Hwf.
  apply (lr_loop_spins lr compounds (Some symbol) (Some (LR.Reverse a))).
  - rewrite (lr_body_looks_up _ _ _ _ _ _ Hlook). unfold LR.apply_action.
    rewrite Hclass. cbv zeta. by rewrite Hcheck.
  - by apply lr_columns_with_symbols.
Qed.

(** ** The reduction that works: one pending compound left *)

Lemma getitem_nonneg {A} (l : list A) (n : nat) :
  getitem l (Z.of_nat n) = l !! n.
Proof.
  unfold getitem. destruct (Z.leb_spec 0 (Z.of_nat n)); [|lia].
  by rewrite Nat2Z.id.
Qed.

(** The [for j] loop on a stack that ends with compounds carrying the
    symbols to delete: it collects them, the last one first. *)
Lemma lr_check_matches stack matched rest symbols_to_delete m n to_delete :
  Forall2 (λ c s, LR.symbol c = Some s) matched symbols_to_delete →
  m + n = length matched →
  LR.check_symbols (stack ++ matched ++ rest)
    (length stack + length matched) symbols_to_delete (seq (S m) n) to_delete
  = LR.CheckDone (to_delete ++ reverse (take n matched)).
Proof.
  intros Hall. pose proof (Forall2_length _ _ _ Hall) as Hlen.
  revert m to_delete.
  induction n as [|n IH]; intros m to_delete Hmn.
  - simpl. by rewrite app_nil_r.
  - cbn [seq LR.check_symbols].
    replace (Z.of_nat (length stack + length matched) - Z.of_nat (S m))%Z
      with (Z.of_nat (length stack + n)) by lia.
    rewrite getitem_nonneg, lookup_app_r by lia.
    replace (length stack + n - length stack) with n by lia.
    destruct (lookup_lt_is_Some_2 matched n) as [c Hc]; [lia|].
    rewrite lookup_app_l, Hc by lia.
    destruct (Forall2_lookup_l _ _ _ _ _ Hall Hc) as (s & Hs & Hsym).
    rewrite Hsym.
    replace (length symbols_to_delete - S m) with n by lia.
    rewrite Hs, decide_False by (by intros ?).
    rewrite IH by lia. f_equal.
    rewrite (take_S_r _ _ _ Hc), reverse_snoc.
    by rewrite <- (assoc_L (++)).
Qed.

Lemma filter_all {A} (P : A → Prop) `{∀ x, Decision (P x)} (l : list A) :
  Forall P l → filter P l = l.
Proof.
  induction 1 as [|x l Hx _ IH]; [done|]. by rewrite filter_cons_True, IH.
Qed.

Lemma filter_none {A} (P : A → Prop) `{∀ x, Decision (P x)} (l : list A) :
  Forall (λ x, ¬ P x) l → filter P l = [].
Proof.
  induction 1 as [|x l Hx _ IH]; [done|]. by rewrite filter_cons_False.
Qed.

Lemma insert_before_last {A} (l : list A) (p x : A) :
  Py.insert (l ++ [p]) (Z.of_nat (length (l ++ [p])) - 1) x = l ++ [x; p].
Proof.
  unfold Py.insert. rewrite length_app. simpl.
  replace (Z.of_nat (length l + 1) - 1)%Z with (Z.of_nat (length l)) by lia.
  destruct (Z.ltb_spec (Z.of_nat (length l)) 0); [lia|].
  rewrite Z.min_l, Nat2Z.id by lia.
  by rewrite take_app_length, drop_app_length.
Qed.

(** With one pending compound left, and the matched compounds equal to
    no other compound of the stack, the reduction takes the matched
    compounds away and puts the new pending compound in their place. *)
Lemma lr_reduce_last stack matched p to_delete lhs a :
  (∀ c, c ∈ stack → c ∉ to_delete) →
  (∀ c, c ∈ matched → c ∈ to_delete) →
  p ∉ to_delete →
  LR.reduce (stack ++ matched ++ [p]) to_delete (lhs :: a)
  = Some (stack ++ [pending [lhs]; p]).
Proof.
  intros Hstack Hmatched Hp. unfold LR.reduce. f_equal.
  rewrite !filter_app.
  rewrite (filter_all _ stack) by (by apply Forall_forall).
  rewrite (filter_none _ matched)
    by (apply Forall_forall; intros c Hc Hno; by apply Hno, Hmatched).
  rewrite (filter_all _ [p]) by (by constructor).
  apply insert_before_last.
Qed.

(** X11: a reduction read at the last compound of the sequence, on a
    stack that ends with settled compounds carrying the right-hand side
    in order, none of them equal to a compound further down the stack,
    takes exactly these compounds away and puts the pending left-hand
    symbol in their place, before the lookahead. *)
Lemma lr_reduce_single_lookahead lr stack matched symbol prev_state lhs a :
  LR.looks_up lr (stack ++ matched ++ [pending symbol])
    (length stack + length matched) symbol prev_state (lhs :: a) →
  LR.classify (lhs :: a) = LR.VReduce →
  Forall2 (λ c s, LR.symbol c = Some s) matched
    ((λ c, [c]) <$> drop 3 (lhs :: a)) →
  Forall (λ c, is_Some (LR.state c)) matched →
  (∀ c, c ∈ stack → c ∉ matched) →
  LR.body lr (stack ++ matched ++ [pending symbol])
  = inr (Some symbol, Some (LR.Reverse (lhs :: a)),
         stack ++ [pending [lhs]; pending symbol], false).
Proof.
  intros Hlook Hclass Hall Hsettled Hfresh.
  rewrite (lr_body_looks_up _ _ _ _ _ _ Hlook). unfold LR.apply_action.
  rewrite Hclass. cbv zeta.
  rewrite <- (Forall2_length _ _ _ Hall).
  rewrite (lr_check_matches stack matched [pending symbol] _ 0
             (length matched) [] Hall) by done.
  rewrite take_ge by done. cbn [app].
  rewrite (lr_reduce_last stack matched (pending symbol)); [done|..].
  - intros c Hc. rewrite elem_of_reverse. by apply Hfresh.
  - intros c Hc. by rewrite elem_of_reverse.
  - rewrite elem_of_reverse. intros Hin.
    by destruct (proj1 (Forall_forall _ _) Hsettled _ Hin).
Qed.

(** ** Claims on the LR(1) simulator *)

(** The step of [lr_ab] on the stack "a" with the lookahead "$": the
    reduction by [A -> b] does not match, nothing changes, nothing ends. *)
Lemma lr_ab_mismatch_body :
  LR.body lr_ab [lr_start lr_ab; settled (lit "State_1") (lit "a");
                 pending (lit "$")]
  = inr (Some (lit "$"), Some (LR.Reverse (lit "A->b")),
         [lr_start lr_ab; settled (lit "State_1") (lit "a");
          pending (lit "$")], false).
Proof. reflexivity. Qed.

(** C1, on the failing input: with the table [lr_ab] and the input "a$",
    the reduction by [A -> b] fires on a stack that holds "a". The run
    records no REJECTED: it records the shift and then the same reduce
    step for ever, one record for each iteration of the loop. *)
Theorem lr_mismatch_never_rejects fuel :
  ∃ outputs,
    (LR.evaluate_lr_input fuel lr_ab (lit "a$") []).1 = Running outputs
    ∧ length outputs = fuel
    ∧ Forall (λ r, LR.ACTION r
                     = Some (LR.action_text (LR.Shift (lit "State_1")))
                   ∨ LR.ACTION r
                     = Some (LR.action_text (LR.Reverse (lit "A->b"))))
        outputs.
Proof.
  rewrite lr_evaluate_loop. destruct fuel as [|fuel]; [by exists []|].
  set (c := [lr_start lr_ab; settled (lit "State_1") (lit "a");
             pending (lit "$")]).
  destruct (lr_loop_spins lr_ab c _ _ lr_ab_mismatch_body eq_refl fuel 2
              [(LR.record (Some (lit "a")) (Some (LR.Shift (lit "State_1")))
                  1 (LR.initial_compounds lr_ab (lit "a$"))).1])
    as (outs & Hrun & Hlen & Hall).
  eexists. split; [exact Hrun|]. split; [simpl; lia|].
  constructor; [by left|].
  eapply Forall_impl; [exact Hall|]. intros r [_ ->]. by right.
Qed.

(** C2, on failing inputs: with [lr_ab] and the input "ab$", the
    reduction by [A -> a] under the lookahead "b" matches the stack, but
    the new pending compound "A" is put before the last compound of the
    sequence, after the pending "b", and the next record shows the input
    column "bA$"; with [lr_aa] and the input "aa$", the reduction by
    [A -> a] removes both settled compounds of state 1 and symbol "a",
    not only the one before the lookahead. *)
Theorem lr_reduce_misplaces_lhs :
  LR.body lr_ab [lr_start lr_ab; settled (lit "State_1") (lit "a");
                 pending (lit "b"); pending (lit "$")]
  = inr (Some (lit "b"), Some (LR.Reverse (lit "A->a")),
         [lr_start lr_ab; pending (lit "b"); pending (lit "A");
          pending (lit "$")], false)
  ∧ LR.INPUT <$> outputs_of (LR.evaluate_lr_input 3 lr_ab (lit "ab$") []).1
    = [lit "ab$"; lit "ab$"; lit "bA$"]
  ∧ LR.body lr_aa [lr_start lr_aa; settled (lit "State_1") (lit "a");
                   settled (lit "State_1") (lit "a"); pending (lit "$")]
    = inr (Some (lit "$"), Some (LR.Reverse (lit "A->a")),
           [lr_start lr_aa; pending (lit "A"); pending (lit "$")], false).
Proof. split; [reflexivity|]. split; reflexivity. Qed.

(** C8, on the failing input: with any table and the empty input, the
    compounds hold no pending compound from the first step on. The run
    records no REJECTED and does not end: each iteration appends a record
    without "READ" and without "ACTION". The same happens with [lr_ab]
    once the only symbol of the input "a" is shifted. *)
Theorem lr_no_pending_never_rejects lr fuel :
  (∃ outputs,
     (LR.evaluate_lr_input fuel lr [] []).1 = Running outputs
     ∧ length outputs = fuel
     ∧ Forall (λ r, LR.READ r = None ∧ LR.ACTION r = None) outputs)
  ∧ (∃ outputs,
       (LR.evaluate_lr_input (S fuel) lr_ab (lit "a") []).1
       = Running outputs
       ∧ length outputs = S fuel
       ∧ Forall (λ r, LR.READ r = None ∧ LR.ACTION r = None)
           (drop 1 outputs)).
Proof.
  split.
  - rewrite lr_evaluate_loop.
    destruct (lr_loop_spins lr (LR.initial_compounds lr []) None None
                eq_refl eq_refl fuel 1 [])
      as (outs & Hrun & Hlen & Hall).
    by exists outs.
  - rewrite lr_evaluate_loop.
    destruct (lr_loop_spins lr_ab
                [lr_start lr_ab; settled (lit "State_1") (lit "a")]
                None None eq_refl eq_refl fuel 2
                [(LR.record (Some (lit "a"))
                    (Some (LR.Shift (lit "State_1")))
                    1 (LR.initial_compounds lr_ab (lit "a"))).1])
      as (outs & Hrun & Hlen & Hall).
    eexists. split; [exact Hrun|]. split; [simpl; lia|]. done.
Qed.

(** C5, as stated, fails: the entry "State_1->a" holds the arrow, yet it
    is classified as a shift, and the step on it records a shift to the
    state of that name. *)
Lemma lr_arrow_after_state_prefix_shifts :
  contains (lit "->") (lit "State_1->a") = true
  ∧ LR.classify (lit "State_1->a") = LR.VShift
  ∧ LR.body lr_odd (LR.initial_compounds lr_odd (lit "a"))
    = inr (Some (lit "a"), Some (LR.Shift (lit "State_1->a")),
           [lr_start lr_odd; settled (lit "State_1->a") (lit "a")], false).
Proof. split; [reflexivity|]. split; reflexivity. Qed.

(** C5, amended: every action string looked up falls into exactly one of
    four variants, by markers tested in this order. A string whose
    lowercase is "accept" is Accept: the step records ACCEPTED and ends
    the run. Any string that starts with "State_" is Shift, also when it
    holds an arrow: the step settles the pending compound in the state of
    that name and goes on. A string that holds "->" and does not start
    with "State_" is Reduce: the step records the reduction and goes on,
    unless it raises. Any other string ends the run with the REJECTED
    record of an incorrect action. *)
Theorem lr_action_variants lr compounds i symbol prev_state a :
  LR.looks_up lr compounds i symbol prev_state a →
  LR.with_symbols compounds →
  ((LR.classify a = LR.VAccept ↔ lower a = lit "accept")
   ∧ (LR.classify a = LR.VShift ↔ startswith a (lit "State_") = true)
   ∧ (LR.classify a = LR.VReduce ↔
        startswith a (lit "State_") = false ∧ contains (lit "->") a = true)
   ∧ (LR.classify a = LR.VIncorrect ↔
        lower a ≠ lit "accept" ∧ startswith a (lit "State_") = false
        ∧ contains (lit "->") a = false))
  ∧ match LR.classify a with
    | LR.VAccept =>
        LR.body lr compounds
        = inr (Some symbol, Some LR.Accepted, compounds, true)
    | LR.VShift =>
        LR.body lr compounds
        = inr (Some symbol, Some (LR.Shift a),
               <[i := settled a symbol]> compounds, false)
    | LR.VReduce =>
        LR.body lr compounds = inl IndexError
        ∨ ∃ temp_compounds,
            LR.body lr compounds
            = inr (Some symbol, Some (LR.Reverse a), temp_compounds, false)
    | LR.VIncorrect =>
        LR.body lr compounds
        = inr (Some symbol, Some (LR.RejectIncorrect symbol prev_state),
               compounds, true)
        ∧ ∀ fuel step_counter outputs,
            ∃ r, LR.loop (S fuel) lr step_counter compounds outputs
                 = Returned (outputs ++ [r])
                 ∧ LR.ACTION r
                   = Some (LR.action_text
                             (LR.RejectIncorrect symbol prev_state))
    end.
Proof.
  intros Hlook Hwf. split; [apply lr_classify_markers|].
  pose proof (lr_body_looks_up _ _ _ _ _ _ Hlook) as Hbody.
  unfold LR.apply_action in Hbody.
  destruct (LR.classify a); [done|done| |].
  - pose proof (lr_check_with_symbols compounds i
                  ((λ c, [c]) <$> drop 3 a)
                  (seq 1 (length ((λ c : N, [c]) <$> drop 3 a))) [] Hwf)
      as Hcheck.
    cbv zeta in Hbody.
    destruct (LR.check_symbols _ _ _ _ _); [by left|by eauto|done|].
    destruct (LR.reduce _ _ _); [by eauto|by left].
  - split; [done|]. intros fuel sc outs. cbn [LR.loop]. rewrite Hbody.
    unfold LR.record.
    pose proof (lr_columns_with_symbols compounds [] [] Hwf) as Hcol.
    destruct (LR.columns compounds [] []) as [[states symbols] missing].
    simpl in Hcol. subst missing. by eexists.
Qed.

(** The step of [lr_odd] on "b": the entry "goto 1" carries no marker. *)
Lemma lr_action_variants_witness :
  LR.looks_up lr_odd (LR.initial_compounds lr_odd (lit "b")) 1
    (lit "b") (lit "State_0") (lit "goto 1")
  ∧ LR.with_symbols (LR.initial_compounds lr_odd (lit "b"))
  ∧ LR.body lr_odd (LR.initial_compounds lr_odd (lit "b"))
    = inr (Some (lit "b"),
           Some (LR.RejectIncorrect (lit "b") (lit "State_0")),
           LR.initial_compounds lr_odd (lit "b"), true).
Proof.
  assert (LR.looks_up lr_odd (LR.initial_compounds lr_odd (lit "b")) 1
            (lit "b") (lit "State_0") (lit "goto 1")) as Hlook.
  { eexists _, _, _. do 5 (split; [reflexivity|]). reflexivity. }
  assert (LR.with_symbols (LR.initial_compounds lr_odd (lit "b"))) as Hwf.
  { constructor; [by eexists|]. constructor; [by eexists|]. constructor. }
  split; [exact Hlook|]. split; [exact Hwf|].
  exact (proj1 (proj2 (lr_action_variants lr_odd _ 1 (lit "b")
                         (lit "State_0") (lit "goto 1") Hlook Hwf))).
Defined.

(** ** Both simulators *)

(** On the shared objects the simulators do what they do on the tables
    as values: they read the object of the state, and leave the state as
    it was but for the lines they print. *)
Ltac shared_unfold :=
  unfold mbind, mret, Shared.M_bind, Shared.M_ret, Shared.print,
    Shared.ll_start_rule, Shared.ll_table_get,
    Shared.lr_start_state, Shared.lr_table_get, Shared.ll_record.

Lemma shared_ll_body step_counter stack queue s :
  Shared.ll_body step_counter stack queue s
  = (LL.body (Shared.ll s) step_counter stack queue, s).
Proof.
  unfold Shared.ll_body, LL.body. shared_unfold.
  destruct (decide (step_counter = 1)); [reflexivity|].
  destruct (pop stack) as [[temp_stack stack_item]|]; [|reflexivity].
  destruct queue as [|queue_item tail]; [reflexivity|].
  destruct (decide (stack_item = dollar ∧ queue_item = dollar));
    [reflexivity|].
  destruct (decide (stack_item = queue_item)); reflexivity.
Qed.

Lemma shared_ll_loop fuel step_counter stack queue outputs s :
  Shared.ll_loop fuel step_counter stack queue outputs s
  = (LL.loop fuel (Shared.ll s) step_counter stack queue outputs, s).
Proof.
  revert step_counter stack queue outputs.
  induction fuel as [|fuel IH]; intros sc st q outs; [done|].
  cbn [Shared.ll_loop LL.loop]. unfold mbind at 1, Shared.M_bind at 1.
  rewrite shared_ll_body.
  destruct (LL.body (Shared.ll s) sc st q) as [e|[[[a ts] tq] fin]]; [done|].
  shared_unfold. destruct fin; [done|]. apply IH.
Qed.

Lemma shared_lr_body compounds s :
  Shared.lr_body compounds s = (LR.body (Shared.lr s) compounds, s).
Proof.
  unfold Shared.lr_body, LR.body. shared_unfold. cbv zeta.
  destruct (LR.first_pending 0 compounds) as [[i temp_compound]|];
    [|reflexivity].
  destruct (LR.symbol temp_compound) as [symbol|]; [|reflexivity].
  destruct (getitem compounds (Z.of_nat i - 1)) as [prev|]; [|reflexivity].
  destruct (LR.state prev) as [prev_state|]; reflexivity.
Qed.

Lemma shared_lr_loop fuel step_counter compounds outputs s :
  Shared.lr_loop fuel step_counter compounds outputs s
  = (LR.loop fuel (Shared.lr s) step_counter compounds outputs, s).
Proof.
  revert step_counter compounds outputs.
  induction fuel as [|fuel IH]; intros sc c outs; [done|].
  cbn [Shared.lr_loop LR.loop]. unfold mbind at 1, Shared.M_bind at 1.
  rewrite shared_lr_body.
  destruct (LR.body (Shared.lr s) c) as [e|[[[read act] tc] fin]]; [done|].
  destruct (LR.record read act sc c) as [output missing].
  shared_unfold. destruct (fin || missing); [done|]. apply IH.
Qed.

(** What a call returns and what it leaves. *)
Lemma shared_run fuel c s :
  (Shared.run fuel c s).1
  = match c with
    | Shared.LLCall input =>
        inl (LL.evaluate_ll_input fuel (Shared.ll s) input []).1
    | Shared.LRCall input =>
        inr (LR.evaluate_lr_input fuel (Shared.lr s) input []).1
    end
  ∧ Shared.ll (Shared.run fuel c s).2 = Shared.ll s
  ∧ Shared.lr (Shared.run fuel c s).2 = Shared.lr s
  ∧ ∃ line,
      Shared.console (Shared.run fuel c s).2
      = Shared.console s ++ [ []; line ].
Proof.
  destruct c as [input|input]; unfold Shared.run.
  - unfold Shared.evaluate_ll_input. shared_unfold.
    rewrite shared_ll_loop. cbn.
    split; [done|]. split; [done|]. split; [done|].
    eexists. by rewrite <- (assoc_L (++)).
  - unfold Shared.evaluate_lr_input. shared_unfold.
    rewrite shared_lr_loop. cbn.
    split; [done|]. split; [done|]. split; [done|].
    eexists. by rewrite <- (assoc_L (++)).
Qed.

Lemma shared_runs fuel calls s :
  Shared.ll (Shared.runs fuel calls s).2 = Shared.ll s
  ∧ Shared.lr (Shared.runs fuel calls s).2 = Shared.lr s
  ∧ ∃ lines,
      Shared.console (Shared.runs fuel calls s).2 = Shared.console s ++ lines
      ∧ length lines = 2 * length calls.
Proof.
  revert s. induction calls as [|c calls IH]; intros s.
  - split; [done|]. split; [done|]. exists []. by rewrite app_nil_r.
  - cbn [Shared.runs]. unfold mbind, Shared.M_bind.
    destruct (shared_run fuel c s) as (_ & Hll & Hlr & line & Hout).
    destruct (Shared.run fuel c s) as [t s1]. simpl in Hll, Hlr, Hout.
    destruct (IH s1) as (Hll' & Hlr' & lines & Hout' & Hlen).
    destruct (Shared.runs fuel calls s1) as [ts s2].
    simpl in *. unfold mret, Shared.M_ret. simpl.
    split; [congruence|]. split; [congruence|].
    exists ([]  :: line :: lines).
    rewrite Hout', Hout, <- (assoc_L (++)). split; [done | simpl; lia].
Qed.

(** C9: no state is carried from a run to the next. The simulators run
    on the two table objects that every call shares, which they could
    assign to, and on the console. Whatever calls were made before, on
    whatever inputs, a call returns the trace it returns when made at
    once; made twice in a row it returns the same trace twice; this trace
    is the one got from the content of the table object and the input
    alone; and a call leaves both table objects as it found them, adding
    to the console the two lines it prints and nothing else. *)
Theorem runs_are_repeatable fuel before c s :
  (Shared.run fuel c (Shared.runs fuel before s).2).1 = (Shared.run fuel c s).1
  ∧ (Shared.run fuel c (Shared.run fuel c s).2).1 = (Shared.run fuel c s).1
  ∧ (Shared.run fuel c s).1
    = match c with
      | Shared.LLCall input =>
          inl (LL.evaluate_ll_input fuel (Shared.ll s) input []).1
      | Shared.LRCall input =>
          inr (LR.evaluate_lr_input fuel (Shared.lr s) input []).1
      end
  ∧ Shared.ll (Shared.run fuel c s).2 = Shared.ll s
  ∧ Shared.lr (Shared.run fuel c s).2 = Shared.lr s
  ∧ ∃ line,
      Shared.console (Shared.run fuel c s).2
      = Shared.console s ++ [ []; line ].
Proof.
  destruct (shared_run fuel c s) as (Htrace & Hll & Hlr & Hout).
  destruct (shared_runs fuel before s) as (Hll' & Hlr' & _).
  split; [|split; [|done]].
  - rewrite (proj1 (shared_run fuel c _)), Htrace, Hll', Hlr'. done.
  - rewrite (proj1 (shared_run fuel c _)), Htrace, Hll, Hlr. done.
Qed.

(** * Further properties of the simulators *)

(** ** Invariants of the LL(1) loop *)

(** A property of the stack and the queue that every step which goes on
    preserves holds of the state every record is taken from. *)
Lemma ll_loop_invariant (Inv : list char → list char → Prop) ll :
  (∀ n stack queue a temp_stack temp_queue,
     Inv stack queue →
     LL.body ll n stack queue = inr (a, temp_stack, temp_queue, false) →
     Inv temp_stack temp_queue) →
  ∀ fuel step_counter stack queue r,
    Inv stack queue →
    r ∈ outputs_of (LL.loop fuel ll step_counter stack queue []) →
    ∃ a n stack' queue' temp_stack temp_queue fin,
      r = LL.record ll a n stack' queue'
      ∧ LL.body ll n stack' queue' = inr (a, temp_stack, temp_queue, fin)
      ∧ Inv stack' queue'.
Proof.
  intros Hstep fuel.
  induction fuel as [|fuel IH]; intros sc st q r Hinv;
    [by intros ?%elem_of_nil|].
  rewrite ll_loop_unfold.
  destruct (LL.body ll sc st q) as [e|[[[a ts] tq] fin]] eqn:Hbody;
    [by intros ?%elem_of_nil|].
  destruct fin; simpl.
  - intros ->%list_elem_of_singleton. eauto 10.
  - rewrite outputs_of_prepend. intros [->|Hin]%elem_of_cons; [eauto 10|].
    eapply IH; [|done]. by eapply Hstep.
Qed.

(** The step counter of the records. *)
Lemma ll_loop_numbers ll fuel step_counter stack queue :
  LL.NO <$> outputs_of (LL.loop fuel ll step_counter stack queue [])
  = str_of_nat
      <$> seq step_counter
            (length (outputs_of (LL.loop fuel ll step_counter stack queue []))).
Proof.
  revert step_counter stack queue.
  induction fuel as [|fuel IH]; intros sc st q; [done|].
  rewrite ll_loop_unfold.
  destruct (LL.body ll sc st q) as [e|[[[a ts] tq] fin]]; [done|].
  destruct fin; simpl; [done|].
  rewrite outputs_of_prepend. simpl. f_equal. apply IH.
Qed.

(** ** The LR(1) loop, record by record *)

Lemma lr_loop_prepend lr fuel step_counter compounds outputs :
  LR.loop fuel lr step_counter compounds outputs
  = prepend outputs (LR.loop fuel lr step_counter compounds []).
Proof.
  revert step_counter compounds outputs.
  induction fuel as [|fuel IH]; intros sc c outs; simpl.
  - by rewrite app_nil_r.
  - destruct (LR.body lr c) as [e|[[[read act] tc] fin]]; simpl.
    + by rewrite app_nil_r.
    + destruct (LR.record read act sc c) as [output missing].
      destruct (fin || missing); simpl; [done|].
      rewrite IH, (IH _ _ [_]). by rewrite <- prepend_app.
Qed.

Lemma lr_loop_unfold lr fuel step_counter compounds :
  LR.loop (S fuel) lr step_counter compounds []
  = match LR.body lr compounds with
    | inl e => Raised e []
    | inr (read, act, temp_compounds, evaluation_finished) =>
        let r := LR.record read act step_counter compounds in
        if evaluation_finished || r.2 then Returned [r.1]
        else prepend [r.1]
               (LR.loop fuel lr (S step_counter) temp_compounds [])
    end.
Proof.
  simpl. destruct (LR.body lr compounds) as [e|[[[read act] tc] fin]];
    [done|].
  destruct (LR.record read act step_counter compounds) as [output missing].
  simpl. destruct (fin || missing); [done|]. by rewrite lr_loop_prepend.
Qed.

Lemma lr_record_number read act step_counter compounds :
  LR.NO (LR.record read act step_counter compounds).1
  = str_of_nat step_counter.
Proof.
  unfold LR.record. by destruct (LR.columns compounds [] []) as [[??]?].
Qed.

Lemma lr_loop_numbers lr fuel step_counter compounds :
  LR.NO <$> outputs_of (LR.loop fuel lr step_counter compounds [])
  = str_of_nat
      <$> seq step_counter
            (length (outputs_of (LR.loop fuel lr step_counter compounds []))).
Proof.
  revert step_counter compounds.
  induction fuel as [|fuel IH]; intros sc c; [done|].
  rewrite lr_loop_unfold.
  destruct (LR.body lr c) as [e|[[[read act] tc] fin]]; [done|].
  cbv zeta. destruct (fin || _); simpl.
  - by rewrite lr_record_number.
  - rewrite outputs_of_prepend. simpl. rewrite lr_record_number. f_equal.
    apply IH.
Qed.

(** X1: in both simulators the records of a run carry the numbers 1, 2,
    3, ... in the order they were appended, whether the run returned,
    raised or is still going. *)
Theorem records_are_numbered fuel ll lr input out :
  LL.NO <$> outputs_of (LL.evaluate_ll_input fuel ll input out).1
  = str_of_nat
      <$> seq 1 (length (outputs_of (LL.evaluate_ll_input fuel ll input out).1))
  ∧ LR.NO <$> outputs_of (LR.evaluate_lr_input fuel lr input out).1
    = str_of_nat
        <$> seq 1
              (length (outputs_of (LR.evaluate_lr_input fuel lr input out).1)).
Proof.
  rewrite ll_evaluate_loop, lr_evaluate_loop.
  split; [apply ll_loop_numbers | apply lr_loop_numbers].
Qed.

(** ** Further properties of the LL(1) simulator *)

(** X2: the LL simulator never reads past the first end marker. At every
    record the normalised input is what has been consumed followed by the
    INPUT column, and what has been consumed holds no "$"; a record says
    ACCEPTED with the INPUT column starting at that first "$", whatever
    follows it in the input. *)
Theorem ll_consumes_up_to_first_end_marker fuel ll input out r :
  r ∈ outputs_of (LL.evaluate_ll_input fuel ll input out).1 →
  ∃ consumed,
    LL.initial_queue input = consumed ++ LL.INPUT r
    ∧ (dollar ∉ consumed)
    ∧ (LL.ACTION r = lit "ACCEPTED" → head (LL.INPUT r) = Some dollar).
Proof.
  rewrite ll_evaluate_loop. intros Hr.
  apply (ll_loop_invariant
           (λ _ queue, ∃ consumed,
              LL.initial_queue input = consumed ++ queue
              ∧ (dollar ∉ consumed))) in Hr.
  - destruct Hr as (a & n & st & q & ts & tq & fin & -> & Hbody & consumed
                      & Hq & Hno).
    exists consumed. split; [done|]. split; [done|].
    intros ->%ll_text_accepted.
    by apply ll_body_accepted in Hbody as (rest & tail & -> & ->).
  - intros n st q a ts tq (consumed & Hq & Hno) Hbody.
    apply ll_body_queue in Hbody. destruct a; subst; eauto.
    destruct Hbody as (rest & -> & -> & Hne).
    exists (consumed ++ [queue_item]). rewrite <- (assoc_L (++)).
    split; [done|]. rewrite elem_of_app, list_elem_of_singleton.
    intros [?|?]; [done | by destruct Hne].
  - exists []. split; [done | apply not_elem_of_nil].
Qed.

(** The run of [ll_id] on "id$xy" accepts at the end marker, with "xy"
    never read. *)
Lemma ll_consumes_up_to_first_end_marker_witness :
  ∃ r, outputs_of (LL.evaluate_ll_input 3 ll_id (lit "id$xy") []).1 !! 2
       = Some r
       ∧ LL.ACTION r = lit "ACCEPTED" ∧ LL.INPUT r = lit "$xy"
       ∧ ∃ consumed,
           LL.initial_queue (lit "id$xy") = consumed ++ LL.INPUT r
           ∧ (dollar ∉ consumed)
           ∧ (LL.ACTION r = lit "ACCEPTED"
              → head (LL.INPUT r) = Some dollar).
Proof.
  eexists. split; [reflexivity|]. split; [reflexivity|].
  split; [reflexivity|].
  apply (ll_consumes_up_to_first_end_marker 3 ll_id (lit "id$xy") []).
  apply list_elem_of_lookup_2 with 2. reflexivity.
Defined.

(** X3: when the table has no row for "$", the STACK column of every
    record starts with the end marker: the bottom of the stack is never
    taken away while the run goes on. *)
Theorem ll_stack_keeps_end_marker fuel ll input out r :
  LL.table ll !! [dollar] = None →
  r ∈ outputs_of (LL.evaluate_ll_input fuel ll input out).1 →
  ∃ rest, LL.STACK r = dollar :: rest.
Proof.
  rewrite ll_evaluate_loop. intros Hrow Hr.
  apply (ll_loop_invariant (λ stack _, ∃ rest, stack = dollar :: rest))
    in Hr.
  - by destruct Hr as (a & n & st & q & ts & tq & fin & -> & _ & Hst).
  - intros n st q a ts tq [rest ->] Hbody.
    by eapply ll_body_keeps_bottom.
  - by exists [].
Qed.

Lemma ll_stack_keeps_end_marker_witness :
  LL.table ll_id !! [dollar] = None
  ∧ ∃ r, outputs_of (LL.evaluate_ll_input 3 ll_id (lit "id$") []).1 !! 1
         = Some r
         ∧ LL.STACK r = lit "$#"
         ∧ ∃ rest, LL.STACK r = dollar :: rest.
Proof.
  split; [reflexivity|]. eexists. split; [reflexivity|].
  split; [reflexivity|].
  apply (ll_stack_keeps_end_marker 3 ll_id (lit "id$") []).
  - reflexivity.
  - apply list_elem_of_lookup_2 with 1. reflexivity.
Defined.

(** X4: the empty input string makes every LL run raise: the first step
    records the start rule, and the second one finds no head of the queue
    to look at ([IndexError]), whatever the table. *)
Theorem ll_empty_input_raises fuel ll out :
  (LL.evaluate_ll_input (S (S fuel)) ll [] out).1
  = Raised IndexError [LL.record ll LL.Start 1 [dollar] []].
Proof.
  rewrite ll_evaluate_loop, ll_loop_unfold, ll_body_first. cbv zeta.
  rewrite ll_loop_unfold.
  change (LL.initial_queue []) with (@nil char).
  unfold LL.body. rewrite decide_False by lia.
  unfold LL.initial_stack. rewrite <- app_comm_cons.
  destruct (pop _) as [[??]|] eqn:Hpop; [done|].
  by apply pop_None in Hpop.
Qed.

(** X5: a start rule that is the epsilon marker is not taken as empty:
    step 1 pushes the marker itself, and step 2 pops it as a symbol; with
    no row for it in the table and another symbol at the head of the
    input, the run ends in the rejection of "ϵ" as not found. *)
Theorem ll_epsilon_start_rule_is_pushed fuel ll input out t tail :
  LL.start_rule ll = epsilon →
  LL.table ll !! epsilon = None →
  LL.initial_queue input = t :: tail →
  t ≠ 1013%N →
  (LL.evaluate_ll_input (S (S fuel)) ll input out).1
  = Returned
      [LL.record ll LL.Start 1 [dollar] (t :: tail);
       LL.record ll (LL.RejectNotFound 1013%N) 2 [dollar; 1013%N]
         (t :: tail)].
Proof.
  intros Hrule Hrow Hq Ht.
  rewrite ll_evaluate_loop, Hq, ll_loop_unfold, ll_body_first. cbv zeta.
  rewrite ll_loop_unfold, Hrule.
  change (LL.initial_stack ++ reverse epsilon) with ([dollar] ++ [1013%N]).
  rewrite ll_body_later by lia.
  rewrite decide_False by (intros [? _]; done).
  rewrite decide_False by done.
  change (LL.table ll !! [1013%N]) with (LL.table ll !! epsilon).
  by rewrite Hrow.
Qed.

Lemma ll_epsilon_start_rule_is_pushed_witness :
  LL.start_rule ll_eps = epsilon
  ∧ LL.table ll_eps !! epsilon = None
  ∧ LL.initial_queue (lit "$") = dollar :: []
  ∧ dollar ≠ 1013%N
  ∧ (LL.evaluate_ll_input 2 ll_eps (lit "$") []).1
    = Returned
        [LL.record ll_eps LL.Start 1 [dollar] [dollar];
         LL.record ll_eps (LL.RejectNotFound 1013%N) 2 [dollar; 1013%N]
           [dollar]].
Proof.
  assert (dollar ≠ 1013%N) as Hne by (intros H; vm_compute in H; discriminate).
  split; [reflexivity|]. split; [reflexivity|]. split; [reflexivity|].
  split; [exact Hne|].
  apply (ll_epsilon_start_rule_is_pushed 0 ll_eps (lit "$") [] dollar []);
    [reflexivity | reflexivity | reflexivity | exact Hne].
Defined.

(** ** Invariants of the LR(1) loop *)

Lemma lr_loop_invariant (Inv : list LR.compound → Prop) lr :
  (∀ compounds read act temp_compounds,
     Inv compounds →
     LR.body lr compounds = inr (read, act, temp_compounds, false) →
     Inv temp_compounds) →
  ∀ fuel step_counter compounds r,
    Inv compounds →
    r ∈ outputs_of (LR.loop fuel lr step_counter compounds []) →
    ∃ n compounds' read act temp_compounds fin,
      r = (LR.record read act n compounds').1
      ∧ LR.body lr compounds' = inr (read, act, temp_compounds, fin)
      ∧ Inv compounds'.
Proof.
  intros Hstep fuel.
  induction fuel as [|fuel IH]; intros sc c r Hinv;
    [by intros ?%elem_of_nil|].
  rewrite lr_loop_unfold.
  destruct (LR.body lr c) as [e|[[[read act] tc] fin]] eqn:Hbody;
    [by intros ?%elem_of_nil|].
  cbv zeta. destruct fin; simpl.
  - intros ->%list_elem_of_singleton. eauto 10.
  - destruct (LR.record read act sc c).2 eqn:Hmiss; simpl.
    + intros ->%list_elem_of_singleton. eauto 10.
    + rewrite outputs_of_prepend. intros [->|Hin]%elem_of_cons; [eauto 10|].
      eapply IH; [|done]. by eapply Hstep.
Qed.

Lemma lr_first_pending_spec compounds k i p :
  LR.first_pending k compounds = Some (i, p) →
  ∃ j, i = k + j ∧ compounds !! j = Some p ∧ LR.state p = None
       ∧ ∀ m d, m < j → compounds !! m = Some d → is_Some (LR.state d).
Proof.
  revert k. induction compounds as [|c l IH]; intros k; [done|].
  cbn [LR.first_pending]. destruct (LR.state c) as [st|] eqn:Hst.
  - intros (j & -> & Hj & Hp & Hbefore)%IH. exists (S j).
    split; [lia|]. split; [done|]. split; [done|].
    intros [|m] d Hm; simpl; [intros [= <-]; by eexists|].
    apply Hbefore. lia.
  - intros [= <- <-]. exists 0. split; [lia|]. split; [done|].
    split; [done|]. intros m d Hm. lia.
Qed.

Lemma lr_shaped_with_symbols lr compounds :
  LR.shaped lr compounds → LR.with_symbols compounds.
Proof.
  intros (rest & -> & Hrest). constructor; [by eexists|].
  eapply Forall_impl; [exact Hrest|]. intros c [ch ->]. by eexists.
Qed.

Lemma lr_initial_shaped lr input :
  LR.shaped lr (LR.initial_compounds lr input).
Proof.
  eexists. split; [done|]. apply Forall_fmap, Forall_true.
  intros c. by eexists.
Qed.

(** On shaped compounds the [for j] loop stops at the start compound at
    the latest: it never indexes out of range, and what it collects are
    settled compounds with a symbol of one character. *)
Lemma lr_check_shaped lr rest i p l n j to_delete :
  Forall (λ c, ∃ ch, LR.symbol c = Some [ch]) rest →
  LR.first_pending 0 (lr_start lr :: rest) = Some (i, p) →
  1 ≤ j ≤ i → j + n = S (length l) →
  Forall (λ d, is_Some (LR.state d) ∧ ∃ ch, LR.symbol d = Some [ch])
    to_delete →
  match LR.check_symbols (lr_start lr :: rest) i ((λ c, [c]) <$> l)
          (seq j n) to_delete with
  | LR.CheckDone del =>
      Forall (λ d, is_Some (LR.state d) ∧ ∃ ch, LR.symbol d = Some [ch]) del
  | LR.CheckInvalid => True
  | _ => False
  end.
Proof.
  intros Hrest Hfirst.
  destruct (lr_first_pending_spec _ _ _ _ Hfirst)
    as (i' & Hi & Hp & Hnone & Hbefore). simpl in Hi. subst i'.
  revert j to_delete. induction n as [|n IH]; intros j del Hj Hn Hdel;
    [done|].
  cbn [seq LR.check_symbols].
  replace (Z.of_nat i - Z.of_nat j)%Z with (Z.of_nat (i - j)) by lia.
  rewrite getitem_nonneg.
  destruct (lookup_lt_is_Some_2 ((λ c : N, [c]) <$> l)
              (length ((λ c : N, [c]) <$> l) - j)) as [s Hs];
    [rewrite length_fmap; lia|].
  pose proof Hs as Hs'. apply list_lookup_fmap_Some in Hs' as (ch & -> & _).
  destruct (decide (j = i)) as [->|Hne].
  - rewrite Nat.sub_diag. simpl. rewrite Hs. by rewrite decide_True.
  - destruct (lookup_lt_is_Some_2 (lr_start lr :: rest) (i - j)) as [d Hd].
    { apply lookup_lt_Some in Hp. lia. }
    rewrite Hd.
    assert (is_Some (LR.state d)) as Hstate by (eapply Hbefore; [|done]; lia).
    assert (∃ ch', LR.symbol d = Some [ch']) as [ch' Hsym].
    { destruct (i - j) as [|m] eqn:Hm; [lia|]. simpl in Hd.
      apply list_elem_of_lookup_2 in Hd.
      by apply (proj1 (Forall_forall _ _) Hrest). }
    rewrite Hsym, Hs. case_decide; [done|].
    apply IH; [lia | lia |]. apply Forall_app. split; [done|].
    constructor; [|done]. split; [done | by eexists].
Qed.

Lemma Forall_py_insert {A} (P : A → Prop) (l : list A) k x :
  Forall P l → P x → Forall P (Py.insert l k x).
Proof.
  intros Hl Hx. unfold Py.insert.
  apply Forall_app. split; [by apply Forall_take|].
  constructor; [done|]. by apply Forall_drop.
Qed.

Lemma py_insert_cons {A} (h : A) (l : list A) x :
  l ≠ [] →
  Py.insert (h :: l) (Z.of_nat (length (h :: l)) - 1) x
  = h :: Py.insert l (Z.of_nat (length l) - 1) x.
Proof.
  intros Hl. assert (0 < length l) by (destruct l; [done | simpl; lia]).
  unfold Py.insert. cbn [length].
  destruct (Z.ltb_spec (Z.of_nat (S (length l)) - 1) 0); [lia|].
  destruct (Z.ltb_spec (Z.of_nat (length l) - 1) 0); [lia|].
  rewrite !Z.min_l by lia.
  replace (Z.to_nat (Z.of_nat (S (length l)) - 1))
    with (S (Z.to_nat (Z.of_nat (length l) - 1))) by lia.
  done.
Qed.

(** A reduction keeps the shape: the start compound is not among the
    compounds it deletes, and the pending compound it was read at stays,
    so the new compound goes after the start compound. *)
Lemma lr_reduce_shaped lr rest i p del a temp_compounds :
  Forall (λ c, ∃ ch, LR.symbol c = Some [ch]) rest →
  LR.first_pending 0 (lr_start lr :: rest) = Some (i, p) →
  Forall (λ d, is_Some (LR.state d) ∧ ∃ ch, LR.symbol d = Some [ch]) del →
  LR.reduce (lr_start lr :: rest) del a = Some temp_compounds →
  LR.shaped lr temp_compounds.
Proof.
  intros Hrest Hfirst Hdel. unfold LR.reduce.
  destruct a as [|lhs a]; [done|]. intros [= <-].
  destruct (lr_first_pending_spec _ _ _ _ Hfirst)
    as (i' & Hi & Hp & Hnone & Hbefore). simpl in Hi. subst i'.
  assert (lr_start lr ∉ del) as Hstart.
  { intros Hin. apply (proj1 (Forall_forall _ _) Hdel) in Hin as [_ [ch Hch]].
    done. }
  assert (p ∈ rest) as Hprest.
  { destruct i as [|i]; simpl in Hp; [by simplify_eq|].
    by eapply list_elem_of_lookup_2. }
  assert (p ∉ del) as Hpdel.
  { intros Hin. apply (proj1 (Forall_forall _ _) Hdel) in Hin as [[st Hst] _].
    congruence. }
  rewrite filter_cons_True by done.
  rewrite py_insert_cons.
  - eexists. split; [done|]. apply Forall_py_insert; [|by eexists].
    apply Forall_forall. intros c [_ Hc]%list_elem_of_filter.
    by apply (proj1 (Forall_forall _ _) Hrest).
  - intros Hnil. assert (p ∈ filter (λ c, c ∉ del) rest) as Hin
      by by apply list_elem_of_filter.
    rewrite Hnil in Hin. by apply elem_of_nil in Hin.
Qed.

(** One iteration on shaped compounds: it does not raise, it keeps the
    shape, and it either finds nothing to read, or reads one character
    and ends with an acceptance or one of three rejections, or goes on
    with a shift or a reduction. *)
Lemma lr_body_shaped lr compounds :
  LR.shaped lr compounds →
  match LR.body lr compounds with
  | inl _ => False
  | inr (read, act, temp_compounds, fin) =>
      LR.shaped lr temp_compounds
      ∧ (read = None ∧ act = None ∧ fin = false
         ∨ ∃ ch a, read = Some [ch] ∧ act = Some a
                   ∧ (fin = true ∧ LR.ends a ∨ fin = false ∧ LR.goes_on a))
  end.
Proof.
  intros Hshaped. pose proof Hshaped as (rest & -> & Hrest).
  fold (lr_start lr) in *. unfold LR.body. cbv zeta.
  destruct (LR.first_pending 0 (lr_start lr :: rest)) as [[i p]|] eqn:Hfirst;
    [|by auto].
  destruct (lr_first_pending_spec _ _ _ _ Hfirst)
    as (i' & Hi & Hp & Hnone & Hbefore). simpl in Hi. subst i'.
  destruct i as [|i]; [by simplify_eq/=|]. simpl in Hp.
  destruct (proj1 (Forall_forall _ _) Hrest p) as [ch Hch];
    [by eapply list_elem_of_lookup_2|].
  rewrite Hch.
  replace (Z.of_nat (S i) - 1)%Z with (Z.of_nat i) by lia.
  rewrite getitem_nonneg.
  destruct (lookup_lt_is_Some_2 (lr_start lr :: rest) i) as [prev Hprev].
  { apply lookup_lt_Some in Hp. simpl. lia. }
  rewrite Hprev.
  destruct (Hbefore i prev) as [prev_state Hstate]; [lia | done |].
  rewrite Hstate.
  assert (∀ a, LR.ends a →
            LR.shaped lr (lr_start lr :: rest)
            ∧ (Some [ch] = None ∧ Some a = None ∧ true = false
               ∨ ∃ ch' a', Some [ch] = Some [ch'] ∧ Some a = Some a'
                   ∧ (true = true ∧ LR.ends a'
                      ∨ true = false ∧ LR.goes_on a'))) as Hend
    by (intros a Ha; split; [done|]; right; eauto 10).
  destruct (LR.table lr !! prev_state) as [actions|];
    [|apply Hend; unfold LR.ends; by auto].
  destruct (actions !! [ch]) as [a|];
    [|apply Hend; unfold LR.ends; by eauto 10].
  unfold LR.apply_action.
  destruct (LR.classify a) eqn:Hclass.
  - apply Hend. unfold LR.ends. by auto.
  - split.
    + eexists. split; [done|]. apply Forall_insert; [done | by eexists].
    + right. eexists _, _. split; [done|]. split; [done|]. right.
      split; [done|]. left. by eexists.
  - cbv zeta.
    pose proof (lr_check_shaped lr rest (S i) p (drop 3 a)
                  (length ((λ c : N, [c]) <$> drop 3 a)) 1 []
                  Hrest Hfirst) as Hcheck.
    rewrite length_fmap in Hcheck.
    specialize (Hcheck ltac:(lia) ltac:(lia) ltac:(constructor)).
    rewrite length_fmap.
    destruct (LR.check_symbols _ _ _ _ _) as [| |del|del]; [done| |done|].
    + split; [done|]. right. eexists _, _. split; [done|]. split; [done|].
      right. split; [done|]. right. by eexists.
    + destruct (LR.reduce (lr_start lr :: rest) del a) as [tc|] eqn:Hred.
      * split; [by eapply lr_reduce_shaped|]. right. eexists _, _.
        split; [done|]. split; [done|]. right. split; [done|]. right.
        by eexists.
      * unfold LR.reduce in Hred. destruct a; [|done].
        by apply lr_classify_markers in Hclass as [_ ?].
  - apply Hend. unfold LR.ends. by eauto 10.
Qed.

Lemma lr_record_shaped lr compounds read act n :
  LR.shaped lr compounds →
  (LR.record read act n compounds).2 = false
  ∧ LR.READ (LR.record read act n compounds).1 = read
  ∧ LR.ACTION (LR.record read act n compounds).1 = LR.action_text <$> act.
Proof.
  intros Hwf%lr_shaped_with_symbols.
  pose proof (lr_columns_with_symbols compounds [] [] Hwf) as Hcol.
  unfold LR.record.
  destruct (LR.columns compounds [] []) as [[states symbols] missing].
  simpl in Hcol. by subst missing.
Qed.

(** The texts of the actions that go on are no texts of an end. *)
Lemma lr_goes_on_not_ends a a' :
  LR.goes_on a → LR.ends a' → LR.action_text a ≠ LR.action_text a'.
Proof.
  intros [[x ->]|[x ->]] [->|[(? & ? & ->)|[(? & ? & ->)| ->]]];
    cbn [LR.action_text]; eval_lits; unfold dquote; cbn [app]; done.
Qed.

(** Every way the loop can go from shaped compounds. *)
Lemma lr_loop_outcomes lr fuel step_counter compounds :
  LR.shaped lr compounds →
  match LR.loop fuel lr step_counter compounds [] with
  | Returned outputs =>
      ∃ front r a,
        outputs = front ++ [r]
        ∧ LR.ends a ∧ LR.ACTION r = Some (LR.action_text a)
        ∧ Forall (λ r', LR.ACTION r' = None
                        ∨ ∃ a', LR.goes_on a'
                                ∧ LR.ACTION r' = Some (LR.action_text a'))
            front
  | Raised _ _ => False
  | Running outputs =>
      length outputs = fuel
      ∧ Forall (λ r', LR.ACTION r' = None
                      ∨ ∃ a', LR.goes_on a'
                              ∧ LR.ACTION r' = Some (LR.action_text a'))
          outputs
  end.
Proof.
  revert step_counter compounds.
  induction fuel as [|fuel IH]; intros sc c Hshaped; [done|].
  rewrite lr_loop_unfold.
  pose proof (lr_body_shaped lr c Hshaped) as Hbody.
  destruct (LR.body lr c) as [e|[[[read act] tc] fin]]; [done|].
  destruct Hbody as [Htc Hcases]. cbv zeta.
  destruct (lr_record_shaped lr c read act sc Hshaped) as (-> & _ & Hact).
  rewrite orb_false_r.
  assert (fin = false →
          LR.ACTION (LR.record read act sc c).1 = None
          ∨ ∃ a', LR.goes_on a'
                  ∧ LR.ACTION (LR.record read act sc c).1
                    = Some (LR.action_text a')) as Hon.
  { intros ->. rewrite Hact.
    destruct Hcases as [(_ & -> & _)|(ch & a & _ & -> & [[? _]|[_ Ha]])];
      [by left | done | right; by eexists]. }
  destruct fin.
  - destruct Hcases as [(_ & _ & ?)|(ch & a & _ & -> & [[_ Ha]|[? _]])];
      [done| |done].
    exists [], (LR.record read (Some a) sc c).1, a.
    split; [done|]. split; [done|]. split; [done | constructor].
  - specialize (IH (S sc) tc Htc). specialize (Hon eq_refl).
    destruct (LR.loop fuel lr (S sc) tc []) as [outs|e outs|outs]; simpl;
      [|done|].
    + destruct IH as (front & r & a & -> & Ha & Hr & Hfront).
      exists ((LR.record read act sc c).1 :: front), r, a.
      split; [done|]. split; [done|]. split; [done | by constructor].
    + destruct IH as [Hlen Hall]. split; [simpl; lia | by constructor].
Qed.

(** The two columns of compounds that all have a symbol: the states of
    the settled ones, without their prefix, and the symbols of all. *)
Lemma lr_columns_closed compounds states symbols :
  LR.with_symbols compounds →
  LR.columns compounds states symbols
  = (states ++ omap (λ c, (λ st, replace st (lit "State_") [])
                            <$> LR.state c) compounds,
     symbols ++ omap LR.symbol compounds, false).
Proof.
  intros H. revert states symbols.
  induction H as [|c l [sym Hsym] _ IH]; intros states symbols.
  - simpl. by rewrite !app_nil_r.
  - cbn [LR.columns omap list_omap]. rewrite Hsym.
    destruct (LR.state c) as [st|]; simpl; rewrite IH;
      by rewrite <- !(assoc_L (++)).
Qed.

Lemma lr_record_input lr compounds read act n :
  LR.shaped lr compounds →
  LR.INPUT (LR.record read act n compounds).1
  = concat (omap LR.symbol compounds).
Proof.
  intros Hwf%lr_shaped_with_symbols. unfold LR.record.
  by rewrite lr_columns_closed.
Qed.

Lemma omap_symbol_insert (l : list LR.compound) i p c :
  l !! i = Some p → LR.symbol c = LR.symbol p →
  omap LR.symbol (<[i := c]> l) = omap LR.symbol l.
Proof.
  revert i. induction l as [|d l IH]; intros [|i]; simpl; try done.
  - intros [= ->] ->. done.
  - intros Hi Hc. by rewrite IH.
Qed.

(** Each record and its successor: the successor shows the compounds the
    step of the record left. *)
Lemma lr_loop_consecutive lr fuel step_counter compounds n r r' :
  LR.shaped lr compounds →
  outputs_of (LR.loop fuel lr step_counter compounds []) !! n = Some r →
  outputs_of (LR.loop fuel lr step_counter compounds []) !! S n = Some r' →
  ∃ compounds' read act temp_compounds k k',
    LR.shaped lr compounds'
    ∧ LR.body lr compounds' = inr (read, act, temp_compounds, false)
    ∧ r = (LR.record read act k compounds').1
    ∧ LR.INPUT r' = LR.INPUT (LR.record None None k' temp_compounds).1
    ∧ LR.STATE_STACK r'
      = LR.STATE_STACK (LR.record None None k' temp_compounds).1.
Proof.
  revert step_counter compounds n.
  induction fuel as [|fuel IH]; intros sc c n Hshaped; [done|].
  rewrite lr_loop_unfold.
  pose proof (lr_body_shaped lr c Hshaped) as Hbody.
  destruct (LR.body lr c) as [e|[[[read act] tc] fin]] eqn:Hb; [done|].
  destruct Hbody as [Htc _]. cbv zeta.
  destruct (lr_record_shaped lr c read act sc Hshaped) as (-> & _ & _).
  rewrite orb_false_r. destruct fin; [by destruct n|].
  rewrite outputs_of_prepend. destruct n as [|n]; simpl.
  - intros [= <-] Hr'. exists c, read, act, tc, sc, (S sc).
    split; [done|]. split; [done|]. split; [done|].
    destruct fuel as [|fuel]; [done|]. rewrite lr_loop_unfold in Hr'.
    destruct (LR.body lr tc) as [e|[[[read' act'] tc'] fin']]; [done|].
    cbv zeta in Hr'.
    assert (r' = (LR.record read' act' (S sc) tc).1) as ->.
    { destruct (fin' || _); simpl in Hr'; [by simplify_eq|].
      rewrite outputs_of_prepend in Hr'. by simplify_eq/=. }
    unfold LR.record.
    by destruct (LR.columns tc [] []) as [[??]?].
  - by apply IH.
Qed.

(** The text of a shift is the text of no other action. *)
Lemma lr_text_shift act a :
  LR.action_text act = LR.action_text (LR.Shift a) → act = LR.Shift a.
Proof.
  destruct act; cbn [LR.action_text]; try (eval_lits; unfold dquote; done).
  intros H. apply app_inv_head in H. apply app_inv_head in H.
  apply app_inv_tail in H. by subst.
Qed.

(** A shift settles the first pending compound and leaves the symbols. *)
Lemma lr_body_shift lr compounds read a temp_compounds fin :
  LR.body lr compounds = inr (read, Some (LR.Shift a), temp_compounds, fin) →
  ∃ i p symbol,
    LR.first_pending 0 compounds = Some (i, p)
    ∧ LR.symbol p = Some symbol
    ∧ temp_compounds = <[i := settled a symbol]> compounds.
Proof.
  unfold LR.body, LR.apply_action.
  repeat case_match; intros; simplify_eq. by eexists _, _, _.
Qed.

(** ** Further properties of the LR(1) simulator *)

(** X6: an LR run never raises, whatever the table and the input. When
    it returns, its last record is ACCEPTED or one of three rejections
    (incorrect action, no action for the symbol, state absent from the
    table); every earlier record, and every record of a run that is still
    going, has no action or a shift or a reduction, and none of them reads
    as an end. *)
Theorem lr_run_outcomes fuel lr input out :
  match (LR.evaluate_lr_input fuel lr input out).1 with
  | Returned outputs =>
      ∃ front r a,
        outputs = front ++ [r]
        ∧ LR.ends a ∧ LR.ACTION r = Some (LR.action_text a)
        ∧ Forall (λ r', (LR.ACTION r' = None
                         ∨ ∃ a', LR.goes_on a'
                                 ∧ LR.ACTION r' = Some (LR.action_text a'))
                        ∧ ∀ a', LR.ends a'
                                → LR.ACTION r' ≠ Some (LR.action_text a'))
            front
  | Raised _ _ => False
  | Running outputs =>
      length outputs = fuel
      ∧ Forall (λ r', (LR.ACTION r' = None
                       ∨ ∃ a', LR.goes_on a'
                               ∧ LR.ACTION r' = Some (LR.action_text a'))
                      ∧ ∀ a', LR.ends a'
                              → LR.ACTION r' ≠ Some (LR.action_text a'))
          outputs
  end.
Proof.
  assert (∀ l : list LR.output,
            Forall (λ r', LR.ACTION r' = None
                          ∨ ∃ a', LR.goes_on a'
                                  ∧ LR.ACTION r' = Some (LR.action_text a')) l →
            Forall (λ r', (LR.ACTION r' = None
                           ∨ ∃ a', LR.goes_on a'
                                   ∧ LR.ACTION r' = Some (LR.action_text a'))
                          ∧ ∀ a', LR.ends a'
                                  → LR.ACTION r' ≠ Some (LR.action_text a'))
              l) as Hall.
  { intros l Hl. eapply Forall_impl; [exact Hl|]. intros r Hr.
    split; [done|]. intros a' Hends Heq.
    destruct Hr as [Hnone|(a & Ha & Hsome)]; [congruence|].
    rewrite Hsome in Heq. injection Heq as Heq.
    by eapply lr_goes_on_not_ends. }
  rewrite lr_evaluate_loop.
  pose proof (lr_loop_outcomes lr fuel 1 (LR.initial_compounds lr input)
                (lr_initial_shaped lr input)) as H.
  destruct (LR.loop fuel lr 1 (LR.initial_compounds lr input) [])
    as [outs|e outs|outs]; [|done|].
  - destruct H as (front & r & a & -> & Ha & Hr & Hfront).
    exists front, r, a. split; [done|]. split; [done|].
    split; [done | by apply Hall].
  - destruct H as [Hlen Houts]. split; [done | by apply Hall].
Qed.

Lemma lr_records_read_action lr fuel step_counter compounds r :
  LR.shaped lr compounds →
  r ∈ outputs_of (LR.loop fuel lr step_counter compounds []) →
  LR.READ r = None ∧ LR.ACTION r = None
  ∨ ∃ ch, LR.READ r = Some [ch] ∧ is_Some (LR.ACTION r).
Proof.
  intros Hinit Hr. apply (lr_loop_invariant (LR.shaped lr)) in Hr.
  - destruct Hr as (n & c & read & act & tc & fin & -> & Hbody & Hshaped).
    destruct (lr_record_shaped lr c read act n Hshaped) as (_ & -> & ->).
    pose proof (lr_body_shaped lr c Hshaped) as H. rewrite Hbody in H.
    destruct H as [_ [(-> & -> & _)|(ch & a & -> & -> & _)]];
      [by left|right]. exists ch. split; [done | by eexists].
  - intros c read act tc Hshaped Hbody.
    pose proof (lr_body_shaped lr c Hshaped) as H. rewrite Hbody in H.
    by destruct H.
  - done.
Qed.

(** X7: in every record of an LR run "READ" and "ACTION" go together:
    either both are absent (the step found no pending compound), or
    "READ" is a single character and "ACTION" is present. *)
Theorem lr_read_goes_with_action fuel lr input out r :
  r ∈ outputs_of (LR.evaluate_lr_input fuel lr input out).1 →
  LR.READ r = None ∧ LR.ACTION r = None
  ∨ ∃ ch, LR.READ r = Some [ch] ∧ is_Some (LR.ACTION r).
Proof.
  rewrite lr_evaluate_loop. apply lr_records_read_action.
  apply lr_initial_shaped.
Qed.

Lemma lr_read_goes_with_action_witness :
  ∃ r, outputs_of (LR.evaluate_lr_input 2 lr_ab (lit "a") []).1 !! 1
       = Some r
       ∧ (LR.READ r = None ∧ LR.ACTION r = None
          ∨ ∃ ch, LR.READ r = Some [ch] ∧ is_Some (LR.ACTION r)).
Proof.
  eexists. split; [reflexivity|].
  apply (lr_read_goes_with_action 2 lr_ab (lit "a") []).
  apply list_elem_of_lookup_2 with 1. reflexivity.
Defined.

(** X8: a shift leaves the INPUT column as it is: the record after a
    record of a shift shows the same symbols. *)
Theorem lr_shift_keeps_input fuel lr input out n r r' a :
  outputs_of (LR.evaluate_lr_input fuel lr input out).1 !! n = Some r →
  outputs_of (LR.evaluate_lr_input fuel lr input out).1 !! S n = Some r' →
  LR.ACTION r = Some (LR.action_text (LR.Shift a)) →
  LR.INPUT r' = LR.INPUT r.
Proof.
  rewrite lr_evaluate_loop. intros Hr Hr' Hact.
  destruct (lr_loop_consecutive lr fuel 1 _ n r r'
              (lr_initial_shaped lr input) Hr Hr')
    as (c & read & act & tc & k & k' & Hshaped & Hbody & -> & -> & _).
  destruct (lr_record_shaped lr c read act k Hshaped) as (_ & _ & Htext).
  rewrite Htext in Hact. destruct act as [act|]; [|done].
  injection Hact as ->%lr_text_shift.
  pose proof (lr_body_shaped lr c Hshaped) as Htc. rewrite Hbody in Htc.
  destruct Htc as [Htc _].
  rewrite !(lr_record_input lr) by done.
  apply lr_body_shift in Hbody as (i & p & sym & Hfirst & Hsym & ->).
  apply lr_first_pending_spec in Hfirst as (j & -> & Hp & _).
  f_equal. by eapply omap_symbol_insert.
Qed.

Lemma lr_shift_keeps_input_witness :
  ∃ r r',
    outputs_of (LR.evaluate_lr_input 2 lr_ab (lit "ab$") []).1 !! 0 = Some r
    ∧ outputs_of (LR.evaluate_lr_input 2 lr_ab (lit "ab$") []).1 !! 1
      = Some r'
    ∧ LR.ACTION r = Some (LR.action_text (LR.Shift (lit "State_1")))
    ∧ LR.INPUT r = lit "ab$"
    ∧ LR.INPUT r' = LR.INPUT r.
Proof.
  eexists _, _. split; [reflexivity|]. split; [reflexivity|].
  split; [reflexivity|]. split; [reflexivity|].
  apply (lr_shift_keeps_input 2 lr_ab (lit "ab$") [] 0 _ _ (lit "State_1"));
    reflexivity.
Defined.

(** The reduction by [A -> b] of [lr_ab] on the stack "a". *)
Lemma lr_mismatch_spins_witness :
  LR.looks_up lr_ab
    [lr_start lr_ab; settled (lit "State_1") (lit "a"); pending (lit "$")]
    2 (lit "$") (lit "State_1") (lit "A->b")
  ∧ LR.classify (lit "A->b") = LR.VReduce
  ∧ ∃ outputs',
      LR.loop 3 lr_ab 2
        [lr_start lr_ab; settled (lit "State_1") (lit "a"); pending (lit "$")]
        []
      = Running ([] ++ outputs')
      ∧ length outputs' = 3
      ∧ Forall (λ r, LR.READ r = Some (lit "$")
                     ∧ LR.ACTION r
                       = Some (LR.action_text (LR.Reverse (lit "A->b"))))
          outputs'.
Proof.
  assert (LR.looks_up lr_ab
            [lr_start lr_ab; settled (lit "State_1") (lit "a");
             pending (lit "$")]
            2 (lit "$") (lit "State_1") (lit "A->b")) as Hlook.
  { eexists _, _, _. do 5 (split; [reflexivity|]). reflexivity. }
  split; [exact Hlook|]. split; [reflexivity|].
  apply (lr_mismatch_spins lr_ab _ 2 (lit "$") (lit "State_1") (lit "A->b")
           Hlook eq_refl eq_refl).
  repeat (constructor; [by eexists|]). constructor.
Defined.

(** The compounds of the empty input. *)
Lemma lr_no_pending_spins_witness :
  LR.first_pending 0 [lr_start lr_ab] = None
  ∧ ∃ outputs',
      LR.loop 2 lr_ab 1 [lr_start lr_ab] [] = Running ([] ++ outputs')
      ∧ length outputs' = 2
      ∧ Forall (λ r, LR.READ r = None ∧ LR.ACTION r = None) outputs'.
Proof.
  split; [reflexivity|].
  apply (lr_no_pending_spins lr_ab [lr_start lr_ab] eq_refl).
  constructor; [by eexists | constructor].
Defined.

(** The reduction by [A -> a] of [lr_aa] after the shift of "a", with
    the end marker as the only pending compound. *)
Lemma lr_reduce_single_lookahead_witness :
  LR.looks_up lr_aa
    ([lr_start lr_aa] ++ [settled (lit "State_1") (lit "a")]
       ++ [pending (lit "$")])
    (1 + 1) (lit "$") (lit "State_1") (lit "A->a")
  ∧ LR.body lr_aa
      ([lr_start lr_aa] ++ [settled (lit "State_1") (lit "a")]
         ++ [pending (lit "$")])
    = inr (Some (lit "$"), Some (LR.Reverse (lit "A->a")),
           [lr_start lr_aa] ++ [pending (lit "A"); pending (lit "$")], false).
Proof.
  assert (LR.looks_up lr_aa
            ([lr_start lr_aa] ++ [settled (lit "State_1") (lit "a")]
               ++ [pending (lit "$")])
            (1 + 1) (lit "$") (lit "State_1") (lit "A->a")) as Hlook.
  { eexists _, _, _. do 5 (split; [reflexivity|]). reflexivity. }
  split; [exact Hlook|].
  apply (lr_reduce_single_lookahead lr_aa [lr_start lr_aa]
           [settled (lit "State_1") (lit "a")] (lit "$") (lit "State_1")
           65%N (lit "->a") Hlook eq_refl).
  - constructor; [reflexivity | constructor].
  - constructor; [by eexists | constructor].
  - intros c Hc%list_elem_of_singleton Hin%list_elem_of_singleton.
    subst c. discriminate Hin.
Defined.

(** * The loaders *)

(** ** Splitting a line *)

Lemma split_from_head sep piece s :
  ∃ first rest, split_from sep piece s = first :: rest.
Proof.
  revert piece. induction s as [|c s IH]; intros piece; simpl; [by eauto|].
  case_decide; [by eauto | apply IH].
Qed.

Lemma split_from_no_sep sep piece s :
  sep ∉ s → split_from sep piece s = [piece ++ s].
Proof.
  revert piece. induction s as [|c s IH]; intros piece Hs; simpl.
  - by rewrite app_nil_r.
  - apply not_elem_of_cons in Hs as [Hc Hs].
    rewrite decide_False by done. rewrite IH by done.
    by rewrite <- (assoc_L (++)).
Qed.

Lemma split_from_single sep piece s t :
  split_from sep piece s = [t] → (sep ∉ s) ∧ t = piece ++ s.
Proof.
  revert piece. induction s as [|c s IH]; intros piece; simpl.
  - intros [= <-]. split; [apply not_elem_of_nil | by rewrite app_nil_r].
  - case_decide as Hc.
    + destruct (split_from_head sep [] s) as (f & r & ->). done.
    + intros [Hs ->]%IH. split; [|by rewrite <- (assoc_L (++))].
      apply not_elem_of_cons. split; [by intros -> | done].
Qed.

(** Joining the pieces with the separator gives the line back. *)
Lemma join_split_from sep piece s :
  join [sep] (split_from sep piece s) = piece ++ s.
Proof.
  revert piece. induction s as [|c s IH]; intros piece; simpl.
  - by rewrite app_nil_r.
  - case_decide as Hc.
    + subst c. destruct (split_from_head sep [] s) as (f & r & Hsplit).
      specialize (IH []). rewrite Hsplit in *. simpl in *.
      by rewrite IH.
    + rewrite IH. by rewrite <- (assoc_L (++)).
Qed.

(** ** The list of inputs *)

(** A line splits into a first token and the rest; a line that is "LL"
    or "LR" and nothing else has no rest. *)
Lemma split_line line :
  ∃ token rest,
    split line Loader.semicolon = token :: rest
    ∧ (rest = [] → line = token)
    ∧ (rest ≠ [] → line ≠ lit "LL" ∧ line ≠ lit "LR").
Proof.
  unfold split.
  destruct (split_from_head Loader.semicolon [] line) as (token & rest & Hs).
  exists token, rest. split; [done|]. split.
  - intros ->. by apply split_from_single in Hs as [_ ->].
  - intros Hrest. split; intros ->;
      rewrite split_from_no_sep in Hs by by_compute; by simplify_eq/=.
Qed.

Lemma parsing_lines_spec lines parsing_inputs out :
  match Loader.parsing_lines lines parsing_inputs out with
  | (inr parsing_inputs', out') =>
      ∃ new warnings,
        parsing_inputs' = parsing_inputs ++ new
        ∧ out' = out ++ warnings
        ∧ Forall (λ pi, Loader.method pi = lit "LL"
                        ∨ Loader.method pi = lit "LR") new
        ∧ length new + length warnings = length lines
        ∧ Forall (λ line, line ≠ lit "LL" ∧ line ≠ lit "LR") lines
  | (inl e, _) =>
      e = IndexError
      ∧ Exists (λ line, line = lit "LL" ∨ line = lit "LR") lines
  end.
Proof.
  revert parsing_inputs out.
  induction lines as [|line lines IH]; intros pis out.
  - simpl. exists [], []. by rewrite !app_nil_r.
  - cbn [Loader.parsing_lines]. cbv zeta.
    destruct (split_line line) as (token & rest & -> & Hbare & Hfull).
    cbn [lookup list_lookup].
    assert (∀ pis' out',
      match Loader.parsing_lines lines pis' out' with
      | (inr parsing_inputs', out'') =>
          ∃ new warnings,
            parsing_inputs' = pis' ++ new ∧ out'' = out' ++ warnings
            ∧ Forall (λ pi, Loader.method pi = lit "LL"
                            ∨ Loader.method pi = lit "LR") new
            ∧ length new + length warnings = length lines
            ∧ Forall (λ line, line ≠ lit "LL" ∧ line ≠ lit "LR") lines
      | (inl e, _) =>
          e = IndexError
          ∧ Exists (λ line, line = lit "LL" ∨ line = lit "LR") lines
      end) as IH' by done.
    destruct (decide (token = lit "LL")) as [->|Hll];
      [|destruct (decide (token = lit "LR")) as [->|Hlr]].
    + destruct rest as [|string rest]; simpl.
      { split; [done|]. left. left. by apply Hbare. }
      specialize (IH' (pis ++ [{| Loader.method := lit "LL";
                                  Loader.string := string |}]) out).
      destruct (Loader.parsing_lines lines _ out) as [[e|pis'] out'].
      * destruct IH' as [-> Hex]. split; [done | by right].
      * destruct IH' as (new & warns & -> & -> & Hnew & Hlen & Hlines).
        eexists (_ :: new), warns. rewrite <- (assoc_L (++)).
        split; [done|]. split; [done|].
        split; [constructor; [by left | done]|].
        split; [simpl; lia|]. constructor; [by apply Hfull | done].
    + destruct rest as [|string rest]; simpl.
      { split; [done|]. left. right. by apply Hbare. }
      specialize (IH' (pis ++ [{| Loader.method := lit "LR";
                                  Loader.string := string |}]) out).
      destruct (Loader.parsing_lines lines _ out) as [[e|pis'] out'].
      * destruct IH' as [-> Hex]. split; [done | by right].
      * destruct IH' as (new & warns & -> & -> & Hnew & Hlen & Hlines).
        eexists (_ :: new), warns. rewrite <- (assoc_L (++)).
        split; [done|]. split; [done|].
        split; [constructor; [by right | done]|].
        split; [simpl; lia|]. constructor; [by apply Hfull | done].
    + specialize (IH' pis (out ++ [Loader.unsupported token])).
      destruct (Loader.parsing_lines lines pis _) as [[e|pis'] out'].
      * destruct IH' as [-> Hex]. split; [done | by right].
      * destruct IH' as (new & warns & -> & -> & Hnew & Hlen & Hlines).
        exists new, (Loader.unsupported token :: warns).
        rewrite <- (assoc_L (++)). split; [done|]. split; [done|].
        split; [done|]. split; [simpl; lia|]. constructor; [|done].
        destruct rest as [|x rest]; [|by apply Hfull].
        rewrite Hbare by done. done.
Qed.

(** X12: [generate_parsing_inputs] skips the first line and turns every
    later line into one input or one warning: the inputs it returns carry
    the method "LL" or "LR" and nothing else, so the [case _] of [main] is
    never taken for them. It raises [IndexError] exactly when one of these
    lines is "LL" or "LR" alone, with no semicolon after it. *)
Theorem parsing_inputs_are_ll_or_lr contents out :
  match Loader.generate_parsing_inputs contents out with
  | (inr parsing_inputs, out') =>
      Forall (λ pi, Loader.method pi = lit "LL"
                    ∨ Loader.method pi = lit "LR") parsing_inputs
      ∧ (∃ warnings,
           out' = out ++ warnings
           ∧ length parsing_inputs + length warnings
             = length contents - 1)
      ∧ Forall (λ line, line ≠ lit "LL" ∧ line ≠ lit "LR") (drop 1 contents)
  | (inl e, _) =>
      e = IndexError
      ∧ Exists (λ line, line = lit "LL" ∨ line = lit "LR") (drop 1 contents)
  end.
Proof.
  unfold Loader.generate_parsing_inputs.
  pose proof (parsing_lines_spec (drop 1 contents) [] out) as H.
  destruct (Loader.parsing_lines (drop 1 contents) [] out) as [[e|pis] out'];
    [done|].
  destruct H as (new & warns & -> & -> & Hnew & Hlen & Hlines).
  split; [done|]. split; [|done]. exists warns. split; [done|].
  rewrite length_drop in Hlen. simpl. lia.
Qed.

(** ** The LR(1) table *)

Lemma cell_cons token tokens j :
  Loader.cell (token :: tokens) (S j) = Loader.cell tokens j.
Proof. done. Qed.

Lemma lr_cells_lookup cond_symbols i tokens actions actions' :
  NoDup cond_symbols →
  Loader.lr_cells cond_symbols i tokens actions = inr actions' →
  ∀ j cond_symbol,
    cond_symbols !! j = Some cond_symbol →
    actions' !! cond_symbol
    = match (if decide (i ≤ j) then Loader.cell tokens (j - i) else None) with
      | Some token => Some token
      | None => actions !! cond_symbol
      end.
Proof.
  intros Hnodup. revert i actions.
  induction tokens as [|token tokens IH]; intros i actions.
  - intros [= <-] j sym Hj. by case_decide.
  - cbn [Loader.lr_cells].
    assert (∀ acts (c0 : option str),
      Loader.lr_cells cond_symbols (S i) tokens acts = inr actions' →
      (∀ sym, c0 = Some sym → cond_symbols !! i = Some sym) →
      (∀ sym, (∀ j, cond_symbols !! j = Some sym → j ≠ i) →
              acts !! sym = actions !! sym) →
      (∀ sym, cond_symbols !! i = Some sym →
              acts !! sym = match Loader.cell (token :: tokens) 0 with
                            | Some t => Some t
                            | None => actions !! sym
                            end) →
      ∀ j sym, cond_symbols !! j = Some sym →
        actions' !! sym
        = match (if decide (i ≤ j)
                 then Loader.cell (token :: tokens) (j - i) else None) with
          | Some t => Some t
          | None => actions !! sym
          end) as Hstep.
    { intros acts c0 Hrec _ Hother Hhere j sym Hj.
      rewrite (IH _ _ Hrec j sym Hj).
      destruct (decide (S i ≤ j)) as [Hle|Hle].
      - rewrite decide_True by lia.
        replace (j - i) with (S (j - S i)) by lia. rewrite cell_cons.
        destruct (Loader.cell tokens (j - S i)); [done|].
        apply Hother. intros j' Hj' ->.
        pose proof (NoDup_lookup _ _ _ _ Hnodup Hj Hj'). lia.
      - destruct (decide (i ≤ j)) as [Hij|Hij].
        + assert (j = i) as -> by lia. rewrite Nat.sub_diag. by apply Hhere.
        + apply Hother. intros j' Hj' ->.
          pose proof (NoDup_lookup _ _ _ _ Hnodup Hj Hj'). lia. }
    case_decide as Htoken.
    + destruct (cond_symbols !! i) as [c0|] eqn:Hc0; [|done].
      intros Hrec. apply (Hstep _ (Some c0) Hrec); [by intros ? [= <-]| |].
      * intros sym Hsym. apply lookup_insert_ne. intros <-.
        by apply (Hsym i).
      * intros sym [= <-]. unfold Loader.cell. simpl.
        rewrite decide_True by done. apply lookup_insert_eq.
    + intros Hrec. apply (Hstep _ None Hrec); [done | done |].
      intros sym _. unfold Loader.cell. simpl.
      by rewrite decide_False by (intros H; by apply H).
Qed.

Lemma lr_cells_raises cond_symbols i tokens actions :
  match Loader.lr_cells cond_symbols i tokens actions with
  | inr _ =>
      ∀ k token, tokens !! k = Some token → token ≠ [] →
                 i + k < length cond_symbols
  | inl e =>
      e = IndexError
      ∧ ∃ k token, tokens !! k = Some token ∧ token ≠ []
                   ∧ length cond_symbols ≤ i + k
  end.
Proof.
  revert i actions. induction tokens as [|token tokens IH]; intros i actions.
  - simpl. by intros k token.
  - cbn [Loader.lr_cells]. case_decide as Htoken.
    + destruct (cond_symbols !! i) as [c0|] eqn:Hc0.
      * specialize (IH (S i) (<[c0:=token]> actions)).
        destruct (Loader.lr_cells cond_symbols (S i) tokens _).
        -- destruct IH as (-> & k & t & Hk & Ht & Hlen). split; [done|].
           exists (S k), t. split; [done|]. split; [done | lia].
        -- intros [|k] t Hk Ht.
           ++ apply lookup_lt_Some in Hc0. lia.
           ++ specialize (IH k t Hk Ht). lia.
      * split; [done|]. exists 0, token. split; [done|]. split; [done|].
        apply lookup_ge_None in Hc0. lia.
    + specialize (IH (S i) actions).
      destruct (Loader.lr_cells cond_symbols (S i) tokens actions).
      * destruct IH as (-> & k & t & Hk & Ht & Hlen). split; [done|].
        exists (S k), t. split; [done|]. split; [done | lia].
      * intros [|k] t Hk Ht.
        -- by simplify_eq/=.
        -- specialize (IH k t Hk Ht). lia.
Qed.

Lemma lr_rows_spec cond_symbols lines lr_table lr_start_state found :
  match Loader.lr_rows cond_symbols lines lr_table lr_start_state found with
  | inr (lr_table', lr_start_state') =>
      lr_start_state'
      = (if found then lr_start_state
         else match lines with
              | [] => lr_start_state
              | line :: _ => default [] (head (split line Loader.semicolon))
              end)
      ∧ Forall (λ line, ¬ Loader.overlong cond_symbols line) lines
      ∧ (∀ state,
           (∀ line, line ∈ lines →
                    head (split line Loader.semicolon) ≠ Some state) →
           lr_table' !! state = lr_table !! state)
      ∧ (∀ k line state tokens,
           lines !! k = Some line →
           split line Loader.semicolon = state :: tokens →
           (∀ k' line', k < k' → lines !! k' = Some line' →
                        head (split line' Loader.semicolon) ≠ Some state) →
           ∃ actions,
             lr_table' !! state = Some actions
             ∧ Loader.lr_cells cond_symbols 0 tokens ∅ = inr actions)
  | inl e => e = IndexError ∧ Exists (Loader.overlong cond_symbols) lines
  end.
Proof.
  revert lr_table lr_start_state found.
  induction lines as [|line lines IH]; intros tbl st found.
  - simpl. split; [by destruct found|]. split; [done|]. split; [done|].
    by intros k line state tokens.
  - cbn [Loader.lr_rows].
    destruct (split_line line) as (state & tokens & Hsplit & _ & _).
    rewrite Hsplit. cbv zeta.
    pose proof (lr_cells_raises cond_symbols 0 tokens ∅) as Hcells.
    destruct (Loader.lr_cells cond_symbols 0 tokens ∅) as [e|actions]
      eqn:Hactions.
    + destruct Hcells as (-> & k & token & Hk & Htoken & Hlen).
      split; [done|]. left. exists k, token. rewrite Hsplit. by simpl.
    + specialize (IH (<[state:=actions]> tbl)
                    (if found then st else state) true).
      destruct (Loader.lr_rows cond_symbols lines _ _ true)
        as [e|[tbl' st']].
      * destruct IH as [-> Hex]. split; [done | by right].
      * destruct IH as (-> & Hlines & Hother & Hrows).
        split; [by destruct found|]. split.
        { constructor; [|done]. intros (k & token & Hk & Htoken & Hlen).
          rewrite Hsplit in Hk. simpl in Hk.
          specialize (Hcells k token Hk Htoken). simpl in Hcells. lia. }
        split.
        { intros state' Hstate'. rewrite Hother.
          - apply lookup_insert_ne. intros ->.
            apply (Hstate' line); [by left|]. by rewrite Hsplit.
          - intros line' Hline'. apply Hstate'. by right. }
        intros [|k] line' state' tokens' Hk Hsplit' Hlater.
        -- injection Hk as <-. rewrite Hsplit in Hsplit'.
           injection Hsplit' as <- <-. exists actions. split; [|done].
           rewrite Hother; [apply lookup_insert_eq|].
           intros later [k' Hk']%list_elem_of_lookup_1.
           apply (Hlater (S k') later); [lia | done].
        -- apply (Hrows k line' state' tokens' Hk Hsplit').
           intros k' line'' Hlt Hk'. apply (Hlater (S k') line''); [lia|done].
Qed.

(** X13: the LR table read from a file answers with the cells of the
    file. For a row whose state stands on no later row, and a header
    without repeated symbols, the entry under a symbol is the text of the
    cell in its column, and there is no entry where the cell is empty or
    the row ends before it. *)
Theorem lr_table_lookup contents lr header k line state tokens j
    cond_symbol :
  Loader.generate_lr_table contents = inr lr →
  contents !! 1 = Some header →
  NoDup (drop 1 (split header Loader.semicolon)) →
  drop 2 contents !! k = Some line →
  split line Loader.semicolon = state :: tokens →
  (∀ k' line', k < k' → drop 2 contents !! k' = Some line' →
               head (split line' Loader.semicolon) ≠ Some state) →
  drop 1 (split header Loader.semicolon) !! j = Some cond_symbol →
  ∃ actions,
    LR.table lr !! state = Some actions
    ∧ actions !! cond_symbol = Loader.cell tokens j.
Proof.
  unfold Loader.generate_lr_table. intros Hgen Hheader Hnodup Hk Hsplit
    Hlater Hj.
  rewrite Hheader in Hgen. cbv zeta in Hgen.
  pose proof (lr_rows_spec (drop 1 (split header Loader.semicolon))
                (drop 2 contents) ∅ [] false) as Hrows.
  destruct (Loader.lr_rows _ (drop 2 contents) ∅ [] false)
    as [e|[tbl st]]; [done|].
  injection Hgen as <-. simpl.
  destruct Hrows as (_ & _ & _ & Hrows).
  destruct (Hrows k line state tokens Hk Hsplit Hlater)
    as (actions & Htbl & Hcells).
  exists actions. split; [done|].
  rewrite (lr_cells_lookup _ _ _ _ _ Hnodup Hcells j cond_symbol Hj).
  rewrite decide_True by lia. rewrite Nat.sub_0_r.
  by destruct (Loader.cell tokens j).
Qed.

(** The row of state 1 in [lr_file]: no action under "a", and "Accept"
    under "$". *)
Lemma lr_table_lookup_witness :
  ∃ lr,
    Loader.generate_lr_table lr_file = inr lr
    ∧ (∃ actions, LR.table lr !! lit "State_1" = Some actions
                  ∧ actions !! lit "a" = None)
    ∧ (∃ actions, LR.table lr !! lit "State_1" = Some actions
                  ∧ actions !! lit "$" = Some (lit "Accept")).
Proof.
  eexists. split; [reflexivity|].
  assert (NoDup (drop 1 (split (lit ";a;$") Loader.semicolon))) as Hnodup
    by by_compute.
  assert (∀ k' line', 1 < k' → drop 2 lr_file !! k' = Some line' →
                      head (split line' Loader.semicolon)
                      ≠ Some (lit "State_1")) as Hlater.
  { intros [|[|k']] line' Hlt Hk'; [lia | lia | done]. }
  split.
  - apply (lr_table_lookup lr_file _ (lit ";a;$") 1 (lit "State_1;;Accept")
             (lit "State_1") [ []; lit "Accept"] 0 (lit "a"));
      [reflexivity | reflexivity | exact Hnodup | reflexivity | reflexivity
      | exact Hlater | reflexivity].
  - apply (lr_table_lookup lr_file _ (lit ";a;$") 1 (lit "State_1;;Accept")
             (lit "State_1") [ []; lit "Accept"] 1 (lit "$"));
      [reflexivity | reflexivity | exact Hnodup | reflexivity | reflexivity
      | exact Hlater | reflexivity].
Defined.

(** X14: [generate_lr_table] raises [IndexError] exactly when the file has
    fewer than two lines or a row has a non-empty cell beyond the symbols
    of the second line. Otherwise the start state is the first token of
    the third line (the empty string when there is no third line), and a
    state that begins no row has no entry in the table. *)
Theorem lr_table_start_and_errors contents :
  match Loader.generate_lr_table contents with
  | inr lr =>
      2 ≤ length contents
      ∧ LR.start_state lr
        = match contents !! 2 with
          | Some line => default [] (head (split line Loader.semicolon))
          | None => []
          end
      ∧ Forall (λ line,
                  ¬ Loader.overlong
                      (drop 1 (split (default [] (contents !! 1))
                                 Loader.semicolon)) line)
          (drop 2 contents)
      ∧ ∀ state,
          (∀ line, line ∈ drop 2 contents →
                   head (split line Loader.semicolon) ≠ Some state) →
          LR.table lr !! state = None
  | inl e =>
      e = IndexError
      ∧ (length contents < 2
         ∨ Exists (Loader.overlong
                     (drop 1 (split (default [] (contents !! 1))
                                Loader.semicolon)))
             (drop 2 contents))
  end.
Proof.
  unfold Loader.generate_lr_table.
  destruct (contents !! 1) as [header|] eqn:Hheader.
  - cbv zeta. simpl.
    pose proof (lr_rows_spec (drop 1 (split header Loader.semicolon))
                  (drop 2 contents) ∅ [] false) as Hrows.
    destruct (Loader.lr_rows _ (drop 2 contents) ∅ [] false)
      as [e|[tbl st]].
    + destruct Hrows as [-> Hex]. split; [done | by right].
    + destruct Hrows as (-> & Hlines & Hother & _). simpl.
      split; [apply lookup_lt_Some in Hheader; lia|].
      split; [|split; [done|]].
      * destruct contents as [|l0 [|l1 [|l2 contents]]]; done.
      * intros state Hstate. by rewrite Hother.
  - split; [done|]. left. apply lookup_ge_None in Hheader. lia.
Qed.

(** ** The LL(1) table *)

Lemma ll_cells_lookup terminals non_terminal i tokens productions start
    productions' start' :
  NoDup terminals →
  Loader.ll_cells terminals non_terminal i tokens productions start
    = inr (productions', start') →
  ∀ j terminal,
    terminals !! j = Some terminal →
    productions' !! terminal
    = match (if decide (i ≤ j) then Loader.cell tokens (j - i) else None) with
      | Some token => Some (replace token (non_terminal ++ lit "->") [])
      | None => productions !! terminal
      end.
Proof.
  intros Hnodup. revert i productions start.
  induction tokens as [|token tokens IH]; intros i prods start.
  - intros [= <- <-] j sym Hj. by case_decide.
  - cbn [Loader.ll_cells].
    assert (∀ acts st,
      Loader.ll_cells terminals non_terminal (S i) tokens acts st
        = inr (productions', start') →
      (∀ sym, (∀ j, terminals !! j = Some sym → j ≠ i) →
              acts !! sym = prods !! sym) →
      (∀ sym, terminals !! i = Some sym →
              acts !! sym
              = match Loader.cell (token :: tokens) 0 with
                | Some t => Some (replace t (non_terminal ++ lit "->") [])
                | None => prods !! sym
                end) →
      ∀ j sym, terminals !! j = Some sym →
        productions' !! sym
        = match (if decide (i ≤ j)
                 then Loader.cell (token :: tokens) (j - i) else None) with
          | Some t => Some (replace t (non_terminal ++ lit "->") [])
          | None => prods !! sym
          end) as Hstep.
    { intros acts st Hrec Hother Hhere j sym Hj.
      rewrite (IH _ _ _ Hrec j sym Hj).
      destruct (decide (S i ≤ j)) as [Hle|Hle].
      - rewrite decide_True by lia.
        replace (j - i) with (S (j - S i)) by lia. rewrite cell_cons.
        destruct (Loader.cell tokens (j - S i)); [done|].
        apply Hother. intros j' Hj' ->.
        pose proof (NoDup_lookup _ _ _ _ Hnodup Hj Hj'). lia.
      - destruct (decide (i ≤ j)) as [Hij|Hij].
        + assert (j = i) as -> by lia. rewrite Nat.sub_diag. by apply Hhere.
        + apply Hother. intros j' Hj' ->.
          pose proof (NoDup_lookup _ _ _ _ Hnodup Hj Hj'). lia. }
    case_decide as Htoken.
    + cbv zeta. destruct (terminals !! i) as [c0|] eqn:Hc0; [|done].
      intros Hrec. apply (Hstep _ _ Hrec).
      * intros sym Hsym. apply lookup_insert_ne. intros <-.
        by apply (Hsym i).
      * intros sym [= <-]. unfold Loader.cell. simpl.
        rewrite decide_True by done. apply lookup_insert_eq.
    + intros Hrec. apply (Hstep _ _ Hrec); [done|].
      intros sym _. unfold Loader.cell. simpl.
      by rewrite decide_False by (intros H; by apply H).
Qed.

Lemma ll_cells_raises terminals non_terminal i tokens productions start :
  match Loader.ll_cells terminals non_terminal i tokens productions start with
  | inr _ =>
      ∀ k token, tokens !! k = Some token → token ≠ [] →
                 i + k < length terminals
  | inl e =>
      e = IndexError
      ∧ ∃ k token, tokens !! k = Some token ∧ token ≠ []
                   ∧ length terminals ≤ i + k
  end.
Proof.
  revert i productions start.
  induction tokens as [|token tokens IH]; intros i prods start.
  - simpl. by intros k token.
  - cbn [Loader.ll_cells]. case_decide as Htoken.
    + cbv zeta. destruct (terminals !! i) as [c0|] eqn:Hc0.
      * match goal with
        | |- context [Loader.ll_cells _ _ (S i) tokens ?p ?s] =>
            specialize (IH (S i) p s);
            destruct (Loader.ll_cells terminals non_terminal (S i) tokens p s)
        end.
        -- destruct IH as (-> & k & t & Hk & Ht & Hlen). split; [done|].
           exists (S k), t. split; [done|]. split; [done | lia].
        -- intros [|k] t Hk Ht.
           ++ apply lookup_lt_Some in Hc0. lia.
           ++ specialize (IH k t Hk Ht). lia.
      * split; [done|]. exists 0, token. split; [done|]. split; [done|].
        apply lookup_ge_None in Hc0. lia.
    + specialize (IH (S i) prods start).
      destruct (Loader.ll_cells terminals non_terminal (S i) tokens prods
                  start).
      * destruct IH as (-> & k & t & Hk & Ht & Hlen). split; [done|].
        exists (S k), t. split; [done|]. split; [done | lia].
      * intros [|k] t Hk Ht.
        -- by simplify_eq/=.
        -- specialize (IH k t Hk Ht). lia.
Qed.

(** The start rule after a row: the one it had, or the first non-empty
    cell of the row. *)
Lemma ll_cells_start terminals non_terminal i tokens productions start
    productions' start' :
  Loader.ll_cells terminals non_terminal i tokens productions start
    = inr (productions', start') →
  start'
  = if Loader.ll_start_rule_found start then start
    else match list_find (λ token, token ≠ []) tokens with
         | Some (_, token) =>
             {| Loader.ll_start_symbol := non_terminal;
                Loader.ll_start_rule :=
                  replace token (non_terminal ++ lit "->") [];
                Loader.ll_start_rule_found := true |}
         | None => start
         end.
Proof.
  revert i productions start.
  induction tokens as [|token tokens IH]; intros i prods start.
  - intros [= <- <-]. by destruct (Loader.ll_start_rule_found start).
  - cbn [Loader.ll_cells list_find].
    destruct (decide (token ≠ [])) as [Htoken|Htoken].
    + cbv zeta. destruct (terminals !! i) as [c0|]; [|done].
      intros Hrec. apply IH in Hrec. rewrite Hrec.
      by destruct (Loader.ll_start_rule_found start) eqn:Hfound;
        simpl; rewrite ?Hfound.
    + intros Hrec. apply IH in Hrec. rewrite Hrec.
      destruct (Loader.ll_start_rule_found start); [done|].
      by destruct (list_find _ tokens) as [[??]|].
Qed.

Lemma blank_no_cell line non_terminal tokens :
  Loader.blank line →
  split line Loader.semicolon = non_terminal :: tokens →
  list_find (λ token : str, token ≠ []) tokens = None.
Proof.
  unfold Loader.blank. intros Hblank Hsplit. rewrite Hsplit in Hblank.
  apply list_find_None. eapply Forall_impl; [exact Hblank|].
  intros token -> H. by apply H.
Qed.

Lemma ll_rows_spec terminals lines ll_table start :
  match Loader.ll_rows terminals lines ll_table start with
  | inr (ll_table', start') =>
      Forall (λ line, ¬ Loader.overlong terminals line) lines
      ∧ (∀ non_terminal,
           (∀ line, line ∈ lines →
                    head (split line Loader.semicolon) ≠ Some non_terminal) →
           ll_table' !! non_terminal = ll_table !! non_terminal)
      ∧ (∀ k line non_terminal tokens,
           lines !! k = Some line →
           split line Loader.semicolon = non_terminal :: tokens →
           (∀ k' line', k < k' → lines !! k' = Some line' →
                        head (split line' Loader.semicolon)
                        ≠ Some non_terminal) →
           ∃ productions start0 start1,
             ll_table' !! non_terminal = Some productions
             ∧ Loader.ll_cells terminals non_terminal 0 tokens ∅ start0
               = inr (productions, start1))
      ∧ (Loader.ll_start_rule_found start = true → start' = start)
      ∧ (Loader.ll_start_rule_found start = false →
         Forall Loader.blank lines → start' = start)
      ∧ (Loader.ll_start_rule_found start = false →
         ∀ before line after non_terminal tokens k token,
           lines = before ++ line :: after →
           Forall Loader.blank before →
           split line Loader.semicolon = non_terminal :: tokens →
           list_find (λ token : str, token ≠ []) tokens = Some (k, token) →
           start'
           = {| Loader.ll_start_symbol := non_terminal;
                Loader.ll_start_rule :=
                  replace token (non_terminal ++ lit "->") [];
                Loader.ll_start_rule_found := true |})
  | inl e => e = IndexError ∧ Exists (Loader.overlong terminals) lines
  end.
Proof.
  revert ll_table start.
  induction lines as [|line lines IH]; intros tbl start.
  - simpl. split; [done|]. split; [done|].
    split; [by intros k line nt tokens|]. split; [done|]. split; [done|].
    intros _ [|??] ????? ?; done.
  - cbn [Loader.ll_rows].
    destruct (split_line line) as (nt & tokens & Hsplit & _ & _).
    rewrite Hsplit.
    pose proof (ll_cells_raises terminals nt 0 tokens ∅ start) as Hcells.
    destruct (Loader.ll_cells terminals nt 0 tokens ∅ start)
      as [e|[prods start1]] eqn:Hprods.
    + destruct Hcells as (-> & k & token & Hk & Htoken & Hlen).
      split; [done|]. left. exists k, token. rewrite Hsplit. by simpl.
    + pose proof (ll_cells_start _ _ _ _ _ _ _ _ Hprods) as Hstart1.
      specialize (IH (<[nt:=prods]> tbl) start1).
      destruct (Loader.ll_rows terminals lines _ start1) as [e|[tbl' start']].
      * destruct IH as [-> Hex]. split; [done | by right].
      * destruct IH as (Hlines & Hother & Hrows & Hfound & Hblank & Hfirst).
        split.
        { constructor; [|done]. intros (k & token & Hk & Htoken & Hlen).
          rewrite Hsplit in Hk. simpl in Hk.
          specialize (Hcells k token Hk Htoken). simpl in Hcells. lia. }
        split.
        { intros nt' Hnt'. rewrite Hother.
          - apply lookup_insert_ne. intros ->.
            apply (Hnt' line); [by left|]. by rewrite Hsplit.
          - intros line' Hline'. apply Hnt'. by right. }
        split.
        { intros [|k] line' nt' tokens' Hk Hsplit' Hlater.
          - injection Hk as <-. rewrite Hsplit in Hsplit'.
            injection Hsplit' as <- <-. exists prods, start, start1.
            split; [|done]. rewrite Hother; [apply lookup_insert_eq|].
            intros later [k' Hk']%list_elem_of_lookup_1.
            apply (Hlater (S k') later); [lia | done].
          - apply (Hrows k line' nt' tokens' Hk Hsplit').
            intros k' line'' Hlt Hk'.
            apply (Hlater (S k') line''); [lia|done]. }
        split.
        { intros Hf. rewrite Hf in Hstart1. subst start1. by apply Hfound. }
        split.
        { intros Hf [Hline Hrest]%Forall_cons. rewrite Hf in Hstart1.
          rewrite (blank_no_cell _ _ _ Hline Hsplit) in Hstart1.
          subst start1. by apply Hblank. }
        intros Hf before l after nt' tokens' k token Heq Hbefore Hsplit'
          Hfind.
        rewrite Hf in Hstart1. destruct before as [|b before].
        -- injection Heq as <- ->. rewrite Hsplit in Hsplit'.
           injection Hsplit' as <- <-. rewrite Hfind in Hstart1.
           rewrite Hfound; [done|]. by rewrite Hstart1.
        -- injection Heq as <- ->.
           apply Forall_cons in Hbefore as [Hline Hbefore].
           rewrite (blank_no_cell _ _ _ Hline Hsplit) in Hstart1.
           subst start1. by eapply Hfirst.
Qed.

(** X15: the LL table read from a file answers with the cells of the
    file, after "id" is replaced by "#" in every line. For a row whose
    non-terminal stands on no later row, and a header without repeated
    terminals, the production under a terminal is the text of the cell in
    its column without the prefix "non-terminal->", and there is no
    production where the cell is empty or the row ends before it. *)
Theorem ll_table_lookup contents ll header k line non_terminal tokens j
    terminal :
  Loader.generate_ll_table contents = inr ll →
  (Loader.normalise <$> contents) !! 0 = Some header →
  NoDup (drop 1 (split header Loader.semicolon)) →
  drop 1 (Loader.normalise <$> contents) !! k = Some line →
  split line Loader.semicolon = non_terminal :: tokens →
  (∀ k' line', k < k' →
     drop 1 (Loader.normalise <$> contents) !! k' = Some line' →
     head (split line' Loader.semicolon) ≠ Some non_terminal) →
  drop 1 (split header Loader.semicolon) !! j = Some terminal →
  ∃ productions,
    LL.table ll !! non_terminal = Some productions
    ∧ productions !! terminal
      = (λ token, replace token (non_terminal ++ lit "->") [])
          <$> Loader.cell tokens j.
Proof.
  unfold Loader.generate_ll_table. cbv zeta.
  intros Hgen Hheader Hnodup Hk Hsplit Hlater Hj.
  destruct (Loader.normalise <$> contents) as [|header' lines]; [done|].
  injection Hheader as ->. simpl in Hk, Hlater.
  rewrite !drop_0 in *.
  pose proof (ll_rows_spec (drop 1 (split header Loader.semicolon)) lines ∅
                {| Loader.ll_start_symbol := [];
                   Loader.ll_start_rule := [];
                   Loader.ll_start_rule_found := false |}) as Hrows.
  destruct (Loader.ll_rows _ lines ∅ _) as [e|[tbl start]]; [done|].
  injection Hgen as <-. simpl.
  destruct Hrows as (_ & _ & Hrows & _).
  destruct (Hrows k line non_terminal tokens Hk Hsplit Hlater)
    as (prods & st0 & st1 & Htbl & Hcells).
  exists prods. split; [done|].
  rewrite (ll_cells_lookup _ _ _ _ _ _ _ _ Hnodup Hcells j terminal Hj).
  rewrite decide_True by lia. rewrite Nat.sub_0_r.
  by destruct (Loader.cell tokens j).
Qed.

(** The row of [S] in [ll_file]: the production "#" under the terminal
    written "id", and none under "$". *)
Lemma ll_table_lookup_witness :
  ∃ ll,
    Loader.generate_ll_table ll_file = inr ll
    ∧ (∃ productions, LL.table ll !! lit "S" = Some productions
                      ∧ productions !! lit "#" = Some (lit "#"))
    ∧ (∃ productions, LL.table ll !! lit "S" = Some productions
                      ∧ productions !! lit "$" = None).
Proof.
  eexists. split; [reflexivity|].
  assert (NoDup (drop 1 (split (lit ";#;$") Loader.semicolon))) as Hnodup
    by by_compute.
  assert (∀ k' line', 0 < k' →
            drop 1 (Loader.normalise <$> ll_file) !! k' = Some line' →
            head (split line' Loader.semicolon) ≠ Some (lit "S")) as Hlater.
  { intros [|k'] line' Hlt Hk'; [lia | done]. }
  split.
  - apply (ll_table_lookup ll_file _ (lit ";#;$") 0 (lit "S;S->#;") (lit "S")
             [lit "S->#"; []] 0 (lit "#"));
      [reflexivity | reflexivity | exact Hnodup | reflexivity | reflexivity
      | exact Hlater | reflexivity].
  - apply (ll_table_lookup ll_file _ (lit ";#;$") 0 (lit "S;S->#;") (lit "S")
             [lit "S->#"; []] 1 (lit "$"));
      [reflexivity | reflexivity | exact Hnodup | reflexivity | reflexivity
      | exact Hlater | reflexivity].
Defined.

(** X16: [generate_ll_table] raises [IndexError] exactly when the file is
    empty or a row has a non-empty cell beyond the terminals of the first
    line. Otherwise a non-terminal that begins no row has no row in the
    table. *)
Theorem ll_table_errors contents :
  match Loader.generate_ll_table contents with
  | inr ll =>
      contents ≠ []
      ∧ Forall (λ line,
                  ¬ Loader.overlong
                      (drop 1 (split (default []
                                        (head (Loader.normalise <$> contents)))
                                 Loader.semicolon)) line)
          (drop 1 (Loader.normalise <$> contents))
      ∧ ∀ non_terminal,
          (∀ line, line ∈ drop 1 (Loader.normalise <$> contents) →
                   head (split line Loader.semicolon) ≠ Some non_terminal) →
          LL.table ll !! non_terminal = None
  | inl e =>
      e = IndexError
      ∧ (contents = []
         ∨ Exists (Loader.overlong
                     (drop 1 (split (default []
                                       (head (Loader.normalise <$> contents)))
                                Loader.semicolon)))
             (drop 1 (Loader.normalise <$> contents)))
  end.
Proof.
  unfold Loader.generate_ll_table. cbv zeta.
  destruct contents as [|line0 contents]; [simpl; by auto|].
  rewrite fmap_cons. cbn [head default drop]. rewrite !drop_0.
  pose proof (ll_rows_spec
                (drop 1 (split (Loader.normalise line0) Loader.semicolon))
                (Loader.normalise <$> contents) ∅
                {| Loader.ll_start_symbol := [];
                   Loader.ll_start_rule := [];
                   Loader.ll_start_rule_found := false |}) as Hrows.
  destruct (Loader.ll_rows _ (Loader.normalise <$> contents) ∅ _)
    as [e|[tbl start]].
  - destruct Hrows as [-> Hex]. split; [done | by right].
  - destruct Hrows as (Hlines & Hother & _). simpl.
    split; [done|]. split; [done|].
    intros nt Hnt. by rewrite Hother.
Qed.

(** X17: the start rule of the LL table is the first non-empty cell of
    the file, rows from top to bottom and cells from left to right: the
    start symbol is the non-terminal of its row, and the start rule its
    text without the prefix "non-terminal->". When no row has a non-empty
    cell, both are the empty string. *)
Theorem ll_table_start_rule contents ll :
  Loader.generate_ll_table contents = inr ll →
  (Forall Loader.blank (drop 1 (Loader.normalise <$> contents)) →
   LL.start_symbol ll = [] ∧ LL.start_rule ll = [])
  ∧ (∀ before line after non_terminal tokens k token,
       drop 1 (Loader.normalise <$> contents) = before ++ line :: after →
       Forall Loader.blank before →
       split line Loader.semicolon = non_terminal :: tokens →
       list_find (λ token : str, token ≠ []) tokens = Some (k, token) →
       LL.start_symbol ll = non_terminal
       ∧ LL.start_rule ll = replace token (non_terminal ++ lit "->") []).
Proof.
  unfold Loader.generate_ll_table. cbv zeta.
  destruct (Loader.normalise <$> contents) as [|header lines]; [done|].
  simpl. rewrite drop_0.
  pose proof (ll_rows_spec (drop 1 (split header Loader.semicolon)) lines ∅
                {| Loader.ll_start_symbol := [];
                   Loader.ll_start_rule := [];
                   Loader.ll_start_rule_found := false |}) as Hrows.
  destruct (Loader.ll_rows _ lines ∅ _) as [e|[tbl start]]; [done|].
  intros [= <-]. simpl.
  destruct Hrows as (_ & _ & _ & _ & Hblank & Hfirst). split.
  - intros Hall. by rewrite Hblank.
  - intros before line after nt tokens k token Heq Hbefore Hsplit Hfind.
    by rewrite (Hfirst eq_refl before line after nt tokens k token).
Qed.

(** The start rule of [ll_file]: its only cell, "S->id", read as "#". *)
Lemma ll_table_start_rule_witness :
  ∃ ll,
    Loader.generate_ll_table ll_file = inr ll
    ∧ drop 1 (Loader.normalise <$> ll_file) = [] ++ lit "S;S->#;" :: []
    ∧ LL.start_symbol ll = lit "S" ∧ LL.start_rule ll = lit "#".
Proof.
  eexists. split; [reflexivity|]. split; [reflexivity|].
  apply (proj2 (ll_table_start_rule ll_file _ eq_refl)
           [] (lit "S;S->#;") [] (lit "S") [lit "S->#"; []] 0 (lit "S->#"));
    [reflexivity | constructor | reflexivity | reflexivity].
Defined.

(** * The tables on the console *)

(** ** Widths and cells *)

Lemma longer_max max_len col : Display.longer max_len col = Z.max max_len (len col).
Proof. unfold Display.longer. destruct (Z.ltb_spec max_len (len col)); lia. Qed.

Lemma len_nonneg s : (0 <= len s)%Z.
Proof. unfold len. lia. Qed.

Lemma len_app s t : len (s ++ t) = (len s + len t)%Z.
Proof. unfold len. rewrite length_app. lia. Qed.

Lemma len_spaces n : len (spaces n) = Z.max 0 n.
Proof. unfold len, spaces. rewrite length_replicate. lia. Qed.

(** A cell padded on the right or on the left has the width of its
    column, the longer of the title and the longest entry. *)
Lemma len_padded title_len width x :
  (len x <= width)%Z →
  len (x ++ spaces (Z.max (title_len - len x) (width - len x)))
  = Z.max title_len width
  ∧ len (spaces (Z.max (title_len - len x) (width - len x)) ++ x)
    = Z.max title_len width.
Proof. intros H. rewrite !len_app, len_spaces. lia. Qed.

Lemma ll_widths_spec outputs n s i :
  match Display.ll_widths outputs n s i with
  | (n', s', i') =>
      (n <= n')%Z ∧ (s <= s')%Z ∧ (i <= i')%Z
      ∧ Forall (λ r, (len (LL.NO r) <= n')%Z
                     ∧ (len (Display.with_id (LL.STACK r)) <= s')%Z
                     ∧ (len (Display.with_id (LL.INPUT r)) <= i')%Z) outputs
  end.
Proof.
  revert n s i. induction outputs as [|r outputs IH]; intros n s i.
  - simpl. repeat split; (lia || constructor).
  - cbn [Display.ll_widths]. rewrite !longer_max.
    specialize (IH (Z.max n (len (LL.NO r)))
                  (Z.max s (len (Display.with_id (LL.STACK r))))
                  (Z.max i (len (Display.with_id (LL.INPUT r))))).
    destruct (Display.ll_widths outputs _ _ _) as [[n' s'] i'].
    destruct IH as (Hn & Hs & Hi & Hall).
    split; [lia|]. split; [lia|]. split; [lia|].
    constructor; [lia | done].
Qed.

Lemma lr_widths_spec outputs n s i :
  match Display.lr_widths outputs n s i with
  | (n', s', i') =>
      (n <= n')%Z ∧ (s <= s')%Z ∧ (i <= i')%Z
      ∧ Forall (λ r, (len (LR.NO r) <= n')%Z
                     ∧ (len (LR.STATE_STACK r) <= s')%Z
                     ∧ (len (LR.INPUT r) <= i')%Z) outputs
  end.
Proof.
  revert n s i. induction outputs as [|r outputs IH]; intros n s i.
  - simpl. repeat split; (lia || constructor).
  - cbn [Display.lr_widths]. rewrite !longer_max.
    specialize (IH (Z.max n (len (LR.NO r)))
                  (Z.max s (len (LR.STATE_STACK r)))
                  (Z.max i (len (LR.INPUT r)))).
    destruct (Display.lr_widths outputs _ _ _) as [[n' s'] i'].
    destruct IH as (Hn & Hs & Hi & Hall).
    split; [lia|]. split; [lia|]. split; [lia|].
    constructor; [lia | done].
Qed.

(** ** Identifiers, there and back *)

Lemma replace_absent x new s :
  x ∉ s → replace s [x] new = s.
Proof.
  unfold replace. induction s as [|c s IH]; [done|].
  intros [Hc Hs]%not_elem_of_cons. cbn [replace_from startswith].
  rewrite decide_False by done. by rewrite IH.
Qed.

Lemma with_id_normalised_upto n s :
  length s ≤ n → 35%N ∉ s →
  Display.with_id (replace s (lit "id") ID_SYMBOL) = s.
Proof.
  unfold Display.with_id, replace. change ID_SYMBOL with [35%N].
  change (lit "id") with [105%N; 100%N]. cbv iota beta.
  revert s. induction n as [|n IH]; intros s Hlen Hs.
  - destruct s; [done | simpl in Hlen; lia].
  - destruct s as [|c s]; [done|].
    apply not_elem_of_cons in Hs as [Hc Hs]. simpl in Hlen.
    cbn [replace_from]. destruct (startswith (c :: s) [105%N; 100%N]) eqn:Hpre.
    + apply startswith_app in Hpre. simpl in Hpre.
      injection Hpre as -> Hs'. destruct s as [|d s]; [done|].
      simpl in Hs'. injection Hs' as ->.
      apply not_elem_of_cons in Hs as [_ Hs]. simpl in Hlen.
      cbn [app length Nat.sub replace_from startswith].
      rewrite decide_True by done.
      replace (startswith (replace_from [105%N; 100%N] [35%N] 0 s) [])
        with true by (by destruct (replace_from _ _ 0 s)).
      cbn [app]. do 2 f_equal. apply IH; [lia | done].
    + cbn [replace_from startswith]. rewrite decide_False by done.
      f_equal. apply IH; [lia | done].
Qed.

(** ** The step numbers are digits *)

Lemma digits_of_uint d :
  Forall (λ c, (48 <= c <= 57)%N) (lit (NilEmpty.string_of_uint d)).
Proof.
  induction d; simpl; [constructor|..];
    (constructor; [vm_compute; split; discriminate | exact IHd]).
Qed.

Lemma str_of_nat_no_id n : 35%N ∉ str_of_nat n.
Proof.
  intros Hin. unfold str_of_nat in Hin.
  apply (proj1 (Forall_forall _ _) (digits_of_uint (Nat.to_uint n))) in Hin.
  lia.
Qed.

(** ** The printed tables *)

Lemma ll_display_lines outputs out :
  Display.display_ll_table_outputs outputs out
  = out
    ++ [] :: (let '(n, s, i) := Display.ll_widths outputs 0 0 0 in
              Display.ll_header n s i :: (Display.ll_row n s i <$> outputs)).
Proof.
  unfold Display.display_ll_table_outputs.
  destruct (Display.ll_widths outputs 0 0 0) as [[n s] i].
  by rewrite <- !(assoc_L (++)).
Qed.

Lemma lr_display_lines outputs out :
  Display.display_lr_table_outputs outputs out
  = out
    ++ [] :: (let '(n, s, i) := Display.lr_widths outputs 0 0 0 in
              Display.lr_header n s i :: omap (Display.lr_row n s i) outputs).
Proof.
  unfold Display.display_lr_table_outputs.
  destruct (Display.lr_widths outputs 0 0 0) as [[n s] i].
  by rewrite <- !(assoc_L (++)).
Qed.

Lemma length_len (s : str) (w : Z) : len s = w → length s = Z.to_nat w.
Proof. unfold len. lia. Qed.

(** X18: the LL table that [display_ll_table_outputs] prints for the
    records of a run is aligned: after the empty line, the header and
    every row have their three separators at the same places. One row is
    printed for every record. *)
Theorem ll_table_is_aligned fuel ll input out0 out :
  ∃ (w1 w2 w3 : nat) table,
    Display.display_ll_table_outputs
      (outputs_of (LL.evaluate_ll_input fuel ll input out0).1) out
    = out ++ [] :: table
    ∧ length table
      = S (length (outputs_of (LL.evaluate_ll_input fuel ll input out0).1))
    ∧ Forall (λ line,
                ∃ c1 c2 c3 rest,
                  line = c1 ++ lit " | " ++ c2 ++ lit " | " ++ c3
                           ++ lit " | " ++ rest
                  ∧ length c1 = w1 ∧ length c2 = w2 ∧ length c3 = w3)
        table.
Proof.
  rewrite ll_evaluate_loop.
  set (outputs := outputs_of (LL.loop fuel ll 1 LL.initial_stack
                                (LL.initial_queue input) [])).
  assert (Forall (λ r, Display.with_id (LL.NO r) = LL.NO r) outputs)
    as Hno.
  { apply Forall_forall. intros r Hr.
    apply (list_elem_of_fmap_2 LL.NO) in Hr. unfold outputs in Hr.
    rewrite ll_loop_numbers in Hr.
    apply list_elem_of_fmap in Hr as (k & -> & _).
    apply replace_absent, str_of_nat_no_id. }
  rewrite ll_display_lines.
  pose proof (ll_widths_spec outputs 0 0 0) as Hw.
  destruct (Display.ll_widths outputs 0 0 0) as [[n s] i].
  destruct Hw as (Hn & Hs & Hi & Hall).
  exists (Z.to_nat (Z.max 2 n)), (Z.to_nat (Z.max 5 s)),
    (Z.to_nat (Z.max 5 i)). eexists. split; [done|].
  split; [simpl; by rewrite length_fmap|].
  constructor.
  - exists (lit "NO" ++ spaces (n - len (lit "NO"))),
      (lit "STACK" ++ spaces (s - len (lit "STACK"))),
      (lit "INPUT" ++ spaces (i - len (lit "INPUT"))), (lit "ACTION").
    split; [unfold Display.ll_header; rewrite <- !app_assoc; reflexivity|].
    split; [|split]; apply length_len; rewrite len_app, len_spaces;
      change (len (lit "NO")) with 2%Z; change (len (lit "STACK")) with 5%Z;
      change (len (lit "INPUT")) with 5%Z; lia.
  - apply Forall_fmap, Forall_forall. intros r Hr. cbv beta.
    unfold compose.
    pose proof (proj1 (Forall_forall _ _) Hall r Hr) as (Hrn & Hrs & Hri).
    pose proof (proj1 (Forall_forall _ _) Hno r Hr) as Hid.
    rewrite <- Hid in Hrn.
    unfold Display.ll_row.
    set (no_out := Display.with_id (LL.NO r)) in *.
    set (stack_out := Display.with_id (LL.STACK r)) in *.
    set (input_out := Display.with_id (LL.INPUT r)) in *.
    set (action_out := Display.with_id (LL.ACTION r)). cbv zeta.
    exists (no_out ++ spaces (Z.max (len (lit "NO") - len no_out)
                                (n - len no_out))),
      (stack_out ++ spaces (Z.max (len (lit "STACK") - len stack_out)
                              (s - len stack_out))),
      (spaces (Z.max (len (lit "INPUT") - len input_out)
                 (i - len input_out)) ++ input_out), action_out.
    split; [rewrite <- !app_assoc; reflexivity|].
    split; [|split]; apply length_len.
    + change 2%Z with (len (lit "NO")). by apply len_padded.
    + change 5%Z with (len (lit "STACK")). by apply len_padded.
    + change 5%Z with (len (lit "INPUT")). by apply len_padded.
Qed.

(** X19: the LR table that [display_lr_table_outputs] prints for the
    records of a run is aligned: the header and every row have their four
    separators at the same places, the READ column being four characters
    wide. A row is printed for the records that have an action, and for
    no other. *)
Theorem lr_table_is_aligned fuel lr input out0 out :
  ∃ (w1 w2 w3 : nat) table,
    Display.display_lr_table_outputs
      (outputs_of (LR.evaluate_lr_input fuel lr input out0).1) out
    = out ++ [] :: table
    ∧ length table
      = S (length (filter (λ r, is_Some (LR.ACTION r))
                     (outputs_of (LR.evaluate_lr_input fuel lr input out0).1)))
    ∧ Forall (λ line,
                ∃ c1 c2 c3 c4 rest,
                  line = c1 ++ lit " | " ++ c2 ++ lit " | " ++ c3
                           ++ lit " | " ++ c4 ++ lit " | " ++ rest
                  ∧ length c1 = w1 ∧ length c2 = w2 ∧ length c3 = 4
                  ∧ length c4 = w3)
        table.
Proof.
  rewrite lr_evaluate_loop.
  set (outputs := outputs_of (LR.loop fuel lr 1
                                (LR.initial_compounds lr input) [])).
  assert (Forall (λ r, LR.READ r = None ∧ LR.ACTION r = None
                       ∨ ∃ ch, LR.READ r = Some [ch]
                               ∧ is_Some (LR.ACTION r)) outputs) as Hread.
  { apply Forall_forall. intros r Hr.
    eapply lr_records_read_action; [apply lr_initial_shaped | done]. }
  rewrite lr_display_lines.
  pose proof (lr_widths_spec outputs 0 0 0) as Hw.
  destruct (Display.lr_widths outputs 0 0 0) as [[n s] i].
  destruct Hw as (Hn & Hs & Hi & Hall).
  exists (Z.to_nat (Z.max 2 n)), (Z.to_nat (Z.max 11 s)),
    (Z.to_nat (Z.max 5 i)). eexists. split; [done|].
  split.
  { cbn [length]. f_equal. clear.
    induction outputs as [|r outputs IH]; [reflexivity|].
    cbn [omap list_omap]. unfold Display.lr_row at 1.
    destruct (LR.ACTION r) eqn:Hact.
    - rewrite filter_cons_True by (rewrite Hact; by eexists).
      cbn [length]. f_equal. exact IH.
    - rewrite filter_cons_False by (rewrite Hact; by intros [??]).
      exact IH. }
  constructor.
  - exists (lit "NO" ++ spaces (n - len (lit "NO"))),
      (lit "STATE STACK" ++ spaces (s - len (lit "STATE STACK"))),
      (lit "READ"),
      (lit "INPUT" ++ spaces (i - len (lit "INPUT"))), (lit "ACTION").
    split; [unfold Display.lr_header; rewrite <- !app_assoc; reflexivity|].
    split; [|split; [|split; [reflexivity|]]]; apply length_len;
      rewrite len_app, len_spaces;
      change (len (lit "NO")) with 2%Z;
      change (len (lit "STATE STACK")) with 11%Z;
      change (len (lit "INPUT")) with 5%Z; lia.
  - apply Forall_forall. intros line Hline.
    apply list_elem_of_omap in Hline as (r & Hr & Hrow).
    pose proof (proj1 (Forall_forall _ _) Hall r Hr) as (Hrn & Hrs & Hri).
    pose proof (proj1 (Forall_forall _ _) Hread r Hr) as Hrr.
    unfold Display.lr_row in Hrow. cbv beta in Hrr.
    destruct (LR.ACTION r) as [action_out|] eqn:Hact; [|done].
    destruct Hrr as [[_ ?]|(ch & Hch & _)]; [done|].
    rewrite Hch in Hrow. cbv zeta in Hrow. cbn [default] in Hrow.
    injection Hrow as <-.
    exists (LR.NO r ++ spaces (Z.max (len (lit "NO") - len (LR.NO r))
                                 (n - len (LR.NO r)))),
      (LR.STATE_STACK r
         ++ spaces (Z.max (len (lit "STATE STACK") - len (LR.STATE_STACK r))
                      (s - len (LR.STATE_STACK r)))),
      ([ch] ++ lit "   "),
      (spaces (Z.max (len (lit "INPUT") - len (LR.INPUT r))
                 (i - len (LR.INPUT r))) ++ LR.INPUT r), action_out.
    split; [rewrite <- !app_assoc; reflexivity|].
    split; [|split; [|split; [reflexivity|]]]; apply length_len.
    + change 2%Z with (len (lit "NO")). by apply len_padded.
    + change 11%Z with (len (lit "STATE STACK")). by apply len_padded.
    + change 5%Z with (len (lit "INPUT")). by apply len_padded.
Qed.

(** X20: replacing "id" by "#" is undone on the console when the input
    string holds no "#": the INPUT cell of the first row of the LL table
    spells the input string as it was given. *)
Theorem ll_display_restores_identifiers fuel ll input out r :
  35%N ∉ input →
  outputs_of (LL.evaluate_ll_input fuel ll input out).1 !! 0 = Some r →
  Display.with_id (LL.INPUT r) = input.
Proof.
  intros Hinput Hr. rewrite ll_evaluate_loop in Hr.
  apply ll_loop_consecutive in Hr as [_ ->].
  by apply (with_id_normalised_upto (length input)).
Qed.

Lemma ll_display_restores_identifiers_witness :
  (35%N ∉ lit "id+id$")
  ∧ ∃ r, outputs_of (LL.evaluate_ll_input 1 ll_id (lit "id+id$") []).1 !! 0
         = Some r
         ∧ LL.INPUT r = lit "#+#$"
         ∧ Display.with_id (LL.INPUT r) = lit "id+id$".
Proof.
  assert (35%N ∉ lit "id+id$") as Hno by by_compute.
  split; [exact Hno|]. eexists. split; [reflexivity|].
  split; [reflexivity|].
  apply (ll_display_restores_identifiers 1 ll_id (lit "id+id$") [] _ Hno).
  reflexivity.
Defined.

(** ** The loop of [main] *)

Lemma main_loop_app fuel ll lr ps1 ps2 out :
  Main.loop fuel ll lr (ps1 ++ ps2) out
  = match Main.loop fuel ll lr ps1 out with
    | (Main.Done, out') => Main.loop fuel ll lr ps2 out'
    | ended => ended
    end.
Proof.
  revert out. induction ps1 as [|p ps1 IH]; intros out; [done|].
  cbn [app Main.loop].
  repeat case_decide.
  - destruct (LL.evaluate_ll_input _ _ _ _) as [[outputs|e outputs|outputs] ?];
      [apply IH|done..].
  - destruct (LR.evaluate_lr_input _ _ _ _) as [[outputs|e outputs|outputs] ?];
      [apply IH|done..].
  - apply IH.
Qed.

(** X21: [main] stops at the first input string whose evaluation raises:
    when the inputs before it were processed, the exception ends the
    program with what was printed until then, and none of the input
    strings that follow is evaluated or displayed. *)
Theorem main_stops_at_first_failure fuel ll lr ps1 p ps2 out out1 e outputs
    out2 :
  Main.loop fuel ll lr ps1 out = (Main.Done, out1) →
  Loader.method p = lit "LL" →
  LL.evaluate_ll_input fuel ll (Loader.string p) out1
    = (Raised e outputs, out2) →
  Main.loop fuel ll lr (ps1 ++ p :: ps2) out = (Main.Failed e, out2).
Proof.
  intros Hbefore Hmethod Hrun. rewrite main_loop_app, Hbefore.
  cbn [Main.loop]. rewrite decide_True by done. by rewrite Hrun.
Qed.

Lemma main_stops_at_first_failure_witness :
  let first := {| Loader.method := lit "LL"; Loader.string := lit "id$" |} in
  let empty := {| Loader.method := lit "LL"; Loader.string := [] |} in
  let last := {| Loader.method := lit "LR"; Loader.string := lit "ab$" |} in
  ∃ out1 outputs out2,
    Main.loop 9 ll_id lr_ab [first] [] = (Main.Done, out1)
    ∧ LL.evaluate_ll_input 9 ll_id (Loader.string empty) out1
      = (Raised IndexError outputs, out2)
    ∧ Main.loop 9 ll_id lr_ab ([first] ++ empty :: [last]) []
      = (Main.Failed IndexError, out2).
Proof.
  intros first empty last.
  assert (∃ out1, Main.loop 9 ll_id lr_ab [first] [] = (Main.Done, out1))
    as [out1 Hbefore] by (eexists; vm_compute; reflexivity).
  assert (∃ outputs out2,
            LL.evaluate_ll_input 9 ll_id (Loader.string empty) out1
            = (Raised IndexError outputs, out2))
    as (outputs & out2 & Hrun) by (do 2 eexists; reflexivity).
  exists out1, outputs, out2. split; [exact Hbefore|]. split; [exact Hrun|].
  exact (main_stops_at_first_failure 9 ll_id lr_ab [first] empty [last] []
           out1 IndexError outputs out2 Hbefore eq_refl Hrun).
Defined.
